(** * DCS decoder and squelch gate: a shallow embedding and its properties

    Sources embedded here:
    - [gr_blocks/decoders/dcs_decode.cc]: the Golay (23,12) syndrome, the
      syndrome table, the recognised-code table, the per-sample decoder loop
      and the confirmation counter;
    - [gr_blocks/dcs_squelch_ff_impl.cc]: the squelch gate that owns a decoder,
      with its constructor, its callback and its [work] function.

    Conventions.  [uint32_t] values are [Z] in [0, 2^32); the one operation
    that can leave that range ([window_b << 1], and [~x]) is wrapped with [u32].
    [int] values are [Z]; the arithmetic on them is the mathematical one, which
    is what C specifies as long as the value fits the type.  [float] is IEEE
    binary32, modelled with the Standard Library's [SpecFloat] at precision 24
    and maximal exponent 128, every operation rounded on its own as written in
    the source.  The C array [tbl[2048]] is a [list Z] read with [!!] and
    written with [<[ _ := _ ]>].

    The bounds of the bit clock are stated over the values of the numbers,
    as integers in units of 2^-149 ([Rounding.units]); [RoundingFacts]
    relates the operations of [SpecFloat] to the rounding of such integers.

    The theorems marked C1 to C10 are the properties the specification states;
    those marked X1 to X22 are further properties of the same code. *)

From Stdlib Require Import ZArith List Bool Lia.
From Stdlib Require Import Floats.SpecFloat.
From stdpp Require Import base list.

Import ListNotations.
Local Open Scope Z_scope.

(** ** Golay (23,12) syndrome *)

Module Golay.

(** [#define GOLAY_POLY 0xC75U] and [#define GOLAY_SYN_INVALID 0xFFFFFFFFU]. *)
Definition GOLAY_POLY : Z := 0xC75.
Definition GOLAY_SYN_INVALID : Z := 0xFFFFFFFF.

(** Body of the division loop at position [i]:
    [if ((reg >> i) & 1U) reg ^= (GOLAY_POLY << (i - 11));]. *)
Definition syndrome_step (reg i : Z) : Z :=
  if Z.testbit reg i then Z.lxor reg (Z.shiftl GOLAY_POLY (i - 11)) else reg.

(** [for (i = 10 + n; i >= 11; i--) ...]: [n] iterations remain. *)
Fixpoint syndrome_loop (n : nat) (reg : Z) : Z :=
  match n with
  | O => reg
  | S k => syndrome_loop k (syndrome_step reg (Z.of_nat (11 + k)))
  end.

Definition golay_syndrome (word : Z) : Z :=
  let reg := Z.land word 0x7FFFFF in
  Z.land (syndrome_loop 12 reg) 0x7FF.

(** ** Syndrome table *)

(** [if (tbl[s] == GOLAY_SYN_INVALID) tbl[s] = e;] with [s = golay_syndrome(e)].
    A read outside the array does not happen ([s < 2048]); the model leaves
    the table alone there. *)
Definition table_entry (tbl : list Z) (s : Z) : option Z := tbl !! Z.to_nat s.

Definition store_pattern (tbl : list Z) (e : Z) : list Z :=
  let s := golay_syndrome e in
  match table_entry tbl s with
  | Some v => if v =? GOLAY_SYN_INVALID then <[ Z.to_nat s := e ]> tbl else tbl
  | None => tbl
  end.

(** The integers [lo, lo+1, ..., hi-1] of a [for] loop. *)
Definition range (lo hi : nat) : list nat := seq lo (hi - lo).

Definition bit (i : nat) : Z := Z.shiftl 1 (Z.of_nat i).

Definition fill_invalid : list Z := replicate 2048 GOLAY_SYN_INVALID.

Definition store_weight1 (tbl : list Z) : list Z :=
  fold_left (fun t i => store_pattern t (bit i)) (range 0 23) tbl.

Definition store_weight2 (tbl : list Z) : list Z :=
  fold_left (fun t i =>
    fold_left (fun t j => store_pattern t (Z.lor (bit i) (bit j)))
              (range (i + 1) 23) t)
    (range 0 23) tbl.

Definition store_weight3 (tbl : list Z) : list Z :=
  fold_left (fun t i =>
    fold_left (fun t j =>
      fold_left (fun t k =>
        store_pattern t (Z.lor (Z.lor (bit i) (bit j)) (bit k)))
        (range (j + 1) 23) t)
      (range (i + 1) 23) t)
    (range 0 23) tbl.

(** [build_syndrome_table(tbl)]: the contents of [tbl] on return.  The array
    passed in is overwritten entirely, so the result does not depend on it. *)
Definition build_syndrome_table : list Z :=
  store_weight3 (store_weight2 (store_weight1 (<[ 0%nat := 0 ]> fill_invalid))).

(** ** Hamming weight and bounded-weight enumeration *)

(** Number of set bits among the low [n] bits of [z]. *)
Fixpoint popcount (n : nat) (z : Z) : nat :=
  match n with
  | O => O
  | S k => ((if Z.odd z then 1 else 0) + popcount k (Z.div2 z))%nat
  end.

(** [all_weight_le n k P]: [P] holds of every [n]-bit word of weight at most
    [k].  The word is built from its lowest bit upwards. *)
Fixpoint all_weight_le (n k : nat) (P : Z -> bool) : bool :=
  match n with
  | O => P 0
  | S n' =>
      all_weight_le n' k (fun z => P (2 * z)) &&
      match k with
      | O => true
      | S k' => all_weight_le n' k' (fun z => P (2 * z + 1))
      end
  end.

(** [all_from n z P]: [P] holds of the [n] integers [z, z+1, ...]. *)
Fixpoint all_from (n : nat) (z : Z) (P : Z -> bool) : bool :=
  match n with
  | O => true
  | S k => P z && all_from k (z + 1) P
  end.

(** Number of table entries whose 32-bit value has exactly [k] set bits. *)
Definition count_weight (tbl : list Z) (k : nat) : nat :=
  length (List.filter (fun v => Nat.eqb (popcount 32 v) k) tbl).

(** ** The systematic encoder of the specification

    The source has no encoder.  The two definitions below follow the words of
    the specification: the check bits of a message [m] are the remainder of
    the polynomial long division of [m * x^11] by the generator, over GF(2). *)

(** Long division over GF(2): cancel the leading term of [a] while its degree
    is at least the degree of [g]. *)
Fixpoint gf2_rem (fuel : nat) (a g : Z) : Z :=
  match fuel with
  | O => a
  | S f =>
      if (a =? 0) || (Z.log2 a <? Z.log2 g) then a
      else gf2_rem f (Z.lxor a (Z.shiftl g (Z.log2 a - Z.log2 g))) g
  end.

Definition golay_encode (m : Z) : Z :=
  Z.lor (Z.shiftl m 11) (gf2_rem 23 (Z.shiftl m 11) GOLAY_POLY).

(** The table entry at the syndrome of [e] is [e] itself. *)
Definition corrects (tbl : list Z) (e : Z) : bool :=
  match table_entry tbl (golay_syndrome e) with
  | Some v => v =? e
  | None => false
  end.

End Golay.

(** ** Recognised codes *)

Module Codes.

Definition DCS_VALID_CODES : list Z :=
  [ 19;  21;  22;  25;  26;  30;  35;  39;  41;  43;  44;  53;
    57;  58;  59;  60;
    76;  77;  78;  82;  85;  89;  90;  92;  99; 101; 106; 109;
   110; 114; 117; 122; 124;
   133; 138; 140; 147; 149; 150; 163; 164; 165; 166; 169; 170;
   173; 177; 179; 181; 182; 185; 188;
   198; 201; 205; 213; 217; 218; 227; 230; 233; 238; 244; 245; 249;
   265; 266; 267; 275; 281; 282; 293; 294; 298; 300; 301; 306; 308;
   309; 310;
   323; 326; 334; 339; 342; 346; 358; 373;
   390; 394; 404; 407; 409; 410; 428; 434; 436;
   451; 458; 467; 473; 474; 476; 483; 492 ].

(** [sizeof(DCS_VALID_CODES) / sizeof(DCS_VALID_CODES[0])]. *)
Definition DCS_NUM_CODES : Z := Z.of_nat (length DCS_VALID_CODES).

(** [(uint16_t)code] for an [int] argument. *)
Definition u16 (z : Z) : Z := z mod 2 ^ 16.

(** The search loop returns 1 at the first entry equal to [(uint16_t)code]. *)
Definition is_valid_dcs_code (code : Z) : bool :=
  existsb (fun v => v =? u16 code) DCS_VALID_CODES.

(** The integers of [0, n) that [is_valid_dcs_code] accepts. *)
Definition accepted_below (n : nat) : list Z :=
  List.filter is_valid_dcs_code (map Z.of_nat (seq 0 n)).

End Codes.

(** ** IEEE binary32 arithmetic *)

Module F32.

Definition float : Type := spec_float.

Definition prec : Z := 24.
Definition emax : Z := 128.

Definition add : float -> float -> float := SFadd prec emax.
Definition sub : float -> float -> float := SFsub prec emax.
Definition mul : float -> float -> float := SFmul prec emax.
Definition div : float -> float -> float := SFdiv prec emax.
Definition opp : float -> float := SFopp.

(** [x < y] and [x <= y]; both are false when an operand is a NaN. *)
Definition lt : float -> float -> bool := SFltb.
Definition le : float -> float -> bool := SFleb.

(** [(float)n] for an [int] [n], rounded to nearest even. *)
Definition of_int (n : Z) : float := binary_normalize prec emax n 0 false.

(** The literals of the source, as mantissa and exponent. *)
Definition zero : float := S754_zero false.              (* 0.0f *)
Definition one : float := S754_finite false 8388608 (-23).      (* 1.0f *)
Definition two : float := S754_finite false 8388608 (-22).      (* 2.0f *)
Definition c0_5 : float := S754_finite false 8388608 (-24).     (* 0.5f *)
Definition c0_05 : float := S754_finite false 13421773 (-28).   (* 0.05f *)
Definition c134_4 : float := S754_finite false 8808038 (-16).   (* 134.4f *)
Definition c300 : float := S754_finite false 9830400 (-15).     (* 300.0f *)
Definition c_pi : float := S754_finite false 13176795 (-22).    (* 3.14159265f *)

End F32.

(** ** Values of binary32 numbers, in units of 2^-149

    Every finite binary32 number is an integer multiple of 2^-149, the
    smallest subnormal.  The definitions below express the value of a number
    and the rounding to nearest (ties to even) over such integers; they are
    what the clock-recovery bounds are stated with. *)

Module Rounding.

(** [M / 2^k] rounded to the nearest integer, ties to the even one. *)
Definition rne (M k : Z) : Z :=
  if k <=? 0 then M else
  let q := M / 2 ^ k in
  match 2 * (M mod 2 ^ k) ?= 2 ^ k with
  | Lt => q
  | Gt => q + 1
  | Eq => if Z.even q then q else q + 1
  end.

(** The exponent of the last place of a 24-bit mantissa holding [v]. *)
Definition ulp_exp (v : Z) : Z := Z.max (Z.log2 v + 1 - 24) 0.

(** The rounding of a number of units to 24 significant bits. *)
Definition round24 (v : Z) : Z :=
  if v <=? 0 then 0 else rne v (ulp_exp v) * 2 ^ ulp_exp v.

(** The numbers of units a 24-bit mantissa can hold. *)
Definition representable (v : Z) : Prop :=
  exists m j, 0 <= m < 2 ^ 24 /\ 0 <= j /\ v = m * 2 ^ j.

(** The record [shr] leaves after [n] right shifts of an exact mantissa. *)
Definition shifted (M : Z) (n : Z) : shr_record :=
  if n <=? 0 then Build_shr_record M false false
  else Build_shr_record (M / 2 ^ n) (Z.testbit M (n - 1))
         (negb (M mod 2 ^ (n - 1) =? 0)).

(** The value of a number that is not negative, in units of 2^-149. *)
Definition units (f : spec_float) : Z :=
  match f with
  | S754_finite false m e => Z.pos m * 2 ^ (e + 149)
  | _ => 0
  end.

(** Zero, or a positive number in canonical binary32 form: neither negative,
    nor infinite, nor NaN. *)
Definition nonneg_finite (f : spec_float) : bool :=
  match f with
  | S754_zero _ => true
  | S754_finite false m e => bounded 24 128 m e
  | _ => false
  end.

(** [FLT_MAX] in units. *)
Definition max_units : Z := (2 ^ 24 - 1) * 2 ^ 253.

(** The end of [binary_round_aux]: the rounded mantissa [N] at exponent [e]
    is renormalised and checked for overflow. *)
Definition finish (N e : Z) : spec_float :=
  let n2 := Z.max (Zdigits2 N + e - 24) (-149) - e in
  match shr_m (shifted N n2) with
  | Z0 => S754_zero false
  | Z.pos m =>
      if (if 0 <? n2 then e + n2 else e) <=? 104
      then S754_finite false m (if 0 <? n2 then e + n2 else e)
      else S754_infinity false
  | Z.neg _ => S754_nan
  end.

End Rounding.

(** ** The decoder *)

Module Decoder.
Import Golay Codes Rounding.

Abbreviation float := F32.float.

(** A function pointer and a [void *]: addresses. *)
Definition funptr : Type := Z.
Definition ptr : Type := Z.

(** [struct dcs_decoder].  [callback = None] is the NULL pointer. *)
Record dcs_decoder : Type := {
  lp_alpha : float;
  lp_state : float;
  lp_prev : float;
  samples_per_bit : float;
  bit_phase : float;
  bit_accum : float;
  window_a : Z;
  window_b : Z;
  last_code : Z;
  last_inverted : Z;
  confirm_count : Z;
  syndrome_tbl : list Z;
  callback : option funptr;
  callback_ctx : ptr
}.

(** One call [dec->callback(code, inverted, dec->callback_ctx)]. *)
Record invocation : Type := {
  inv_fn : funptr;
  inv_code : Z;
  inv_inverted : Z;
  inv_ctx : ptr
}.

(** Field updates. *)
Definition set_filter_clock (dec : dcs_decoder)
    (state prev phase accum : float) : dcs_decoder :=
  {| lp_alpha := lp_alpha dec; lp_state := state; lp_prev := prev;
     samples_per_bit := samples_per_bit dec;
     bit_phase := phase; bit_accum := accum;
     window_a := window_a dec; window_b := window_b dec;
     last_code := last_code dec; last_inverted := last_inverted dec;
     confirm_count := confirm_count dec;
     syndrome_tbl := syndrome_tbl dec;
     callback := callback dec; callback_ctx := callback_ctx dec |}.

Definition set_windows (dec : dcs_decoder) (a b : Z) : dcs_decoder :=
  {| lp_alpha := lp_alpha dec; lp_state := lp_state dec;
     lp_prev := lp_prev dec;
     samples_per_bit := samples_per_bit dec;
     bit_phase := bit_phase dec; bit_accum := bit_accum dec;
     window_a := a; window_b := b;
     last_code := last_code dec; last_inverted := last_inverted dec;
     confirm_count := confirm_count dec;
     syndrome_tbl := syndrome_tbl dec;
     callback := callback dec; callback_ctx := callback_ctx dec |}.

Definition set_confirm (dec : dcs_decoder) (code inverted count : Z)
    : dcs_decoder :=
  {| lp_alpha := lp_alpha dec; lp_state := lp_state dec;
     lp_prev := lp_prev dec;
     samples_per_bit := samples_per_bit dec;
     bit_phase := bit_phase dec; bit_accum := bit_accum dec;
     window_a := window_a dec; window_b := window_b dec;
     last_code := code; last_inverted := inverted;
     confirm_count := count;
     syndrome_tbl := syndrome_tbl dec;
     callback := callback dec; callback_ctx := callback_ctx dec |}.

(** [uint32_t] wrap-around, and [~x] on [uint32_t]. *)
Definition u32 (z : Z) : Z := z mod 2 ^ 32.
Definition not32 (x : Z) : Z := u32 (Z.lnot x).

(** [try_decode_word]: [Some (code, inverted)] when it returns 1.  The table
    is read only when [s < 2048]. *)
Definition try_decode_word (syn_tbl : list Z) (word : Z) (polarity_inv : Z)
    : option (Z * Z) :=
  let s := golay_syndrome word in
  if s <? 2048 then
    match table_entry syn_tbl s with
    | Some e =>
        if negb (e =? GOLAY_SYN_INVALID) then
          let corrected := Z.lxor word e in
          let data := Z.land (Z.shiftr corrected 11) 0xFFF in
          if (Z.land data 0xE00 =? 0) && is_valid_dcs_code data
          then Some (data, polarity_inv)
          else None
        else None
    | None => None
    end
  else None.

(** The four guarded calls [if (!found) found = try_decode_word(...)]. *)
Definition decode_windows (syn_tbl : list Z) (wa wb : Z) : option (Z * Z) :=
  match try_decode_word syn_tbl wa 0 with
  | Some r => Some r
  | None =>
  match try_decode_word syn_tbl (Z.land (not32 wa) 0x7FFFFF) 1 with
  | Some r => Some r
  | None =>
  match try_decode_word syn_tbl wb 0 with
  | Some r => Some r
  | None => try_decode_word syn_tbl (Z.land (not32 wb) 0x7FFFFF) 1
  end end end.

(** The two window updates for a new bit. *)
Definition shift_windows (dec : dcs_decoder) (bit : Z) : dcs_decoder :=
  set_windows dec
    (Z.lor (Z.shiftr (window_a dec) 1) (Z.shiftl bit 22))
    (Z.land (Z.lor (u32 (Z.shiftl (window_b dec) 1)) bit) 0x7FFFFF).

(** The calls made for a match that brought the counter to [count]. *)
Definition fire (dec : dcs_decoder) (code inverted : Z) : list invocation :=
  match callback dec with
  | Some fn => [ {| inv_fn := fn; inv_code := code; inv_inverted := inverted;
                    inv_ctx := callback_ctx dec |} ]
  | None => []
  end.

(** The confirmation block [if (found) { ... } else { ... }]. *)
Definition confirm (dec : dcs_decoder) (found : option (Z * Z))
    : dcs_decoder * list invocation :=
  match found with
  | Some (code, inverted) =>
      if (code =? last_code dec) && (inverted =? last_inverted dec) then
        let count := confirm_count dec + 1 in
        let dec' := set_confirm dec (last_code dec) (last_inverted dec) count in
        (dec',
         (if count =? 2 then fire dec' code inverted else []) ++
         (if count >? 2 then fire dec' code inverted else []))
      else (set_confirm dec code inverted 1, [])
  | None =>
      if confirm_count dec >? 0
      then (set_confirm dec (last_code dec) (last_inverted dec)
                        (confirm_count dec - 1), [])
      else (dec, [])
  end.

(** [int bit = (dec->bit_accum > 0.0f) ? 1 : 0;]. *)
Definition emitted_bit (dec : dcs_decoder) : Z :=
  if F32.lt F32.zero (bit_accum dec) then 1 else 0.

(** The body of [if (dec->bit_phase >= dec->samples_per_bit) { ... }]. *)
Definition bit_boundary (dec : dcs_decoder) : dcs_decoder * list invocation :=
  let phase := F32.sub (bit_phase dec) (samples_per_bit dec) in
  let bit := emitted_bit dec in
  let dec1 :=
    set_filter_clock dec (lp_state dec) (lp_prev dec) phase F32.zero in
  let dec2 := shift_windows dec1 bit in
  confirm dec2
    (decode_windows (syndrome_tbl dec2) (window_a dec2) (window_b dec2)).

(** The bit phase after the zero-crossing test of one sample. *)
Definition nudge (dec : dcs_decoder) (filtered : float) : float :=
  if xorb (F32.lt (lp_prev dec) F32.zero) (F32.lt filtered F32.zero) then
    let half := F32.mul (samples_per_bit dec) F32.c0_5 in
    if F32.lt (bit_phase dec) half
    then F32.add (bit_phase dec) (F32.mul (samples_per_bit dec) F32.c0_05)
    else F32.sub (bit_phase dec) (F32.mul (samples_per_bit dec) F32.c0_05)
  else bit_phase dec.

(** [alpha * samples[i] + one_minus_a * dec->lp_state]. *)
Definition lowpass (alpha one_minus_a : float) (dec : dcs_decoder)
    (sample : float) : float :=
  F32.add (F32.mul alpha sample) (F32.mul one_minus_a (lp_state dec)).

(** The state after the filter, the clock nudge, the accumulation and the
    phase increment of one sample, before the bit-boundary test. *)
Definition advance (alpha one_minus_a : float) (dec : dcs_decoder)
    (sample : float) : dcs_decoder :=
  let filtered := lowpass alpha one_minus_a dec sample in
  set_filter_clock dec filtered filtered
    (F32.add (nudge dec filtered) F32.one)
    (F32.add (bit_accum dec) filtered).

(** [dec->bit_phase >= dec->samples_per_bit]. *)
Definition boundary_reached (dec : dcs_decoder) : bool :=
  F32.le (samples_per_bit dec) (bit_phase dec).

(** One iteration of the sample loop; [alpha] and [one_minus_a] are the
    locals computed before the loop. *)
Definition process_sample (alpha one_minus_a : float) (dec : dcs_decoder)
    (sample : float) : dcs_decoder * list invocation :=
  let dec1 := advance alpha one_minus_a dec sample in
  if boundary_reached dec1 then bit_boundary dec1 else (dec1, []).

Fixpoint process_loop (alpha one_minus_a : float) (dec : dcs_decoder)
    (samples : list float) : dcs_decoder * list invocation :=
  match samples with
  | [] => (dec, [])
  | x :: rest =>
      let '(dec1, calls1) := process_sample alpha one_minus_a dec x in
      let '(dec2, calls2) := process_loop alpha one_minus_a dec1 rest in
      (dec2, calls1 ++ calls2)
  end.

(** [dcs_decoder_process_samples(dec, samples, numSamples)]: the decoder on
    return and the callback invocations made, in order.  The buffer holds at
    least [numSamples] samples. *)
Definition dcs_decoder_process_samples (dec : dcs_decoder)
    (samples : list float) (numSamples : Z) : dcs_decoder * list invocation :=
  let alpha := lp_alpha dec in
  let one_minus_a := F32.sub F32.one alpha in
  process_loop alpha one_minus_a dec (take (Z.to_nat numSamples) samples).

(** [dcs_decoder_new(sampleRate)] when the allocation succeeds.  [expf] is the
    C library function. *)
Definition dcs_decoder_new (expf : float -> float) (sampleRate : Z)
    : dcs_decoder :=
  {| lp_alpha :=
       F32.sub F32.one
         (expf (F32.div
                  (F32.mul (F32.mul (F32.opp F32.two) F32.c_pi) F32.c300)
                  (F32.of_int sampleRate)));
     lp_state := F32.zero;
     lp_prev := F32.zero;
     samples_per_bit := F32.div (F32.of_int sampleRate) F32.c134_4;
     bit_phase := F32.zero;
     bit_accum := F32.zero;
     window_a := 0;
     window_b := 0;
     last_code := -1;
     last_inverted := 0;
     confirm_count := 0;
     syndrome_tbl := build_syndrome_table;
     callback := None;
     callback_ctx := 0 |}.

Definition dcs_decoder_set_callback (dec : dcs_decoder)
    (cb : option funptr) (ctx : ptr) : dcs_decoder :=
  {| lp_alpha := lp_alpha dec; lp_state := lp_state dec;
     lp_prev := lp_prev dec;
     samples_per_bit := samples_per_bit dec;
     bit_phase := bit_phase dec; bit_accum := bit_accum dec;
     window_a := window_a dec; window_b := window_b dec;
     last_code := last_code dec; last_inverted := last_inverted dec;
     confirm_count := confirm_count dec;
     syndrome_tbl := syndrome_tbl dec;
     callback := cb; callback_ctx := ctx |}.

(** The decoder states a program can observe: a new decoder, and whatever
    binding a callback or processing samples makes of one. *)
Inductive reachable : dcs_decoder -> Prop :=
| reach_new (expf : float -> float) (sampleRate : Z) :
    reachable (dcs_decoder_new expf sampleRate)
| reach_set_callback (dec : dcs_decoder) (cb : option funptr) (ctx : ptr) :
    reachable dec -> reachable (dcs_decoder_set_callback dec cb ctx)
| reach_process (dec : dcs_decoder) (samples : list float) (numSamples : Z) :
    reachable dec ->
    reachable (fst (dcs_decoder_process_samples dec samples numSamples)).

(** The decoder handed to [confirm] at a bit boundary. *)
Definition before_confirm (dec1 : dcs_decoder) : dcs_decoder :=
  shift_windows
    (set_filter_clock dec1 (lp_state dec1) (lp_prev dec1)
       (F32.sub (bit_phase dec1) (samples_per_bit dec1)) F32.zero)
    (emitted_bit dec1).

(** The facts that hold of every reachable decoder. *)
Definition invariant (dec : dcs_decoder) : Prop :=
  0 <= window_a dec < 2 ^ 23 /\
  0 <= window_b dec < 2 ^ 23 /\
  0 <= confirm_count dec /\
  syndrome_tbl dec = build_syndrome_table.

(** *** Reference descriptions, following the specification *)

(** The four candidate words of a bit boundary with their polarity flag:
    each window, and each window with its 23 bits flipped. *)
Definition candidates (wa wb : Z) : list (Z * Z) :=
  [ (wa, 0); (Z.lxor wa 0x7FFFFF, 1); (wb, 0); (Z.lxor wb 0x7FFFFF, 1) ].

(** The first candidate, in order, that decodes to a recognised code. *)
Definition first_match (syn_tbl : list Z) (cands : list (Z * Z))
    : option (Z * Z) :=
  fold_right
    (fun wp rest =>
       match try_decode_word syn_tbl (fst wp) (snd wp) with
       | Some r => Some r
       | None => rest
       end)
    None cands.

(** The confirmation state, and what a list of invocations reports. *)
Definition confirmation (dec : dcs_decoder) : Z * Z * Z :=
  (last_code dec, last_inverted dec, confirm_count dec).

Definition emitted (calls : list invocation) : list (Z * Z) :=
  map (fun i => (inv_code i, inv_inverted i)) calls.

Definition is_bound (dec : dcs_decoder) : bool :=
  match callback dec with Some _ => true | None => false end.

(** The transition table of the confirmation layer.  [bound] tells whether
    an event sink is attached. *)
Definition confirm_spec (bound : bool) (st : Z * Z * Z)
    (found : option (Z * Z)) : (Z * Z * Z) * list (Z * Z) :=
  let '(code0, inv0, count) := st in
  match found with
  | None => ((code0, inv0, Z.max (count - 1) 0), [])
  | Some (c, p) =>
      if (c =? code0) && (p =? inv0)
      then ((code0, inv0, count + 1),
            if bound && (2 <=? count + 1) then [(c, p)] else [])
      else ((c, p, 1), [])
  end.

(** The table of a decoder with a callback bound: every match that brings
    the counter to 2 or more is reported, once. *)
Definition confirm_as_claimed : Z * Z * Z -> option (Z * Z) ->
    (Z * Z * Z) * list (Z * Z) :=
  confirm_spec true.

(** A float that is a zero or a NaN. *)
Definition zero_or_nan (f : float) : bool :=
  match f with
  | S754_zero _ | S754_nan => true
  | _ => false
  end.

(** A test signal: [per] samples of +1.0 for a 1 bit, of -1.0 for a 0 bit. *)
Definition nrz (bits : list bool) (per : nat) : list float :=
  flat_map
    (fun b : bool => repeat (if b then F32.one else F32.opp F32.one) per)
    bits.

(** The value [expf] returns at the argument [dcs_decoder_new(16000)] passes,
    [-2.0f * 3.14159265f * 300.0f / 16000.0f]: 0.888865173. *)
Definition expf_16000 (x : float) : float := S754_finite false 14912683 (-24).

(** Sixteen bits that bring a new decoder to a confirmed code 298 (octal
    452), and the decoder just before the sample that confirms it: 1863
    samples of the 16 kHz signal, no callback bound. *)
Definition confirming_bits : list bool :=
  [ true; false; true; false; false; true; false; true;
    false; false; false; false; false; false; false; false ].

Definition unconfirmed_decoder : dcs_decoder :=
  fst (dcs_decoder_process_samples (dcs_decoder_new expf_16000 16000)
         (nrz confirming_bits 119) 1863).

(** That decoder once a callback is bound to it. *)
Definition unconfirmed_bound_decoder : dcs_decoder :=
  dcs_decoder_set_callback unconfirmed_decoder (Some 1) 0.

(** The decoder state in which silence keeps a decoder. *)
Definition silent (dec : dcs_decoder) : Prop :=
  zero_or_nan (lp_state dec) = true /\
  zero_or_nan (lp_prev dec) = true /\
  zero_or_nan (bit_accum dec) = true /\
  window_a dec = 0 /\ window_b dec = 0 /\
  confirm_count dec = 0 /\
  syndrome_tbl dec = build_syndrome_table.

(** The bit clock is sound: [samples_per_bit] is a finite number of at least
    2.0 and [bit_phase] is a finite number in [0, samples_per_bit). *)
Definition clock_ok (dec : dcs_decoder) : bool :=
  nonneg_finite (samples_per_bit dec) &&
  F32.le F32.two (samples_per_bit dec) &&
  nonneg_finite (bit_phase dec) &&
  F32.lt (bit_phase dec) (samples_per_bit dec).

(** [expf(-2.0f * 3.14159265f * 300.0f / 17200.0f)], about 0.896201: the
    one value of [expf] a decoder at 17200 Hz asks for. *)
Definition expf_17200 (x : float) : float := S754_finite false 15035759 (-24).

(** A stream at 17200 Hz: a constant level of 0.05 with four bursts of
    alternating full-scale samples, whose zero crossings move the clock. *)
Definition quiet (n : nat) : list float := repeat F32.c0_05 n.
Definition flips : list float :=
  [ F32.opp F32.one; F32.one; F32.opp F32.one; F32.one;
    F32.opp F32.one; F32.one; F32.opp F32.one; F32.one ].
Definition stream_17200 : list float :=
  quiet 780 ++ flips ++ quiet 68 ++ flips ++ quiet 69 ++ flips ++
  quiet 69 ++ flips ++ quiet 57.

(** The decoder after that stream: [bit_phase] is the number just below
    [samples_per_bit]. *)
Definition decoder_17200 : dcs_decoder :=
  fst (dcs_decoder_process_samples (dcs_decoder_new expf_17200 17200)
         stream_17200 1075).

End Decoder.

(** ** The squelch gate *)

Module Squelch.
Import Decoder.

(** The data members of [dcs_squelch_ff_impl].  [d_dcs_decoder] is the
    pointer to the decoder the gate owns, [None] when its allocation
    failed. *)
Record dcs_squelch_ff_impl : Type := {
  d_dcs_decoder : option dcs_decoder;
  d_target_code : Z;
  d_target_inverted : bool;
  d_squelch_open : bool;
  d_tail_samples : Z;
  d_tail_samples_max : Z
}.

(** [dcs_callback(code, inverted, context)] with [context] this gate. *)
Definition dcs_callback (self : dcs_squelch_ff_impl) (code inverted : Z)
    : dcs_squelch_ff_impl :=
  if (code =? d_target_code self) &&
     Bool.eqb (negb (inverted =? 0)) (d_target_inverted self)
  then {| d_dcs_decoder := d_dcs_decoder self;
          d_target_code := d_target_code self;
          d_target_inverted := d_target_inverted self;
          d_squelch_open := true;
          d_tail_samples := d_tail_samples_max self;
          d_tail_samples_max := d_tail_samples_max self |}
  else self.

Definition set_target_code (self : dcs_squelch_ff_impl) (code : Z)
    (inverted : bool) : dcs_squelch_ff_impl :=
  {| d_dcs_decoder := d_dcs_decoder self;
     d_target_code := code;
     d_target_inverted := inverted;
     d_squelch_open := false;
     d_tail_samples := 0;
     d_tail_samples_max := d_tail_samples_max self |}.

Definition is_open (self : dcs_squelch_ff_impl) : bool := d_squelch_open self.

End Squelch.

(** ** Descriptions used by the properties of the decoder *)

Module Stream.
Import Codes Decoder.

(** An invocation as a decoder [dec] makes them: to the callback bound to
    [dec], with the context bound to [dec], a recognised code and a polarity
    flag of 0 or 1. *)
Definition well_formed_call (dec : dcs_decoder) (i : invocation) : Prop :=
  callback dec = Some (inv_fn i) /\ inv_ctx i = callback_ctx dec /\
  In (inv_code i) DCS_VALID_CODES /\
  (inv_inverted i = 0 \/ inv_inverted i = 1).

(** [window_b] holds the 23 bits of [window_a] in the opposite order. *)
Definition mirrored (dec : dcs_decoder) : Prop :=
  forall i, 0 <= i < 23 ->
    Z.testbit (window_b dec) i = Z.testbit (window_a dec) (22 - i).

(** The stored pair is the initial one, with a counter of zero, or a pair
    that [try_decode_word] can report. *)
Definition pair_valid (dec : dcs_decoder) : Prop :=
  (last_code dec = -1 /\ last_inverted dec = 0 /\ confirm_count dec = 0) \/
  (In (last_code dec) DCS_VALID_CODES /\
   (last_inverted dec = 0 \/ last_inverted dec = 1)).

(** The 23-bit codeword whose data field is code 19 (octal 023). *)
Definition codeword_19 : Z := 39257.

(** The first 1863 samples of the confirming signal at 16 kHz: the next
    sample, -1.0, completes the second decode of code 298. *)
Definition unconfirmed_stream : list float :=
  take 1863 (nrz confirming_bits 119).

End Stream.

(** ** The block: construction and [work] *)

Module Block.
Import Codes Decoder Squelch.

(** [1000.0f]. *)
Definition c1000 : float := S754_finite false 16384000 (-14).

(** [(int)x] for a [float] [x]: the value with its fraction discarded.  The
    conversion is undefined, [None], for a NaN, an infinity and a value whose
    integral part is outside [int]. *)
Definition to_int (x : float) : option Z :=
  match x with
  | S754_zero _ => Some 0
  | S754_finite s m e =>
      let magnitude :=
        if 0 <=? e then Z.pos m * 2 ^ e else Z.pos m / 2 ^ (- e) in
      let v := if s then - magnitude else magnitude in
      if (- 2 ^ 31 <=? v) && (v <? 2 ^ 31) then Some v else None
  | S754_infinity _ | S754_nan => None
  end.

(** [make(sample_rate, target_code, target_inverted, tail_ms)], that is the
    constructor: the data members of the new object.  [allocated] tells
    whether [dcs_decoder_new] returned a decoder; [cb] is the address of
    [dcs_callback] and [this] the address of the object, which the decoder is
    given as callback and context.  [None] when the conversion of the tail
    length to [int] is undefined. *)
Definition make (expf : float -> float) (allocated : bool) (cb : funptr)
    (this : ptr) (sample_rate target_code : Z) (target_inverted : bool)
    (tail_ms : float) : option dcs_squelch_ff_impl :=
  match to_int (F32.div (F32.mul (F32.of_int sample_rate) tail_ms) c1000) with
  | Some tail_samples_max =>
      Some {| d_dcs_decoder :=
                if allocated
                then Some (dcs_decoder_set_callback
                             (dcs_decoder_new expf sample_rate) (Some cb) this)
                else None;
              d_target_code := target_code;
              d_target_inverted := target_inverted;
              d_squelch_open := false;
              d_tail_samples := 0;
              d_tail_samples_max := tail_samples_max |}
  | None => None
  end.

(** An invocation whose pair is the target: the test of [dcs_callback]. *)
Definition matches_target (self : dcs_squelch_ff_impl) (i : invocation)
    : bool :=
  (inv_code i =? d_target_code self) &&
  Bool.eqb (negb (inv_inverted i =? 0)) (d_target_inverted self).

(** One invocation made by the decoder of this object.  The constructor binds
    the decoder to [dcs_callback] with the object as context and nothing else
    has access to the decoder, so the invocation is the call
    [dcs_callback(code, inverted, this)]. *)
Definition deliver (self : dcs_squelch_ff_impl) (i : invocation)
    : dcs_squelch_ff_impl :=
  dcs_callback self (inv_code i) (inv_inverted i).

Definition set_decoder (self : dcs_squelch_ff_impl) (dec : dcs_decoder)
    : dcs_squelch_ff_impl :=
  {| d_dcs_decoder := Some dec;
     d_target_code := d_target_code self;
     d_target_inverted := d_target_inverted self;
     d_squelch_open := d_squelch_open self;
     d_tail_samples := d_tail_samples self;
     d_tail_samples_max := d_tail_samples_max self |}.

Definition set_gate (self : dcs_squelch_ff_impl) (open : bool) (tail : Z)
    : dcs_squelch_ff_impl :=
  {| d_dcs_decoder := d_dcs_decoder self;
     d_target_code := d_target_code self;
     d_target_inverted := d_target_inverted self;
     d_squelch_open := open;
     d_tail_samples := tail;
     d_tail_samples_max := d_tail_samples_max self |}.

(** [if (d_dcs_decoder) dcs_decoder_process_samples(d_dcs_decoder, in,
    noutput_items);]: the decoder runs over the whole buffer, and its
    invocations reach the object in the order they are made.  The decoder
    reads nothing of the object, so the invocations are delivered after
    the run. *)
Definition run_decoder (self : dcs_squelch_ff_impl) (input : list float)
    (noutput_items : Z) : dcs_squelch_ff_impl :=
  match d_dcs_decoder self with
  | Some dec =>
      let '(dec', calls) :=
        dcs_decoder_process_samples dec input noutput_items in
      fold_left deliver calls (set_decoder self dec')
  | None => self
  end.

(** The invocations the decoder makes in one call of [work]. *)
Definition work_calls (self : dcs_squelch_ff_impl) (input : list float)
    (noutput_items : Z) : list invocation :=
  match d_dcs_decoder self with
  | Some dec => snd (dcs_decoder_process_samples dec input noutput_items)
  | None => []
  end.

(** The body of the gating loop for the input sample [x]: the object after
    it and [out[i]]. *)
Definition gate_sample (self : dcs_squelch_ff_impl) (x : float)
    : dcs_squelch_ff_impl * float :=
  if d_squelch_open self then
    if d_tail_samples self >? 0 then
      let tail := d_tail_samples self - 1 in
      (set_gate self (if tail =? 0 then false else d_squelch_open self) tail,
       x)
    else (self, x)
  else (self, F32.zero).

Fixpoint gate_loop (self : dcs_squelch_ff_impl) (input : list float)
    : dcs_squelch_ff_impl * list float :=
  match input with
  | [] => (self, [])
  | x :: rest =>
      let '(self1, y) := gate_sample self x in
      let '(self2, out) := gate_loop self1 rest in
      (self2, y :: out)
  end.

(** [work(noutput_items, input_items, output_items)]: the object on return
    and the [noutput_items] samples written to [out].  The input buffer holds
    at least [noutput_items] samples; the value returned is
    [noutput_items]. *)
Definition work (self : dcs_squelch_ff_impl) (input : list float)
    (noutput_items : Z) : dcs_squelch_ff_impl * list float :=
  gate_loop (run_decoder self input noutput_items)
    (take (Z.to_nat noutput_items) input).

(** The objects a program can observe: a constructed one, and whatever
    [set_target_code] and [work] make of one. *)
Inductive constructed (cb : funptr) (this : ptr)
    : dcs_squelch_ff_impl -> Prop :=
| constructed_make (expf : float -> float) (allocated : bool)
    (sample_rate target_code : Z) (target_inverted : bool) (tail_ms : float)
    (self : dcs_squelch_ff_impl) :
    make expf allocated cb this sample_rate target_code target_inverted
      tail_ms = Some self ->
    constructed cb this self
| constructed_set_target_code (self : dcs_squelch_ff_impl) (code : Z)
    (inverted : bool) :
    constructed cb this self ->
    constructed cb this (set_target_code self code inverted)
| constructed_work (self : dcs_squelch_ff_impl) (input : list float)
    (noutput_items : Z) :
    constructed cb this self ->
    constructed cb this (fst (work self input noutput_items)).

(** The output of a gate that passes [k] samples and mutes the rest. *)
Definition pass_then_mute (k : nat) (input : list float) : list float :=
  take k input ++ replicate (length input - k) F32.zero.

(** The tail counter of an object: zero while the gate is closed, and
    between zero and the tail length. *)
Definition tail_in_range (self : dcs_squelch_ff_impl) : Prop :=
  (d_squelch_open self = false -> d_tail_samples self = 0) /\
  Z.min 0 (d_tail_samples_max self) <= d_tail_samples self
    <= Z.max 0 (d_tail_samples_max self).

(** The decoder of an object, when it has one, is a reachable decoder bound
    to the callback [cb] with the context [this]. *)
Definition decoder_bound (cb : funptr) (this : ptr)
    (self : dcs_squelch_ff_impl) : Prop :=
  match d_dcs_decoder self with
  | Some dec =>
      callback dec = Some cb /\ callback_ctx dec = this /\ reachable dec
  | None => True
  end.

(** A closed gate whose decoder, when it has one, is in the state silence
    keeps it in. *)
Definition idle (self : dcs_squelch_ff_impl) : Prop :=
  d_squelch_open self = false /\
  match d_dcs_decoder self with
  | Some dec => silent dec
  | None => True
  end.

(** A float that is not below zero: a zero of either sign, a positive
    number, plus infinity or a NaN. *)
Definition non_negative (x : float) : bool :=
  match x with
  | S754_finite true _ _ | S754_infinity true => false
  | _ => true
  end.

(** [250.0f], the default tail in milliseconds. *)
Definition c250 : float := S754_finite false 16384000 (-16).

(** The object [make(16000, 298, false, 250.0f)] constructs. *)
Definition listening_298 (cb : funptr) (this : ptr) : dcs_squelch_ff_impl :=
  {| d_dcs_decoder :=
       Some (dcs_decoder_set_callback (dcs_decoder_new expf_16000 16000)
               (Some cb) this);
     d_target_code := 298;
     d_target_inverted := false;
     d_squelch_open := false;
     d_tail_samples := 0;
     d_tail_samples_max := 4000 |}.

(** The object [make(16000, 298, false, 250.0f)] constructs when the decoder
    cannot be allocated. *)
Definition deaf_298 : dcs_squelch_ff_impl :=
  {| d_dcs_decoder := None;
     d_target_code := 298;
     d_target_inverted := false;
     d_squelch_open := false;
     d_tail_samples := 0;
     d_tail_samples_max := 4000 |}.

(** An object with a tail length of zero that a matching code has opened. *)
Definition latched_open : dcs_squelch_ff_impl :=
  {| d_dcs_decoder := None;
     d_target_code := 19;
     d_target_inverted := false;
     d_squelch_open := true;
     d_tail_samples := 0;
     d_tail_samples_max := 0 |}.

End Block.

(** ** Properties of the Golay syndrome and its table *)

Module GolayFacts.
Import Golay.

(** Equalities between bitwise expressions, bit by bit. *)
Ltac bitwise :=
  apply Z.bits_inj'; intros ? _;
  repeat (rewrite ?Z.lxor_spec, ?Z.land_spec, ?Z.lor_spec);
  repeat match goal with
         | |- context [Z.testbit ?a ?n] =>
             is_var a; destruct (Z.testbit a n)
         end;
  repeat match goal with
         | |- context [Z.testbit ?a ?n] => destruct (Z.testbit a n)
         end;
  reflexivity.

Lemma syndrome_step_lxor (a b i : Z) :
  syndrome_step (Z.lxor a b) i =
  Z.lxor (syndrome_step a i) (syndrome_step b i).
Proof.
  unfold syndrome_step. rewrite Z.lxor_spec.
  generalize (Z.shiftl GOLAY_POLY (i - 11)); intros g.
  destruct (Z.testbit a i), (Z.testbit b i); cbn [xorb]; bitwise.
Qed.

Lemma syndrome_loop_lxor (n : nat) :
  forall a b,
    syndrome_loop n (Z.lxor a b) =
    Z.lxor (syndrome_loop n a) (syndrome_loop n b).
Proof.
  induction n as [|n IH]; intros a b; cbn [syndrome_loop]; [reflexivity|].
  now rewrite syndrome_step_lxor, IH.
Qed.

(** The syndrome is linear over GF(2). *)
Lemma golay_syndrome_lxor (a b : Z) :
  golay_syndrome (Z.lxor a b) =
  Z.lxor (golay_syndrome a) (golay_syndrome b).
Proof.
  unfold golay_syndrome; cbv zeta.
  replace (Z.land (Z.lxor a b) 0x7FFFFF)
    with (Z.lxor (Z.land a 0x7FFFFF) (Z.land b 0x7FFFFF)) by bitwise.
  rewrite syndrome_loop_lxor. bitwise.
Qed.

Lemma all_weight_le_sound (n : nat) :
  forall (k : nat) (P : Z -> bool),
    all_weight_le n k P = true ->
    forall z, 0 <= z < 2 ^ Z.of_nat n -> (popcount n z <= k)%nat -> P z = true.
Proof.
  induction n as [|n IH]; intros k P Hall z Hz Hw.
  - cbn in Hall. change (2 ^ Z.of_nat 0) with 1 in Hz.
    replace z with 0 by lia. exact Hall.
  - cbn [all_weight_le] in Hall. apply andb_prop in Hall as [H0 H1].
    cbn [popcount] in Hw.
    assert (Hd : 0 <= Z.div2 z < 2 ^ Z.of_nat n).
    { rewrite Nat2Z.inj_succ, Z.pow_succ_r in Hz by lia.
      rewrite Z.div2_div. split.
      - apply Z.div_pos; lia.
      - apply Z.div_lt_upper_bound; lia. }
    pose proof (Z.div2_odd z) as Hz2.
    destruct (Z.odd z); cbn [Z.b2z] in Hz2.
    + destruct k as [|k]; [lia|].
      rewrite Hz2. apply (IH k (fun y => P (2 * y + 1)) H1); [exact Hd | lia].
    + rewrite Hz2, Z.add_0_r.
      apply (IH k (fun y => P (2 * y)) H0); [exact Hd | lia].
Qed.

Lemma all_from_sound (n : nat) :
  forall (z0 : Z) (P : Z -> bool),
    all_from n z0 P = true ->
    forall z, z0 <= z < z0 + Z.of_nat n -> P z = true.
Proof.
  induction n as [|n IH]; intros z0 P Hall z Hz; [lia|].
  cbn [all_from] in Hall. apply andb_prop in Hall as [Hh Ht].
  destruct (Z.eq_dec z z0) as [->|Hne]; [exact Hh|].
  apply (IH (z0 + 1) P Ht). lia.
Qed.

Lemma corrects_entry (tbl : list Z) (e : Z) :
  corrects tbl e = true -> table_entry tbl (golay_syndrome e) = Some e.
Proof.
  unfold corrects. destruct (table_entry tbl (golay_syndrome e)) as [v|];
    [|discriminate].
  intros H. apply Z.eqb_eq in H. now subst.
Qed.

Lemma table_corrects_weight3 :
  all_weight_le 23 3 (corrects build_syndrome_table) = true.
Proof. vm_compute. reflexivity. Qed.

Lemma table_entry_of_pattern (e : Z) :
  0 <= e < 2 ^ 23 -> (popcount 23 e <= 3)%nat ->
  table_entry build_syndrome_table (golay_syndrome e) = Some e.
Proof.
  intros He Hw. apply corrects_entry.
  exact (all_weight_le_sound 23 3 (corrects build_syndrome_table)
           table_corrects_weight3 e He Hw).
Qed.

(** C1.  For every word [c] of syndrome zero and every 23-bit error pattern
    [e] of Hamming weight at most 3, the table built by
    [build_syndrome_table] has [e] at index [golay_syndrome (c xor e)], and
    xor-ing that entry into [c xor e] gives [c] back. *)
Theorem syndrome_table_corrects (c e : Z) :
  golay_syndrome c = 0 ->
  0 <= e < 2 ^ 23 ->
  (popcount 23 e <= 3)%nat ->
  table_entry build_syndrome_table (golay_syndrome (Z.lxor c e)) = Some e /\
  Z.lxor (Z.lxor c e) <$>
    table_entry build_syndrome_table (golay_syndrome (Z.lxor c e)) = Some c.
Proof.
  intros Hc He Hw.
  assert (Hs : golay_syndrome (Z.lxor c e) = golay_syndrome e).
  { rewrite golay_syndrome_lxor, Hc. apply Z.lxor_0_l. }
  rewrite Hs, (table_entry_of_pattern e He Hw). split; [reflexivity|].
  cbn. f_equal. rewrite Z.lxor_assoc, Z.lxor_nilpotent. apply Z.lxor_0_r.
Qed.

(** The codeword of code 19 (octal 023) hit in bits 0, 7 and 22. *)
Lemma syndrome_table_corrects_witness :
  table_entry build_syndrome_table
    (golay_syndrome (Z.lxor (golay_encode 19) 0x400081)) = Some 0x400081 /\
  Z.lxor (Z.lxor (golay_encode 19) 0x400081) <$>
    table_entry build_syndrome_table
      (golay_syndrome (Z.lxor (golay_encode 19) 0x400081))
  = Some (golay_encode 19).
Proof.
  apply (syndrome_table_corrects (golay_encode 19) 0x400081).
  - vm_compute. reflexivity.
  - lia.
  - vm_compute. lia.
Defined.

Lemma forallb_differs (x : Z) (l : list Z) :
  forallb (fun v => negb (v =? x)) l = true -> Forall (fun v => v <> x) l.
Proof.
  induction l as [|v l IH]; cbn [forallb]; intros H; constructor.
  - apply andb_prop in H as [H _]. apply negb_true_iff, Z.eqb_neq in H. exact H.
  - apply IH. now apply andb_prop in H as [_ H].
Qed.

(** C2.  The built table has 2048 entries, none of them the sentinel
    [GOLAY_SYN_INVALID]; the entry at syndrome 0 is the zero pattern; and the
    stored patterns of Hamming weight 0, 1, 2 and 3 number 1, 23, 253 and
    1771. *)
Theorem syndrome_table_complete :
  length build_syndrome_table = 2048%nat /\
  Forall (fun v => v <> GOLAY_SYN_INVALID) build_syndrome_table /\
  table_entry build_syndrome_table 0 = Some 0 /\
  count_weight build_syndrome_table 0 = 1%nat /\
  count_weight build_syndrome_table 1 = 23%nat /\
  count_weight build_syndrome_table 2 = 253%nat /\
  count_weight build_syndrome_table 3 = 1771%nat.
Proof.
  split; [vm_compute; reflexivity|].
  split.
  { apply forallb_differs. vm_compute. reflexivity. }
  split; [vm_compute; reflexivity|].
  split; [vm_compute; reflexivity|].
  split; [vm_compute; reflexivity|].
  split; vm_compute; reflexivity.
Qed.

(** C5.  The systematic word of a 12-bit message [m] (the message in bits
    22..11, the remainder of the long division of [m * x^11] by the
    generator 0xC75 in bits 10..0) has syndrome zero. *)
Theorem encoded_syndrome_zero (m : Z) :
  0 <= m < 2 ^ 12 -> golay_syndrome (golay_encode m) = 0.
Proof.
  intros Hm.
  assert (Hall : all_from (Z.to_nat 4096) 0
                   (fun m => golay_syndrome (golay_encode m) =? 0) = true)
    by (vm_compute; reflexivity).
  apply Z.eqb_eq.
  apply (all_from_sound _ _ _ Hall m).
  change (2 ^ 12) with 4096 in Hm. lia.
Qed.

Lemma encoded_syndrome_zero_witness : golay_syndrome (golay_encode 19) = 0.
Proof. apply (encoded_syndrome_zero 19). lia. Defined.

End GolayFacts.

(** ** Properties of the recognised-code table *)

Module CodesFacts.
Import Codes.

Lemma is_valid_dcs_code_In (code : Z) :
  is_valid_dcs_code code = true <-> In (u16 code) DCS_VALID_CODES.
Proof.
  unfold is_valid_dcs_code. rewrite existsb_exists. split.
  - intros (v & Hin & Heq). apply Z.eqb_eq in Heq. now subst.
  - intros Hin. exists (u16 code). split; [exact Hin | apply Z.eqb_refl].
Qed.

(** C4, as stated, fails: it lists 23 among the members, but decimal 23
    (octal 027) is not in the table and [is_valid_dcs_code] rejects it. *)
Lemma code_23_not_recognized :
  ~ In 23 DCS_VALID_CODES /\ is_valid_dcs_code 23 <> true.
Proof.
  split.
  - rewrite <- (is_valid_dcs_code_In 23). vm_compute. discriminate.
  - vm_compute. discriminate.
Qed.

(** C4, amended.  The recognised-code table has 105 entries, pairwise
    distinct and all in [0, 511]; [is_valid_dcs_code] accepts exactly the
    integers whose 16-bit truncation is in the table, 105 of them in
    [0, 511]; it accepts 19, 21, 25, 43, 114 and 265, and rejects 23, 412
    and 732. *)
Theorem recognized_code_set :
  length DCS_VALID_CODES = 105%nat /\
  DCS_NUM_CODES = 105 /\
  NoDup DCS_VALID_CODES /\
  Forall (fun v => 0 <= v <= 511) DCS_VALID_CODES /\
  (forall code : Z,
     is_valid_dcs_code code = true <-> In (u16 code) DCS_VALID_CODES) /\
  length (accepted_below 512) = 105%nat /\
  forallb is_valid_dcs_code [19; 21; 25; 43; 114; 265] = true /\
  is_valid_dcs_code 23 = false /\
  is_valid_dcs_code 412 = false /\
  is_valid_dcs_code 732 = false.
Proof.
  split; [reflexivity|].
  split; [reflexivity|].
  split; [apply (bool_decide_unpack _); vm_compute; exact I|].
  split; [apply (bool_decide_unpack _); vm_compute; exact I|].
  split; [exact is_valid_dcs_code_In|].
  split; [vm_compute; reflexivity|].
  split; [vm_compute; reflexivity|].
  split; [vm_compute; reflexivity|].
  split; vm_compute; reflexivity.
Qed.

End CodesFacts.

(** ** Properties of the decoder *)

Module DecoderFacts.
Import Golay Codes Decoder.

(** Reduce record projections applied to field updates, and nothing else. *)
Ltac fields :=
  cbn [fst snd lp_alpha lp_state lp_prev samples_per_bit bit_phase bit_accum
       window_a window_b last_code last_inverted confirm_count syndrome_tbl
       callback callback_ctx set_filter_clock set_windows set_confirm
       shift_windows dcs_decoder_set_callback dcs_decoder_new advance
       inv_fn inv_code inv_inverted inv_ctx].

Tactic Notation "fields" "in" hyp(H) :=
  cbn [fst snd lp_alpha lp_state lp_prev samples_per_bit bit_phase bit_accum
       window_a window_b last_code last_inverted confirm_count syndrome_tbl
       callback callback_ctx set_filter_clock set_windows set_confirm
       shift_windows dcs_decoder_set_callback dcs_decoder_new advance
       inv_fn inv_code inv_inverted inv_ctx] in H.

(** Split a conjunction into its parts, and nothing else. *)
Ltac conjuncts := repeat match goal with |- _ /\ _ => split end.

(** *** Window arithmetic *)

Lemma lor_below_pow2 (a b n : Z) :
  0 <= n -> 0 <= a < 2 ^ n -> 0 <= b < 2 ^ n -> 0 <= Z.lor a b < 2 ^ n.
Proof.
  intros Hn Ha Hb.
  assert (H0 : 0 <= Z.lor a b) by (apply Z.lor_nonneg; lia).
  split; [exact H0|].
  destruct (Z.eq_dec (Z.lor a b) 0) as [->|Hne]; [lia|].
  apply Z.log2_lt_pow2; [lia|].
  rewrite Z.log2_lor by lia.
  destruct (Z.eq_dec a 0) as [->|Ha0], (Z.eq_dec b 0) as [->|Hb0];
    cbn [Z.log2] in *; try (exfalso; apply Hne; reflexivity).
  - rewrite Z.max_r by apply Z.log2_nonneg. apply Z.log2_lt_pow2; lia.
  - rewrite Z.max_l by apply Z.log2_nonneg. apply Z.log2_lt_pow2; lia.
  - apply Z.max_lub_lt; apply Z.log2_lt_pow2; lia.
Qed.

Lemma mask23_range (x : Z) : 0 <= Z.land x 0x7FFFFF < 2 ^ 23.
Proof.
  change 0x7FFFFF with (Z.ones 23). rewrite Z.land_ones by lia.
  apply Z.mod_pos_bound. lia.
Qed.

(** On a 23-bit word the masked [uint32_t] complement flips the 23 bits. *)
Lemma masked_complement (w : Z) :
  0 <= w < 2 ^ 23 -> Z.land (not32 w) 0x7FFFFF = Z.lxor w 0x7FFFFF.
Proof.
  intros Hw. unfold not32, u32.
  change 0x7FFFFF with (Z.ones 23).
  rewrite <- Z.land_ones by lia.
  apply Z.bits_inj'. intros i Hi.
  rewrite !Z.land_spec, Z.lxor_spec, Z.lnot_spec by lia.
  destruct (Z.lt_ge_cases i 23) as [Hlt|Hge].
  - rewrite (Z.ones_spec_low 23 i), (Z.ones_spec_low 32 i) by lia.
    now rewrite !andb_true_r, xorb_true_r.
  - rewrite (Z.ones_spec_high 23 i) by lia.
    rewrite andb_false_r, xorb_false_r.
    symmetry. apply (Z.bits_above_log2 w i); [lia|].
    destruct (Z.eq_dec w 0) as [->|Hne]; [cbn; lia|].
    assert (Z.log2 w < 23) by (apply Z.log2_lt_pow2; lia). lia.
Qed.

(** The wrap-around of [window_b << 1] is invisible below the mask. *)
Lemma shift_windows_b (wb bit : Z) :
  Z.land (Z.lor (u32 (Z.shiftl wb 1)) bit) 0x7FFFFF =
  Z.land (Z.lor (Z.shiftl wb 1) bit) 0x7FFFFF.
Proof.
  unfold u32. change 0x7FFFFF with (Z.ones 23).
  rewrite <- (Z.land_ones _ 32) by lia.
  apply Z.bits_inj'. intros i Hi.
  rewrite !Z.land_spec, !Z.lor_spec, Z.land_spec.
  destruct (Z.lt_ge_cases i 23) as [Hlt|Hge].
  - rewrite (Z.ones_spec_low 32 i) by lia. now rewrite andb_true_r.
  - rewrite (Z.ones_spec_high 23 i) by lia. now rewrite !andb_false_r.
Qed.

Lemma shift_window_a_range (wa bit : Z) :
  0 <= wa < 2 ^ 23 -> bit = 0 \/ bit = 1 ->
  0 <= Z.lor (Z.shiftr wa 1) (Z.shiftl bit 22) < 2 ^ 23.
Proof.
  intros Hwa Hbit. apply lor_below_pow2; [lia| |].
  - rewrite Z.shiftr_div_pow2 by lia. change (2 ^ 1) with 2.
    split; [apply Z.div_pos; lia|].
    apply Z.div_lt_upper_bound; lia.
  - destruct Hbit as [->| ->];
      [change (Z.shiftl 0 22) with 0 | change (Z.shiftl 1 22) with (2 ^ 22)];
      lia.
Qed.

(** *** The state invariant *)

(** The parts of the state that [confirm] leaves alone. *)
Lemma confirm_frame (dec : dcs_decoder) (found : option (Z * Z)) :
  let dec' := fst (confirm dec found) in
  window_a dec' = window_a dec /\ window_b dec' = window_b dec /\
  syndrome_tbl dec' = syndrome_tbl dec /\
  callback dec' = callback dec /\ callback_ctx dec' = callback_ctx dec /\
  lp_alpha dec' = lp_alpha dec /\ lp_state dec' = lp_state dec /\
  lp_prev dec' = lp_prev dec /\ samples_per_bit dec' = samples_per_bit dec /\
  bit_phase dec' = bit_phase dec /\ bit_accum dec' = bit_accum dec.
Proof.
  unfold confirm. destruct found as [[code inverted]|].
  - destruct ((code =? last_code dec) && (inverted =? last_inverted dec));
      fields; repeat split.
  - destruct (confirm_count dec >? 0); fields; repeat split.
Qed.

Lemma confirm_count_nonneg (dec : dcs_decoder) (found : option (Z * Z)) :
  0 <= confirm_count dec -> 0 <= confirm_count (fst (confirm dec found)).
Proof.
  intros H. unfold confirm. destruct found as [[code inverted]|].
  - destruct ((code =? last_code dec) && (inverted =? last_inverted dec));
      fields; lia.
  - destruct (confirm_count dec >? 0) eqn:E; fields; [|exact H].
    apply Z.gtb_lt in E. lia.
Qed.

Lemma emitted_bit_cases (dec : dcs_decoder) :
  emitted_bit dec = 0 \/ emitted_bit dec = 1.
Proof. unfold emitted_bit. destruct (F32.lt F32.zero (bit_accum dec)); auto. Qed.

Lemma bit_boundary_invariant (dec : dcs_decoder) :
  invariant dec -> invariant (fst (bit_boundary dec)).
Proof.
  intros (Ha & Hb & Hc & Ht). unfold bit_boundary.
  pose proof (emitted_bit_cases dec) as Hbit.
  match goal with
  | |- invariant (fst (confirm ?d ?f)) =>
      pose proof (confirm_frame d f) as (Fa & Fb & Ftbl & _);
      pose proof (confirm_count_nonneg d f) as Fc
  end.
  unfold invariant. rewrite Fa, Fb, Ftbl. fields.
  split; [apply shift_window_a_range; assumption|].
  split; [apply mask23_range|].
  split; [apply Fc; fields; exact Hc | exact Ht].
Qed.

Lemma process_sample_invariant (alpha one_minus_a : float)
    (dec : dcs_decoder) (x : float) :
  invariant dec -> invariant (fst (process_sample alpha one_minus_a dec x)).
Proof.
  intros H. unfold process_sample.
  assert (Hd : invariant (advance alpha one_minus_a dec x)) by exact H.
  destruct (boundary_reached (advance alpha one_minus_a dec x)).
  - apply bit_boundary_invariant, Hd.
  - exact Hd.
Qed.

Lemma process_loop_invariant (alpha one_minus_a : float)
    (samples : list float) :
  forall dec, invariant dec ->
    invariant (fst (process_loop alpha one_minus_a dec samples)).
Proof.
  induction samples as [|x rest IH]; intros dec H; cbn [process_loop].
  - exact H.
  - pose proof (process_sample_invariant alpha one_minus_a dec x H) as H1.
    destruct (process_sample alpha one_minus_a dec x) as [dec1 calls1].
    specialize (IH dec1 H1).
    destruct (process_loop alpha one_minus_a dec1 rest) as [dec2 calls2].
    exact IH.
Qed.

Lemma reachable_invariant (dec : dcs_decoder) :
  reachable dec -> invariant dec.
Proof.
  induction 1 as [expf rate | dec cb ctx _ IH | dec samples n _ IH].
  - unfold invariant; fields. repeat split; lia.
  - exact IH.
  - apply process_loop_invariant, IH.
Qed.

(** *** Candidates of a bit boundary *)

Lemma decode_windows_first_match (tbl : list Z) (wa wb : Z) :
  0 <= wa < 2 ^ 23 -> 0 <= wb < 2 ^ 23 ->
  decode_windows tbl wa wb = first_match tbl (candidates wa wb).
Proof.
  intros Ha Hb. unfold decode_windows.
  rewrite (masked_complement wa Ha), (masked_complement wb Hb).
  cbn [first_match candidates fold_right fst snd].
  repeat match goal with
         | |- context [match ?t with Some _ => _ | None => _ end] =>
             destruct t
         end; reflexivity.
Qed.

Lemma try_decode_word_polarity (tbl : list Z) (w p c q : Z) :
  try_decode_word tbl w p = Some (c, q) -> q = p.
Proof.
  unfold try_decode_word.
  repeat match goal with
         | |- context [if ?b then _ else _] => destruct b
         | |- context [match ?t with Some _ => _ | None => _ end] =>
             destruct t
         end; intros H; inversion H; reflexivity.
Qed.

Lemma first_match_polarity (tbl : list Z) (wa wb c p : Z) :
  first_match tbl (candidates wa wb) = Some (c, p) ->
  (p = 0 /\
   (try_decode_word tbl wa 0 = Some (c, p) \/
    try_decode_word tbl wb 0 = Some (c, p))) \/
  (p = 1 /\
   (try_decode_word tbl (Z.lxor wa 0x7FFFFF) 1 = Some (c, p) \/
    try_decode_word tbl (Z.lxor wb 0x7FFFFF) 1 = Some (c, p))).
Proof.
  cbn [first_match candidates fold_right fst snd].
  destruct (try_decode_word tbl wa 0) as [r|] eqn:E1.
  { intros [= ->]. left. split; [|left; reflexivity].
    exact (try_decode_word_polarity _ _ _ _ _ E1). }
  destruct (try_decode_word tbl (Z.lxor wa 0x7FFFFF) 1) as [r|] eqn:E2.
  { intros [= ->]. right. split; [|left; reflexivity].
    exact (try_decode_word_polarity _ _ _ _ _ E2). }
  destruct (try_decode_word tbl wb 0) as [r|] eqn:E3.
  { intros [= ->]. left. split; [|right; reflexivity].
    exact (try_decode_word_polarity _ _ _ _ _ E3). }
  destruct (try_decode_word tbl (Z.lxor wb 0x7FFFFF) 1) as [r|] eqn:E4;
    [|discriminate].
  intros [= ->]. right. split; [|right; reflexivity].
  exact (try_decode_word_polarity _ _ _ _ _ E4).
Qed.

Lemma bit_boundary_unfold (dec1 : dcs_decoder) :
  bit_boundary dec1 =
  confirm (before_confirm dec1)
    (decode_windows (syndrome_tbl dec1)
       (window_a (before_confirm dec1)) (window_b (before_confirm dec1))).
Proof. reflexivity. Qed.

(** C7.  In every reachable state both windows are below [2^23].  At a bit
    boundary with emitted bit [b] the windows become
    [(window_a >> 1) | (b << 22)] and [((window_b << 1) | b) & 0x7FFFFF], and
    the decode result handed to the confirmation block is the first match
    among exactly four candidates: [window_a], its 23-bit complement,
    [window_b], its 23-bit complement.  A match on a window itself reports
    inverted = 0, a match on a complement reports inverted = 1. *)
Theorem window_discipline (dec : dcs_decoder) :
  reachable dec ->
  (0 <= window_a dec < 2 ^ 23 /\ 0 <= window_b dec < 2 ^ 23) /\
  forall alpha one_minus_a sample : float,
    let dec1 := advance alpha one_minus_a dec sample in
    let b := emitted_bit dec1 in
    let wa := Z.lor (Z.shiftr (window_a dec) 1) (Z.shiftl b 22) in
    let wb := Z.land (Z.lor (Z.shiftl (window_b dec) 1) b) 0x7FFFFF in
    let found := first_match (syndrome_tbl dec) (candidates wa wb) in
    boundary_reached dec1 = true ->
    (b = 0 \/ b = 1) /\
    window_a (fst (process_sample alpha one_minus_a dec sample)) = wa /\
    window_b (fst (process_sample alpha one_minus_a dec sample)) = wb /\
    process_sample alpha one_minus_a dec sample =
      confirm (before_confirm dec1) found /\
    length (candidates wa wb) = 4%nat /\
    forall c p, found = Some (c, p) ->
      (p = 0 /\
       (try_decode_word (syndrome_tbl dec) wa 0 = Some (c, p) \/
        try_decode_word (syndrome_tbl dec) wb 0 = Some (c, p))) \/
      (p = 1 /\
       (try_decode_word (syndrome_tbl dec) (Z.lxor wa 0x7FFFFF) 1
          = Some (c, p) \/
        try_decode_word (syndrome_tbl dec) (Z.lxor wb 0x7FFFFF) 1
          = Some (c, p))).
Proof.
  intros Hr. destruct (reachable_invariant dec Hr) as (Ha & Hb & _ & _).
  split; [split; assumption|].
  intros alpha one_minus_a sample dec1 b wa wb found Hbd.
  pose proof (emitted_bit_cases dec1) as Hbit. fold b in Hbit.
  assert (Hwa : window_a (before_confirm dec1) = wa) by reflexivity.
  assert (Hwb : window_b (before_confirm dec1) = wb).
  { unfold before_confirm. fields. apply shift_windows_b. }
  assert (Hra : 0 <= wa < 2 ^ 23)
    by (apply shift_window_a_range; assumption).
  assert (Hrb : 0 <= wb < 2 ^ 23) by apply mask23_range.
  assert (Hps : process_sample alpha one_minus_a dec sample =
                confirm (before_confirm dec1) found).
  { unfold process_sample. fold dec1. rewrite Hbd, bit_boundary_unfold.
    rewrite Hwa, Hwb. unfold found.
    rewrite <- (decode_windows_first_match _ wa wb Hra Hrb). reflexivity. }
  split; [exact Hbit|].
  rewrite Hps.
  destruct (confirm_frame (before_confirm dec1) found) as (Fa & Fb & _).
  split; [rewrite Fa; exact Hwa|].
  split; [rewrite Fb; exact Hwb|].
  split; [reflexivity|].
  split; [reflexivity|].
  intros c p Hf. apply first_match_polarity. exact Hf.
Qed.

(** *** Confirmation layer *)

Lemma confirm_refines (dec : dcs_decoder) (found : option (Z * Z)) :
  0 <= confirm_count dec ->
  (confirmation (fst (confirm dec found)), emitted (snd (confirm dec found)))
  = confirm_spec (is_bound dec) (confirmation dec) found.
Proof.
  intros Hc. unfold confirm, confirm_spec, confirmation, is_bound, fire.
  destruct found as [[c p]|].
  - destruct ((c =? last_code dec) && (p =? last_inverted dec)) eqn:E;
      fields; [|reflexivity].
    apply andb_prop in E as [Ec Ep].
    apply Z.eqb_eq in Ec, Ep. subst c p.
    destruct (callback dec) as [fn|];
      destruct (confirm_count dec + 1 =? 2) eqn:E2;
      destruct (confirm_count dec + 1 >? 2) eqn:E3;
      destruct (2 <=? confirm_count dec + 1) eqn:E4;
      try reflexivity;
      exfalso;
      rewrite ?Z.eqb_eq, ?Z.eqb_neq, ?Z.leb_le, ?Z.leb_gt in *;
      try apply Z.gtb_lt in E3;
      try (rewrite Z.gtb_ltb in E3; apply Z.ltb_ge in E3);
      lia.
  - destruct (confirm_count dec >? 0) eqn:E; fields.
    + apply Z.gtb_lt in E. rewrite Z.max_l by lia. reflexivity.
    + rewrite Z.gtb_ltb in E. apply Z.ltb_ge in E.
      rewrite Z.max_r by lia. repeat f_equal. lia.
Qed.

Lemma confirm_calls_bound (dec : dcs_decoder) (found : option (Z * Z)) :
  Forall (fun i => callback dec = Some (inv_fn i) /\
                   inv_ctx i = callback_ctx dec)
         (snd (confirm dec found)).
Proof.
  unfold confirm, fire. destruct found as [[c p]|].
  - destruct ((c =? last_code dec) && (p =? last_inverted dec));
      fields; [|constructor].
    destruct (callback dec) as [fn|];
      destruct (confirm_count dec + 1 =? 2);
      destruct (confirm_count dec + 1 >? 2);
      cbn [app]; repeat constructor.
  - destruct (confirm_count dec >? 0); constructor.
Qed.

(** C3.  The confirmation state starts as (-1, 0, 0) and its counter is
    never negative in a reachable state.  A sample that does not reach a bit
    boundary leaves the state alone and invokes nothing.  At every bit
    boundary of a decoder with its callback bound the state moves exactly as
    [confirm_as_claimed] says: no valid decode keeps the pair, sets the
    counter to max(counter - 1, 0) and invokes nothing; a valid decode that
    differs from the pair stores it with counter 1 and invokes nothing; a
    valid decode equal to the pair increments the counter and invokes the
    callback with that decode, exactly once, if and only if the incremented
    counter is at least 2.  Every invocation goes to the bound callback with
    the bound context.  Before a callback is bound the state moves in the
    same way and nothing is invoked ([confirm_spec] at [is_bound dec]). *)
Theorem confirmation_transitions (dec : dcs_decoder) :
  reachable dec ->
  (forall expf rate,
     confirmation (dcs_decoder_new expf rate) = (-1, 0, 0)) /\
  0 <= confirm_count dec /\
  forall alpha one_minus_a sample : float,
    let dec1 := advance alpha one_minus_a dec sample in
    let r := process_sample alpha one_minus_a dec sample in
    let found :=
      decode_windows (syndrome_tbl dec) (window_a (fst r)) (window_b (fst r))
    in
    (is_bound dec = true -> boundary_reached dec1 = true ->
     (confirmation (fst r), emitted (snd r))
     = confirm_as_claimed (confirmation dec) found) /\
    if boundary_reached dec1
    then (confirmation (fst r), emitted (snd r))
           = confirm_spec (is_bound dec) (confirmation dec) found /\
         Forall (fun i => callback dec = Some (inv_fn i) /\
                          inv_ctx i = callback_ctx dec) (snd r)
    else confirmation (fst r) = confirmation dec /\ snd r = [].
Proof.
  intros Hr. destruct (reachable_invariant dec Hr) as (_ & _ & Hc & _).
  split; [reflexivity|]. split; [exact Hc|].
  intros alpha one_minus_a sample dec1 r found.
  assert (Hstep :
    if boundary_reached dec1
    then (confirmation (fst r), emitted (snd r))
           = confirm_spec (is_bound dec) (confirmation dec) found /\
         Forall (fun i => callback dec = Some (inv_fn i) /\
                          inv_ctx i = callback_ctx dec) (snd r)
    else confirmation (fst r) = confirmation dec /\ snd r = []).
  { subst r found. unfold process_sample. fold dec1.
    destruct (boundary_reached dec1); [|split; reflexivity].
    rewrite bit_boundary_unfold.
    set (dec2 := before_confirm dec1).
    set (f := decode_windows (syndrome_tbl dec1)
                (window_a dec2) (window_b dec2)).
    destruct (confirm_frame dec2 f) as (Fa & Fb & _).
    rewrite Fa, Fb.
    change (syndrome_tbl dec) with (syndrome_tbl dec1). fold f.
    split.
    - apply (confirm_refines dec2 f). exact Hc.
    - apply (confirm_calls_bound dec2 f). }
  split; [|exact Hstep].
  intros Hbound Hboundary. rewrite Hboundary in Hstep.
  destruct Hstep as [Hstate _]. rewrite Hbound in Hstate. exact Hstate.
Qed.

Lemma unconfirmed_decoder_reachable : reachable unconfirmed_decoder.
Proof. unfold unconfirmed_decoder. apply reach_process, reach_new. Qed.

Lemma unconfirmed_bound_decoder_reachable :
  reachable unconfirmed_bound_decoder.
Proof.
  unfold unconfirmed_bound_decoder.
  apply reach_set_callback, unconfirmed_decoder_reachable.
Qed.

Lemma boundary_after_unconfirmed_bound :
  boundary_reached
    (advance (lp_alpha unconfirmed_bound_decoder)
       (F32.sub F32.one (lp_alpha unconfirmed_bound_decoder))
       unconfirmed_bound_decoder (F32.opp F32.one)) = true.
Proof. vm_compute. reflexivity. Qed.

Lemma unconfirmed_bound_decoder_bound :
  is_bound unconfirmed_bound_decoder = true.
Proof. reflexivity. Qed.

(** The decoder before a callback is bound.  A new decoder at 16 kHz whose
    callback was never set is fed 1863 samples of a two-level signal; it
    then holds the pair (298, 0) with counter 1.  The next sample reaches a
    bit boundary whose decode is (298, 0) again: the counter becomes 2 and,
    there being no callback, nothing is invoked. *)
Lemma unbound_decoder_counts :
  let dec := unconfirmed_decoder in
  let alpha := lp_alpha dec in
  let one_minus_a := F32.sub F32.one alpha in
  let sample := F32.opp F32.one in
  let r := process_sample alpha one_minus_a dec sample in
  let found :=
    decode_windows (syndrome_tbl dec) (window_a (fst r)) (window_b (fst r)) in
  reachable dec /\
  callback dec = None /\
  confirmation dec = (298, 0, 1) /\
  boundary_reached (advance alpha one_minus_a dec sample) = true /\
  found = Some (298, 0) /\
  confirmation (fst r) = (298, 0, 2) /\
  snd r = [].
Proof.
  cbv zeta.
  split; [exact unconfirmed_decoder_reachable|].
  split; [vm_compute; reflexivity|].
  split; [vm_compute; reflexivity|].
  split; [vm_compute; reflexivity|].
  split; [vm_compute; reflexivity|].
  split; vm_compute; reflexivity.
Qed.

(** The same signal with the callback bound: at the bit boundary of the next
    sample the counter goes from 1 to 2 and the callback is invoked once,
    with (298, 0). *)
Lemma confirmation_transitions_witness :
  let dec := unconfirmed_bound_decoder in
  let alpha := lp_alpha dec in
  let one_minus_a := F32.sub F32.one alpha in
  let sample := F32.opp F32.one in
  let r := process_sample alpha one_minus_a dec sample in
  let found :=
    decode_windows (syndrome_tbl dec) (window_a (fst r)) (window_b (fst r)) in
  reachable dec /\
  is_bound dec = true /\
  boundary_reached (advance alpha one_minus_a dec sample) = true /\
  (confirmation (fst r), emitted (snd r))
  = confirm_as_claimed (confirmation dec) found /\
  confirmation dec = (298, 0, 1) /\
  (confirmation (fst r), emitted (snd r)) = ((298, 0, 2), [(298, 0)]).
Proof.
  cbv zeta.
  split; [exact unconfirmed_bound_decoder_reachable|].
  split; [exact unconfirmed_bound_decoder_bound|].
  split; [exact boundary_after_unconfirmed_bound|].
  split.
  - destruct (confirmation_transitions unconfirmed_bound_decoder
                unconfirmed_bound_decoder_reachable) as (_ & _ & Hstep).
    destruct (Hstep (lp_alpha unconfirmed_bound_decoder)
                (F32.sub F32.one (lp_alpha unconfirmed_bound_decoder))
                (F32.opp F32.one)) as [Hclaim _].
    exact (Hclaim unconfirmed_bound_decoder_bound
             boundary_after_unconfirmed_bound).
  - split; vm_compute; reflexivity.
Defined.

Lemma boundary_after_unconfirmed :
  boundary_reached
    (advance (lp_alpha unconfirmed_decoder)
       (F32.sub F32.one (lp_alpha unconfirmed_decoder))
       unconfirmed_decoder (F32.opp F32.one)) = true.
Proof. vm_compute. reflexivity. Qed.

Lemma window_discipline_witness :
  reachable unconfirmed_decoder /\
  boundary_reached
    (advance (lp_alpha unconfirmed_decoder)
       (F32.sub F32.one (lp_alpha unconfirmed_decoder))
       unconfirmed_decoder (F32.opp F32.one)) = true /\
  (0 <= window_a unconfirmed_decoder < 2 ^ 23 /\
   0 <= window_b unconfirmed_decoder < 2 ^ 23) /\
  window_a
    (fst (process_sample (lp_alpha unconfirmed_decoder)
            (F32.sub F32.one (lp_alpha unconfirmed_decoder))
            unconfirmed_decoder (F32.opp F32.one)))
  = Z.lor (Z.shiftr (window_a unconfirmed_decoder) 1)
      (Z.shiftl
         (emitted_bit
            (advance (lp_alpha unconfirmed_decoder)
               (F32.sub F32.one (lp_alpha unconfirmed_decoder))
               unconfirmed_decoder (F32.opp F32.one))) 22).
Proof.
  split; [exact unconfirmed_decoder_reachable|].
  split; [exact boundary_after_unconfirmed|].
  split.
  - exact (proj1 (window_discipline unconfirmed_decoder
                    unconfirmed_decoder_reachable)).
  - exact (proj1 (proj2
             (proj2 (window_discipline unconfirmed_decoder
                       unconfirmed_decoder_reachable)
                (lp_alpha unconfirmed_decoder)
                (F32.sub F32.one (lp_alpha unconfirmed_decoder))
                (F32.opp F32.one) boundary_after_unconfirmed))).
Defined.

(** *** Silence *)

Lemma mul_zero_or_nan (x y : float) :
  zero_or_nan y = true -> zero_or_nan (F32.mul x y) = true.
Proof. destruct x, y; cbn; intros H; try discriminate; reflexivity. Qed.

Lemma add_zero_or_nan (x y : float) :
  zero_or_nan x = true -> zero_or_nan y = true ->
  zero_or_nan (F32.add x y) = true.
Proof.
  destruct x as [[]|[]| |], y as [[]|[]| |]; cbn; intros Hx Hy;
    try discriminate; reflexivity.
Qed.

Lemma lt_zero_or_nan_l (x : float) :
  zero_or_nan x = true -> F32.lt x F32.zero = false.
Proof. destruct x; cbn; intros H; try discriminate; reflexivity. Qed.

Lemma lt_zero_or_nan_r (x : float) :
  zero_or_nan x = true -> F32.lt F32.zero x = false.
Proof. destruct x; cbn; intros H; try discriminate; reflexivity. Qed.

(** Neither the all-zero word nor the all-one word decodes to a code. *)
Lemma decode_zero_windows : decode_windows build_syndrome_table 0 0 = None.
Proof. vm_compute. reflexivity. Qed.

Lemma process_sample_silent (alpha one_minus_a : float)
    (dec : dcs_decoder) :
  silent dec ->
  silent (fst (process_sample alpha one_minus_a dec F32.zero)) /\
  snd (process_sample alpha one_minus_a dec F32.zero) = [].
Proof.
  intros (Hs & Hp & Hacc & Ha & Hb & Hc & Ht).
  assert (Hf : zero_or_nan (lowpass alpha one_minus_a dec F32.zero) = true).
  { unfold lowpass. apply add_zero_or_nan; apply mul_zero_or_nan;
      [reflexivity | exact Hs]. }
  assert (Hacc' : zero_or_nan
                    (F32.add (bit_accum dec)
                       (lowpass alpha one_minus_a dec F32.zero)) = true)
    by (apply add_zero_or_nan; assumption).
  unfold process_sample.
  set (dec1 := advance alpha one_minus_a dec F32.zero).
  destruct (boundary_reached dec1).
  - rewrite bit_boundary_unfold.
    assert (Hbit : emitted_bit dec1 = 0).
    { unfold emitted_bit, dec1. fields.
      rewrite (lt_zero_or_nan_r _ Hacc'). reflexivity. }
    assert (Hwa : window_a (before_confirm dec1) = 0).
    { unfold before_confirm. rewrite Hbit. unfold dec1. fields.
      rewrite Ha. reflexivity. }
    assert (Hwb : window_b (before_confirm dec1) = 0).
    { unfold before_confirm. rewrite Hbit. unfold dec1. fields.
      rewrite Hb. reflexivity. }
    rewrite Hwa, Hwb.
    change (syndrome_tbl dec1) with (syndrome_tbl dec).
    rewrite Ht, decode_zero_windows.
    unfold confirm.
    change (confirm_count (before_confirm dec1)) with (confirm_count dec).
    rewrite Hc. cbn [Z.gtb Z.compare fst snd].
    split; [|reflexivity].
    unfold silent. rewrite Hwa, Hwb.
    change (syndrome_tbl (before_confirm dec1)) with (syndrome_tbl dec).
    change (confirm_count (before_confirm dec1)) with (confirm_count dec).
    change (lp_state (before_confirm dec1))
      with (lowpass alpha one_minus_a dec F32.zero).
    change (lp_prev (before_confirm dec1))
      with (lowpass alpha one_minus_a dec F32.zero).
    change (bit_accum (before_confirm dec1)) with F32.zero.
    exact (conj Hf (conj Hf (conj eq_refl (conj eq_refl (conj eq_refl
             (conj Hc Ht)))))).
  - cbn [fst snd]. split; [|reflexivity].
    unfold silent, dec1. fields.
    exact (conj Hf (conj Hf (conj Hacc' (conj Ha (conj Hb (conj Hc Ht)))))).
Qed.

Lemma process_loop_silent (alpha one_minus_a : float) (n : nat) :
  forall dec, silent dec ->
    silent (fst (process_loop alpha one_minus_a dec (repeat F32.zero n))) /\
    snd (process_loop alpha one_minus_a dec (repeat F32.zero n)) = [].
Proof.
  induction n as [|n IH]; intros dec H; cbn [repeat process_loop].
  - split; [exact H | reflexivity].
  - destruct (process_sample_silent alpha one_minus_a dec H) as [H1 E1].
    destruct (process_sample alpha one_minus_a dec F32.zero)
      as [dec1 calls1].
    cbn [fst snd] in H1, E1. subst calls1.
    destruct (IH dec1 H1) as [H2 E2].
    destruct (process_loop alpha one_minus_a dec1 (repeat F32.zero n))
      as [dec2 calls2].
    cbn [fst snd] in *. subst calls2. split; [exact H2 | reflexivity].
Qed.

(** C6.  A newly created decoder, whatever the sample rate and whatever
    callback is bound to it, invokes nothing while it is fed [n] samples
    equal to 0.0, for every [n]. *)
Theorem silence_invokes_nothing (expf : float -> float) (sampleRate : Z)
    (cb : option funptr) (ctx : ptr) (n : nat) :
  snd (dcs_decoder_process_samples
         (dcs_decoder_set_callback (dcs_decoder_new expf sampleRate) cb ctx)
         (repeat F32.zero n) (Z.of_nat n)) = [].
Proof.
  unfold dcs_decoder_process_samples. cbv zeta.
  rewrite Nat2Z.id, take_ge by (rewrite repeat_length; lia).
  apply process_loop_silent.
  unfold silent. fields. conjuncts; reflexivity.
Qed.

(** *** Splitting a buffer *)

Lemma process_sample_alpha (alpha one_minus_a : float) (dec : dcs_decoder)
    (x : float) :
  lp_alpha (fst (process_sample alpha one_minus_a dec x)) = lp_alpha dec.
Proof.
  unfold process_sample.
  destruct (boundary_reached (advance alpha one_minus_a dec x)).
  - rewrite bit_boundary_unfold.
    match goal with
    | |- lp_alpha (fst (confirm ?d ?f)) = _ =>
        destruct (confirm_frame d f) as (_ & _ & _ & _ & _ & F & _);
        rewrite F
    end.
    reflexivity.
  - reflexivity.
Qed.

Lemma process_loop_alpha (alpha one_minus_a : float) (samples : list float) :
  forall dec,
    lp_alpha (fst (process_loop alpha one_minus_a dec samples)) = lp_alpha dec.
Proof.
  induction samples as [|x rest IH]; intros dec; cbn [process_loop];
    [reflexivity|].
  pose proof (process_sample_alpha alpha one_minus_a dec x) as H1.
  destruct (process_sample alpha one_minus_a dec x) as [dec1 calls1].
  specialize (IH dec1).
  destruct (process_loop alpha one_minus_a dec1 rest) as [dec2 calls2].
  cbn [fst] in *. congruence.
Qed.

Lemma process_loop_app (alpha one_minus_a : float) (s1 s2 : list float) :
  forall dec,
    process_loop alpha one_minus_a dec (s1 ++ s2) =
    (fst (process_loop alpha one_minus_a
            (fst (process_loop alpha one_minus_a dec s1)) s2),
     snd (process_loop alpha one_minus_a dec s1) ++
     snd (process_loop alpha one_minus_a
            (fst (process_loop alpha one_minus_a dec s1)) s2)).
Proof.
  induction s1 as [|x rest IH]; intros dec; cbn [app process_loop].
  - cbn [fst snd app].
    now destruct (process_loop alpha one_minus_a dec s2).
  - destruct (process_sample alpha one_minus_a dec x) as [dec1 calls1].
    rewrite (IH dec1).
    destruct (process_loop alpha one_minus_a dec1 rest) as [dec2 calls2].
    cbn [fst snd]. now rewrite app_assoc.
Qed.

(** C10.  Processing [s1] and then [s2] in two calls leaves the same decoder
    and makes the same invocations, in the same order, as processing
    [s1 ++ s2] in one call; a call with [numSamples = 0] changes nothing and
    invokes nothing. *)
Theorem process_samples_split (dec : dcs_decoder) (s1 s2 : list float) :
  let n1 := Z.of_nat (length s1) in
  let n2 := Z.of_nat (length s2) in
  let r1 := dcs_decoder_process_samples dec s1 n1 in
  let r2 := dcs_decoder_process_samples (fst r1) s2 n2 in
  dcs_decoder_process_samples dec (s1 ++ s2) (n1 + n2)
    = (fst r2, snd r1 ++ snd r2) /\
  dcs_decoder_process_samples dec s1 0 = (dec, []).
Proof.
  cbv zeta. split; [|reflexivity].
  unfold dcs_decoder_process_samples. cbv zeta.
  rewrite <- Nat2Z.inj_add, !Nat2Z.id.
  rewrite !take_ge by (rewrite ?length_app; lia).
  rewrite process_loop_alpha. apply process_loop_app.
Qed.

End DecoderFacts.

(** ** Rounding of binary32 operations, in units *)

Module RoundingFacts.
Import Rounding.

(** *** Rounding to nearest over the integers *)

Lemma pow2_pos (k : Z) : 0 <= k -> 0 < 2 ^ k.
Proof. intros. apply Z.pow_pos_nonneg; lia. Qed.

Lemma pow2_split (j t : Z) : 0 <= t <= j -> 2 ^ j = 2 ^ (j - t) * 2 ^ t.
Proof. intros. rewrite <- Z.pow_add_r by lia. f_equal. lia. Qed.

Lemma pow2_le (a b : Z) : 0 <= a <= b -> 2 ^ a <= 2 ^ b.
Proof. intros. apply Z.pow_le_mono_r; lia. Qed.

Lemma rne_bounds (M k : Z) :
  0 <= M -> 0 < k ->
  M / 2 ^ k <= rne M k <= M / 2 ^ k + 1 /\
  (M mod 2 ^ k = 0 -> rne M k = M / 2 ^ k).
Proof.
  intros HM Hk. unfold rne.
  destruct (k <=? 0) eqn:E; [apply Z.leb_le in E; lia|].
  pose proof (pow2_pos k ltac:(lia)) as Hp.
  pose proof (Z.mod_pos_bound M (2 ^ k) Hp) as Hr.
  destruct (2 * (M mod 2 ^ k) ?= 2 ^ k) eqn:C.
  - apply Z.compare_eq in C. split.
    + destruct (Z.even (M / 2 ^ k)); lia.
    + intros H0. lia.
  - split; [lia | reflexivity].
  - apply Z.compare_gt_iff in C. split; [lia|]. intros H0. lia.
Qed.

Lemma rne_nonpos (M k : Z) : k <= 0 -> rne M k = M.
Proof.
  intros. unfold rne. destruct (k <=? 0) eqn:E; [reflexivity|].
  apply Z.leb_gt in E. lia.
Qed.

Lemma log2_bounds (v : Z) : 0 < v -> 2 ^ Z.log2 v <= v < 2 ^ (Z.log2 v + 1).
Proof. intros. pose proof (Z.log2_spec v H). rewrite <- Z.add_1_r in *. lia. Qed.

(** q * 2^t <= round24 v, and round24 v <= (q+1) * 2^t *)
Lemma round24_unfold (v : Z) : 0 < v ->
  let t := ulp_exp v in
  0 <= t /\ round24 v = rne v t * 2 ^ t /\
  (v / 2 ^ t) * 2 ^ t <= round24 v <= (v / 2 ^ t + 1) * 2 ^ t /\
  (v mod 2 ^ t = 0 -> round24 v = v).
Proof.
  intros HS t. assert (Ht : 0 <= t) by (unfold t, ulp_exp; lia).
  split; [exact Ht|].
  assert (E : round24 v = rne v t * 2 ^ t).
  { unfold round24. destruct (v <=? 0) eqn:E; [apply Z.leb_le in E; lia| reflexivity]. }
  split; [exact E|]. rewrite E.
  pose proof (pow2_pos t Ht) as Hp.
  destruct (Z.eq_dec t 0) as [Ht0|Ht0].
  - rewrite Ht0, rne_nonpos by lia. change (2 ^ 0) with 1.
    rewrite Z.div_1_r. split; [lia|]. intros _. lia.
  - destruct (rne_bounds v t ltac:(lia) ltac:(lia)) as [[Hlo Hhi] Hex].
    split; [split; apply Z.mul_le_mono_nonneg_r; lia|].
    intros H0. rewrite (Hex H0).
    pose proof (Z.div_mod v (2 ^ t) ltac:(lia)). lia.
Qed.

(** Rounding is monotone around a representable number, and leaves a
    representable number as it is. *)
Lemma round24_ge (a v : Z) : representable a -> a <= v -> a <= round24 v.
Proof.
  intros (m & j & Hm & Hj & ->) Hle.
  assert (0 <= m * 2 ^ j) by (pose proof (pow2_pos j Hj); nia).
  destruct (Z.eq_dec v 0) as [->|Hne]; [unfold round24; cbn; lia|].
  assert (HS : 0 < v) by lia.
  destruct (round24_unfold v HS) as (Ht & _ & [Hlo _] & _).
  set (t := ulp_exp v) in *.
  pose proof (pow2_pos t Ht) as Hp.
  eapply Z.le_trans; [|exact Hlo].
  destruct (Z_le_gt_dec t j) as [Hjt|Hjt].
  - rewrite (pow2_split j t) in * by lia.
    rewrite Z.mul_assoc in *.
    apply Z.mul_le_mono_nonneg_r; [lia|].
    apply Z.div_le_lower_bound; lia.
  - assert (Hlog : Z.log2 v = t + 23) by (unfold t, ulp_exp in *; lia).
    pose proof (log2_bounds v HS) as [Hl _]. rewrite Hlog in Hl.
    assert (H23 : 2 ^ 23 <= v / 2 ^ t).
    { apply Z.div_le_lower_bound; [lia|]. rewrite Z.mul_comm, <- Z.pow_add_r by lia.
      replace (23 + t) with (t + 23) by lia. exact Hl. }
    assert (m * 2 ^ j < 2 ^ 24 * 2 ^ j) by (apply Z.mul_lt_mono_pos_r; [apply pow2_pos|]; lia).
    assert (2 ^ j <= 2 ^ (t - 1)) by (apply pow2_le; lia).
    assert (2 ^ t = 2 * 2 ^ (t - 1)).
    { rewrite <- Z.pow_succ_r by lia. f_equal. lia. }
    nia.
Qed.

Lemma round24_le (b v : Z) : representable b -> v <= b -> round24 v <= b.
Proof.
  intros (m & j & Hm & Hj & ->) Hle.
  assert (0 <= m * 2 ^ j) by (pose proof (pow2_pos j Hj); nia).
  destruct (Z_le_gt_dec v 0) as [Hn|HS].
  { unfold round24. destruct (v <=? 0) eqn:E; [lia|apply Z.leb_gt in E; lia]. }
  assert (HS' : 0 < v) by lia.
  destruct (round24_unfold v HS') as (Ht & _ & [_ Hhi] & Hex).
  set (t := ulp_exp v) in *.
  pose proof (pow2_pos t Ht) as Hp.
  destruct (Z.eq_dec t 0) as [Ht0|Ht0].
  { rewrite Hex; [exact Hle|]. rewrite Ht0. apply Z.mod_1_r. }
  assert (Hlog : Z.log2 v = t + 23) by (unfold t, ulp_exp in *; lia).
  pose proof (log2_bounds v HS') as [Hl _]. rewrite Hlog in Hl.
  destruct (Z_le_gt_dec t j) as [Hjt|Hjt].
  - destruct (Z.eq_dec (v mod 2 ^ t) 0) as [H0|H0].
    + rewrite (Hex H0). exact Hle.
    + eapply Z.le_trans; [exact Hhi|].
      rewrite (pow2_split j t) in * by lia.
      rewrite Z.mul_assoc in *.
      apply Z.mul_le_mono_nonneg_r; [lia|].
      pose proof (Z.div_mod v (2 ^ t) ltac:(lia)).
      pose proof (Z.mod_pos_bound v (2 ^ t) Hp).
      nia.
  - exfalso.
    assert (m * 2 ^ j < 2 ^ 24 * 2 ^ j) by (apply Z.mul_lt_mono_pos_r; [apply pow2_pos|]; lia).
    assert (2 ^ j <= 2 ^ (t - 1)) by (apply pow2_le; lia).
    assert (2 ^ (t + 23) = 2 ^ 24 * 2 ^ (t - 1)).
    { rewrite <- Z.pow_add_r by lia. f_equal. lia. }
    nia.
Qed.

Lemma round24_exact (v : Z) : representable v -> round24 v = v.
Proof.
  intros H.
  apply Z.le_antisymm; [apply round24_le | apply round24_ge]; auto; lia.
Qed.

Lemma representable_nonneg (v : Z) : representable v -> 0 <= v.
Proof. intros (m & j & Hm & Hj & ->). pose proof (pow2_pos j Hj). nia. Qed.

Lemma round24_nonneg (v : Z) : 0 <= round24 v.
Proof.
  destruct (Z_le_gt_dec v 0).
  - unfold round24. destruct (v <=? 0) eqn:E; [lia|apply Z.leb_gt in E; lia].
  - apply (round24_ge 0 v); [exists 0, 0; cbn; lia | lia].
Qed.

(** *** The right shifts of [SpecFloat] *)

Lemma digits_log2 (m : positive) :
  Z.pos (digits2_pos m) = Z.log2 (Z.pos m) + 1.
Proof.
  assert (H : forall p, digits2_pos p = Pos.size p)
    by (induction p; cbn; congruence).
  rewrite H. destruct m; cbn; lia.
Qed.

Lemma digits_bounds (m : positive) :
  2 ^ (Z.pos (digits2_pos m) - 1) <= Z.pos m < 2 ^ Z.pos (digits2_pos m).
Proof.
  rewrite digits_log2. pose proof (log2_bounds (Z.pos m) ltac:(lia)).
  replace (Z.log2 (Z.pos m) + 1 - 1) with (Z.log2 (Z.pos m)) by lia. lia.
Qed.

Lemma iter_pos_nat {A} (f : A -> A) (p : positive) :
  forall x, SpecFloat.iter_pos f p x = Nat.iter (Pos.to_nat p) f x.
Proof.
  induction p as [p IH|p IH|]; intros x; cbn [SpecFloat.iter_pos].
  - rewrite !IH, Pos2Nat.inj_xI, Nat.iter_succ_r.
    replace (2 * Pos.to_nat p)%nat with (Pos.to_nat p + Pos.to_nat p)%nat by lia.
    now rewrite Nat.iter_add.
  - rewrite !IH, Pos2Nat.inj_xO.
    replace (2 * Pos.to_nat p)%nat with (Pos.to_nat p + Pos.to_nat p)%nat by lia.
    now rewrite Nat.iter_add.
  - reflexivity.
Qed.

Lemma shr_1_nonneg (m : Z) (r s : bool) :
  0 <= m ->
  shr_1 (Build_shr_record m r s) = Build_shr_record (m / 2) (Z.odd m) (r || s).
Proof.
  intros Hm. destruct m as [|p|p]; [reflexivity| |lia].
  destruct p as [p|p|]; cbn [shr_1].
  - f_equal. rewrite Pos2Z.inj_xI.
    rewrite (Z.mul_comm 2), Z.div_add_l by lia.
    change (1 / 2) with 0. lia.
  - f_equal. rewrite Pos2Z.inj_xO.
    rewrite (Z.mul_comm 2), Z.div_mul by lia. reflexivity.
  - reflexivity.
Qed.

Lemma mod_pow2_succ (M n : Z) : 0 <= n ->
  M mod 2 ^ (n + 1) = M mod 2 ^ n + (if Z.testbit M n then 2 ^ n else 0).
Proof.
  intros Hn. rewrite Z.pow_add_r by lia. change (2 ^ 1) with 2.
  rewrite Z.rem_mul_r by (try apply Z.pow_nonzero; lia).
  destruct (Z.testbit M n) eqn:E.
  - apply Z.testbit_true in E; [|lia]. rewrite E. lia.
  - apply Z.testbit_false in E; [|lia]. rewrite E. lia.
Qed.

Lemma shr_iter (M : Z) (n : nat) : 0 <= M ->
  Nat.iter n shr_1 (Build_shr_record M false false) = shifted M (Z.of_nat n).
Proof.
  intros HM. induction n as [|n IH].
  - reflexivity.
  - rewrite Nat.iter_succ, IH. unfold shifted.
    destruct (Z.of_nat (S n) <=? 0) eqn:E1; [apply Z.leb_le in E1; lia|].
    replace (Z.of_nat (S n) - 1) with (Z.of_nat n) by lia.
    destruct (Z.of_nat n <=? 0) eqn:E0.
    + apply Z.leb_le in E0. assert (n = 0%nat) by lia. subst n. cbn [Z.of_nat].
      rewrite shr_1_nonneg by lia.
      change (2 ^ Z.pos (Pos.of_succ_nat 0)) with 2.
      change (2 ^ 0) with 1. rewrite Z.mod_1_r, Z.bit0_odd. reflexivity.
    + apply Z.leb_gt in E0.
      rewrite shr_1_nonneg by (apply Z.div_pos; [lia | apply pow2_pos; lia]).
      f_equal.
      * rewrite Z.div_div by (try apply pow2_pos; lia).
        f_equal. rewrite Nat2Z.inj_succ, Z.pow_succ_r by lia. lia.
      * rewrite Z.testbit_odd, Z.shiftr_div_pow2 by lia. reflexivity.
      * pose proof (mod_pow2_succ M (Z.of_nat n - 1) ltac:(lia)) as H.
        replace (Z.of_nat n - 1 + 1) with (Z.of_nat n) in H by lia.
        rewrite H.
        pose proof (Z.mod_pos_bound M (2 ^ (Z.of_nat n - 1))
                      (pow2_pos (Z.of_nat n - 1) ltac:(lia))).
        pose proof (pow2_pos (Z.of_nat n - 1) ltac:(lia)).
        destruct (Z.testbit M (Z.of_nat n - 1)); cbn [orb].
        -- symmetry. apply negb_true_iff, Z.eqb_neq. lia.
        -- rewrite Z.add_0_r. reflexivity.
Qed.

Lemma shr_exact (M e n : Z) : 0 <= M ->
  shr (Build_shr_record M false false) e n =
  (shifted M n, if 0 <? n then e + n else e).
Proof.
  intros HM. unfold shr. destruct n as [|p|p]; try reflexivity.
  rewrite iter_pos_nat, shr_iter by exact HM.
  rewrite positive_nat_Z. reflexivity.
Qed.

Lemma round_shifted (M k : Z) : 0 <= M -> 0 <= k ->
  round_nearest_even (shr_m (shifted M k)) (loc_of_shr_record (shifted M k))
  = rne M k.
Proof.
  intros HM Hk. unfold shifted, rne.
  destruct (k <=? 0) eqn:E; [reflexivity|]. apply Z.leb_gt in E.
  cbn [shr_m].
  pose proof (mod_pow2_succ M (k - 1) ltac:(lia)) as H.
  replace (k - 1 + 1) with k in H by lia.
  pose proof (Z.mod_pos_bound M (2 ^ (k - 1))
                (pow2_pos (k - 1) ltac:(lia))) as Hb.
  assert (Hp : 2 ^ k = 2 * 2 ^ (k - 1)).
  { rewrite <- Z.pow_succ_r by lia. f_equal. lia. }
  destruct (Z.testbit M (k - 1)) eqn:Et;
    destruct (Z.eqb_spec (M mod 2 ^ (k - 1)) 0) as [Ez|Ez];
    cbn [negb loc_of_shr_record round_nearest_even].
  - replace (2 * (M mod 2 ^ k) ?= 2 ^ k) with Eq; [reflexivity|].
    symmetry. apply Z.compare_eq_iff. lia.
  - replace (2 * (M mod 2 ^ k) ?= 2 ^ k) with Gt; [reflexivity|].
    symmetry. apply Z.compare_gt_iff. lia.
  - replace (2 * (M mod 2 ^ k) ?= 2 ^ k) with Lt; [reflexivity|].
    symmetry. apply Z.compare_lt_iff. lia.
  - replace (2 * (M mod 2 ^ k) ?= 2 ^ k) with Lt; [reflexivity|].
    symmetry. apply Z.compare_lt_iff. lia.
Qed.

(** *** [binary_round_aux] and [binary_round] *)

Lemma fexp32 (x : Z) : fexp 24 128 x = Z.max (x - 24) (-149).
Proof. reflexivity. Qed.

Lemma bounded_spec (m : positive) (e : Z) :
  bounded 24 128 m e = true <->
  e = Z.max (Z.pos (digits2_pos m) + e - 24) (-149) /\ e <= 104.
Proof.
  unfold bounded, canonical_mantissa. rewrite fexp32.
  rewrite andb_true_iff, Z.eqb_eq, Z.leb_le.
  change (128 - 24) with 104. intuition lia.
Qed.

Lemma Zdigits2_log2 (N : Z) : 0 < N -> Zdigits2 N = Z.log2 N + 1.
Proof. destruct N; try lia. intros _. apply digits_log2. Qed.

Lemma bra_eq (M : positive) (e : Z) :
  let e' := Z.max (Z.pos (digits2_pos M) + e - 24) (-149) in
  let N := rne (Z.pos M) (e' - e) in
  e <= e' -> 0 <= N ->
  binary_round_aux 24 128 false (Z.pos M) e loc_Exact = finish N e'.
Proof.
  intros e' N He HN.
  unfold binary_round_aux, shr_fexp, finish.
  cbn [shr_record_of_loc Zdigits2].
  rewrite fexp32. fold e'.
  rewrite shr_exact by lia.
  rewrite round_shifted by lia. fold N.
  replace (if 0 <? e' - e then e + (e' - e) else e) with e'
    by (destruct (0 <? e' - e) eqn:E;
        [lia | apply Z.ltb_ge in E; lia]).
  rewrite fexp32.
  rewrite shr_exact by exact HN.
  reflexivity.
Qed.

Lemma log2_of_range (N a : Z) :
  0 <= a -> 2 ^ a <= N < 2 ^ (a + 1) -> Z.log2 N = a.
Proof.
  intros Ha H. apply Z.log2_unique; [exact Ha|].
  rewrite <- Z.add_1_r. exact H.
Qed.

Lemma digits_le (N a : Z) : 0 <= a -> 0 < N < 2 ^ a -> Z.log2 N + 1 <= a.
Proof.
  intros Ha [H0 H]. pose proof (log2_bounds N H0) as [Hl _].
  destruct (Z_le_gt_dec (Z.log2 N + 1) a); [assumption|].
  assert (2 ^ a <= 2 ^ Z.log2 N) by (apply pow2_le; lia). lia.
Qed.

(** The second rounding of [binary_round_aux] changes nothing: the result
    is the mantissa [N] of the first one, unless it overflows. *)
Lemma finish_spec (M : positive) (e N : Z) :
  let e' := Z.max (Z.pos (digits2_pos M) + e - 24) (-149) in
  e <= e' ->
  Z.pos M / 2 ^ (e' - e) <= N <= Z.pos M / 2 ^ (e' - e) + 1 ->
  N * 2 ^ (e' + 149) <= max_units ->
  nonneg_finite (finish N e') = true /\
  units (finish N e') = N * 2 ^ (e' + 149).
Proof.
  cbv zeta. intros He HNq Hmax.
  pose proof (digits_bounds M) as HdM.
  remember (Z.pos (digits2_pos M)) as d eqn:Hd.
  assert (Hd1 : 1 <= d) by lia.
  remember (Z.max (d + e - 24) (-149)) as e' eqn:He'def.
  remember (e' - e) as k eqn:Hkdef.
  unfold finish.
  remember (Z.max (Zdigits2 N + e' - 24) (-149) - e') as n2 eqn:Hn2def.
  assert (Hk : 0 <= k) by lia.
  pose proof (pow2_pos k Hk) as Hpk.
  set (q := Z.pos M / 2 ^ k) in *.
  assert (Hq0 : 0 <= q) by (apply Z.div_pos; lia).
  assert (HNnn : 0 <= N) by lia.
  assert (He149 : -149 <= e') by lia.
  pose proof (pow2_pos (e' + 149) ltac:(lia)) as Hpe.
  assert (Hqhi : d - k <= 24 -> q < 2 ^ 24).
  { intros Hdk. apply Z.div_lt_upper_bound; [lia|].
    assert (2 ^ d <= 2 ^ k * 2 ^ 24)
      by (rewrite <- Z.pow_add_r by lia; apply pow2_le; lia).
    lia. }
  destruct (Z.eq_dec N 0) as [HN00|HNpos].
  { unfold shifted.
    destruct (n2 <=? 0) eqn:En2; cbn [shr_m]; rewrite HN00.
    - split; [reflexivity|]. cbn [units]. lia.
    - apply Z.leb_gt in En2.
      rewrite Z.div_0_l by (apply Z.pow_nonzero; lia).
      split; [reflexivity|]. cbn [units]. lia. }
  assert (HNp : 0 < N) by lia.
  assert (Hdig : Zdigits2 N = Z.log2 N + 1) by (apply Zdigits2_log2; lia).
  destruct (Z_le_gt_dec (-149) (d + e - 24)) as [Hnorm|Hsub].
  - (* normal range *)
    assert (He' : e' = d + e - 24) by lia.
    assert (Hkd : k = d - 24) by lia.
    assert (Hq23 : 2 ^ 23 <= q).
    { apply Z.div_le_lower_bound; [lia|].
      assert (2 ^ k * 2 ^ 23 = 2 ^ (d - 1))
        by (rewrite <- Z.pow_add_r by lia; f_equal; lia).
      lia. }
    assert (Hq24 : q < 2 ^ 24) by (apply Hqhi; lia).
    destruct (Z_lt_ge_dec N (2 ^ 24)) as [Hlt|Hge].
    + assert (Hl : Z.log2 N = 23) by (apply log2_of_range; lia).
      assert (Hn2 : n2 = 0) by (rewrite Hn2def, Hdig, Hl; lia).
      rewrite Hn2. unfold shifted. cbn [Z.leb Z.compare shr_m Z.ltb].
      destruct N as [|Np|Np]; try lia.
      assert (He104 : e' <= 104).
      { destruct (Z_le_gt_dec e' 104); [assumption|exfalso].
        assert (2 ^ 254 <= 2 ^ (e' + 149)) by (apply pow2_le; lia).
        unfold max_units in Hmax.
        assert (2 ^ 23 * 2 ^ 254 <= Z.pos Np * 2 ^ (e' + 149)) by nia.
        change (2 ^ 254) with (2 * 2 ^ 253) in *. nia. }
      replace (e' <=? 104) with true by (symmetry; apply Z.leb_le; exact He104).
      split; [|reflexivity].
      cbn [nonneg_finite]. apply bounded_spec.
      rewrite digits_log2, Hl. lia.
    + assert (HN24 : N = 2 ^ 24) by lia.
      assert (Hl : Z.log2 N = 24) by (rewrite HN24; reflexivity).
      assert (Hn2 : n2 = 1) by (rewrite Hn2def, Hdig, Hl; lia).
      rewrite Hn2, HN24. unfold shifted.
      cbn [Z.leb Z.compare shr_m Z.ltb].
      change (2 ^ 24 / 2 ^ 1) with (Z.pos 8388608).
      assert (He104 : e' + 1 <= 104).
      { destruct (Z_le_gt_dec (e' + 1) 104); [assumption|exfalso].
        assert (2 ^ 253 <= 2 ^ (e' + 149)) by (apply pow2_le; lia).
        unfold max_units in Hmax. rewrite HN24 in Hmax. nia. }
      replace (e' + 1 <=? 104) with true by (symmetry; apply Z.leb_le; exact He104).
      split.
      * cbn [nonneg_finite]. apply bounded_spec.
        change (Z.pos (digits2_pos 8388608)) with 24. lia.
      * cbn [units]. replace (e' + 1 + 149) with (e' + 149 + 1) by lia.
        rewrite Z.pow_add_r by lia. change (2 ^ 1) with 2.
        change (Z.pos 8388608) with (2 ^ 23). change (2 ^ 24) with (2 * 2 ^ 23). lia.
  - (* subnormal range *)
    assert (He' : e' = -149) by lia.
    assert (Hq23 : q < 2 ^ 23).
    { destruct (Z.eq_dec k 0) as [E|E].
      - unfold q. rewrite E. change (2 ^ 0) with 1. rewrite Z.div_1_r.
        assert (2 ^ d <= 2 ^ 23) by (apply pow2_le; lia). lia.
      - apply Z.div_lt_upper_bound; [lia|].
        assert (2 ^ d <= 2 ^ k * 2 ^ 23)
          by (rewrite <- Z.pow_add_r by lia; apply pow2_le; lia).
        lia. }
    assert (HN24 : N < 2 ^ 24) by (change (2 ^ 24) with (2 * 2 ^ 23); lia).
    assert (Hl : Z.log2 N + 1 <= 24) by (apply digits_le; lia).
    assert (Hn2 : n2 = 0) by (rewrite Hn2def, Hdig; lia).
    rewrite Hn2. unfold shifted. cbn [Z.leb Z.compare shr_m Z.ltb].
    destruct N as [|Np|Np]; try lia.
    replace (e' <=? 104) with true by (symmetry; apply Z.leb_le; lia).
    split; [|reflexivity].
    cbn [nonneg_finite]. apply bounded_spec.
    rewrite digits_log2. lia.
Qed.

Lemma binary_round_aux_spec (M : positive) (e : Z) :
  let e' := Z.max (Z.pos (digits2_pos M) + e - 24) (-149) in
  let N := rne (Z.pos M) (e' - e) in
  e <= e' ->
  N * 2 ^ (e' + 149) <= max_units ->
  exists f,
    binary_round_aux 24 128 false (Z.pos M) e loc_Exact = f /\
    nonneg_finite f = true /\
    units f = N * 2 ^ (e' + 149).
Proof.
  intros e' N He Hmax.
  assert (Hk : 0 <= e' - e) by lia.
  pose proof (pow2_pos (e' - e) Hk) as Hpk.
  assert (HN : Z.pos M / 2 ^ (e' - e) <= N <= Z.pos M / 2 ^ (e' - e) + 1).
  { destruct (Z.eq_dec (e' - e) 0) as [E|E].
    - unfold N. rewrite E, rne_nonpos by lia.
      change (2 ^ 0) with 1. rewrite Z.div_1_r. lia.
    - destruct (rne_bounds (Z.pos M) (e' - e) ltac:(lia) ltac:(lia))
        as [Hb _]. exact Hb. }
  assert (HNnn : 0 <= N).
  { pose proof (Z.div_pos (Z.pos M) (2 ^ (e' - e)) ltac:(lia) Hpk). lia. }
  exists (finish N e'). split; [apply bra_eq; assumption|].
  apply (finish_spec M e N He HN Hmax).
Qed.

Lemma rne_scale (M k j : Z) :
  0 <= M -> 0 <= k -> 0 <= j -> rne (M * 2 ^ j) (k + j) = rne M k.
Proof.
  intros HM Hk Hj.
  pose proof (pow2_pos j Hj) as Hpj. pose proof (pow2_pos k Hk) as Hpk.
  destruct (Z.eq_dec k 0) as [->|Hk0].
  - rewrite (rne_nonpos M 0) by lia. change (0 + j) with j.
    destruct (Z.eq_dec j 0) as [->|Hj0].
    + rewrite rne_nonpos by lia. change (2 ^ 0) with 1. lia.
    + destruct (rne_bounds (M * 2 ^ j) j ltac:(nia) ltac:(lia)) as [_ Hex].
      rewrite Hex by (apply Z.mod_mul; lia).
      apply Z.div_mul. lia.
  - unfold rne.
    destruct (k + j <=? 0) eqn:E1; [apply Z.leb_le in E1; lia|].
    destruct (k <=? 0) eqn:E2; [apply Z.leb_le in E2; lia|].
    rewrite Z.pow_add_r by lia.
    rewrite Z.div_mul_cancel_r by lia.
    rewrite Z.mul_mod_distr_r by lia.
    replace (2 * (M mod 2 ^ k * 2 ^ j) ?= 2 ^ k * 2 ^ j)
      with (2 * (M mod 2 ^ k) ?= 2 ^ k); [reflexivity|].
    rewrite Z.mul_assoc. apply Zmult_compare_compat_r. lia.
Qed.

Lemma iter_xO (d m : positive) :
  Z.pos (Pos.iter xO m d) = Z.pos m * 2 ^ Z.pos d.
Proof.
  induction d as [|d IH] using Pos.peano_ind.
  - cbn. lia.
  - rewrite Pos.iter_succ, Pos2Z.inj_xO, IH, Pos2Z.inj_succ, Z.pow_succ_r by lia.
    lia.
Qed.

Lemma shl_align_spec (mx : positive) (ex ex' : Z) :
  (ex' < ex ->
   Z.pos (fst (shl_align mx ex ex')) = Z.pos mx * 2 ^ (ex - ex') /\
   snd (shl_align mx ex ex') = ex') /\
  (ex <= ex' -> shl_align mx ex ex' = (mx, ex)).
Proof.
  unfold shl_align. destruct (ex' - ex) as [|p|p] eqn:E; cbn [fst snd].
  - split; [lia | reflexivity].
  - split; [lia | reflexivity].
  - split; [|lia]. intros _. rewrite iter_xO. split; [|reflexivity].
    f_equal. f_equal. lia.
Qed.

Lemma ulp_exp_scaled (M : positive) (e : Z) : -149 <= e ->
  ulp_exp (Z.pos M * 2 ^ (e + 149)) =
  Z.max (Z.pos (digits2_pos M) + e - 24) (-149) + 149.
Proof.
  intros He. unfold ulp_exp.
  rewrite Z.log2_mul_pow2 by lia. rewrite digits_log2. lia.
Qed.

Lemma round24_pos (v : Z) :
  0 < v -> round24 v = rne v (ulp_exp v) * 2 ^ ulp_exp v.
Proof. intros H. apply (round24_unfold v H). Qed.

(** [binary_round] rounds the number of units to 24 bits. *)
Lemma binary_round_spec (M : positive) (e : Z) :
  -149 <= e ->
  round24 (Z.pos M * 2 ^ (e + 149)) <= max_units ->
  exists f,
    binary_round 24 128 false M e = f /\
    nonneg_finite f = true /\
    units f = round24 (Z.pos M * 2 ^ (e + 149)).
Proof.
  intros He Hmax.
  pose proof (pow2_pos (e + 149) ltac:(lia)) as Hpe.
  assert (HS : 0 < Z.pos M * 2 ^ (e + 149)) by nia.
  pose proof (ulp_exp_scaled M e He) as Hu.
  unfold binary_round. rewrite fexp32.
  remember (Z.max (Z.pos (digits2_pos M) + e - 24) (-149)) as e' eqn:He'.
  destruct (shl_align_spec M e e') as [Hlt Hge].
  destruct (Z_lt_ge_dec e' e) as [C|C].
  - (* the mantissa is shifted left: the value is representable *)
    destruct (Hlt C) as [Hm Hs].
    destruct (shl_align M e e') as [mz ez]. cbn [fst snd] in Hm, Hs. subst ez.
    assert (Hdz : Z.pos (digits2_pos mz) = Z.pos (digits2_pos M) + (e - e')).
    { rewrite !digits_log2, Hm, Z.log2_mul_pow2 by lia. lia. }
    assert (Hexact : round24 (Z.pos M * 2 ^ (e + 149)) = Z.pos M * 2 ^ (e + 149)).
    { apply (round24_unfold _ HS). rewrite Hu.
      replace (e + 149) with ((e - e') + (e' + 149)) by lia.
      rewrite (Z.pow_add_r 2 (e - e') (e' + 149)), Z.mul_assoc by lia.
      apply Z.mod_mul.
      apply Z.pow_nonzero; lia. }
    pose proof (binary_round_aux_spec mz e') as Haux. cbv zeta in Haux.
    rewrite Hdz in Haux.
    replace (Z.max (Z.pos (digits2_pos M) + (e - e') + e' - 24) (-149))
      with e' in Haux by lia.
    replace (e' - e') with 0 in Haux by lia.
    rewrite rne_nonpos in Haux by lia.
    assert (Hval : Z.pos mz * 2 ^ (e' + 149) = Z.pos M * 2 ^ (e + 149)).
    { rewrite Hm. replace (e + 149) with ((e - e') + (e' + 149)) by lia.
      rewrite (Z.pow_add_r 2 (e - e') (e' + 149)) by lia. ring. }
    rewrite Hval in Haux. rewrite Hexact in *.
    apply Haux; [lia | exact Hmax].
  - rewrite (Hge ltac:(lia)).
    pose proof (binary_round_aux_spec M e) as Haux. cbv zeta in Haux.
    rewrite <- He' in Haux.
    assert (HR : round24 (Z.pos M * 2 ^ (e + 149)) =
                 rne (Z.pos M) (e' - e) * 2 ^ (e' + 149)).
    { rewrite (round24_pos _ HS), Hu.
      replace (e' + 149) with ((e' - e) + (e + 149)) at 1 by lia.
      rewrite rne_scale by lia. reflexivity. }
    rewrite HR in *. apply Haux; [lia | exact Hmax].
Qed.

(** *** Comparison, addition and subtraction *)

Lemma finite_range (m : positive) (e : Z) :
  bounded 24 128 m e = true ->
  -149 <= e <= 104 /\ Z.pos m < 2 ^ 24 /\ (-149 < e -> 2 ^ 23 <= Z.pos m).
Proof.
  intros H. apply bounded_spec in H as [Hc He].
  pose proof (digits_bounds m) as Hd.
  set (d := Z.pos (digits2_pos m)) in *.
  assert (Hd24 : d <= 24) by lia.
  split; [lia|]. split.
  - assert (2 ^ d <= 2 ^ 24) by (apply pow2_le; unfold d; lia). lia.
  - intros Hn. assert (d = 24) by lia.
    replace (d - 1) with 23 in Hd by lia. lia.
Qed.

Lemma units_representable (f : spec_float) :
  nonneg_finite f = true -> representable (units f).
Proof.
  destruct f as [s|s| |[] m e]; cbn [units nonneg_finite];
    try discriminate; intros H.
  - exists 0, 0. split; [lia|]. split; [lia|reflexivity].
  - destruct (finite_range m e H) as (He & Hm & _).
    exists (Z.pos m), (e + 149). split; [lia|]. split; [lia|reflexivity].
Qed.

Lemma units_nonneg (f : spec_float) : 0 <= units f.
Proof.
  destruct f as [s|s| |[] m e]; cbn [units]; lia.
Qed.

Lemma max_units_representable : representable max_units.
Proof.
  exists (2 ^ 24 - 1), 253. split; [lia|]. split; [lia|reflexivity].
Qed.

Lemma units_le_max (f : spec_float) :
  nonneg_finite f = true -> units f <= max_units.
Proof.
  destruct f as [s|s| |[] m e]; cbn [units nonneg_finite]; intros H;
    try discriminate H;
    try (pose proof (representable_nonneg _ max_units_representable); lia).
  destruct (finite_range m e H) as (He & Hm & _).
  unfold max_units.
  assert (2 ^ (e + 149) <= 2 ^ 253) by (apply pow2_le; lia).
  pose proof (pow2_pos (e + 149) ltac:(lia)). nia.
Qed.

Lemma units_pos_finite (m : positive) (e : Z) :
  -149 <= e -> 0 < units (S754_finite false m e).
Proof.
  intros. cbn [units]. pose proof (pow2_pos (e + 149) ltac:(lia)). nia.
Qed.

(** Order of canonical floats with different exponents. *)
Lemma canonical_order (m1 m2 : positive) (e1 e2 : Z) :
  bounded 24 128 m1 e1 = true -> bounded 24 128 m2 e2 = true ->
  e1 < e2 ->
  Z.pos m1 * 2 ^ (e1 + 149) < Z.pos m2 * 2 ^ (e2 + 149).
Proof.
  intros H1 H2 Hlt.
  destruct (finite_range m1 e1 H1) as (He1 & Hm1 & _).
  destruct (finite_range m2 e2 H2) as (He2 & _ & Hm2).
  specialize (Hm2 ltac:(lia)).
  pose proof (pow2_pos (e1 + 149) ltac:(lia)) as Hp1.
  assert (Hp : 2 ^ (e2 + 149) = 2 ^ (e2 - e1 - 1) * (2 * 2 ^ (e1 + 149))).
  { rewrite <- Z.pow_succ_r, <- Z.pow_add_r by lia. f_equal. lia. }
  pose proof (pow2_pos (e2 - e1 - 1) ltac:(lia)).
  rewrite Hp.
  change (2 ^ 24) with (2 * 2 ^ 23) in Hm1.
  nia.
Qed.

Lemma compare_units (x y : spec_float) :
  nonneg_finite x = true -> nonneg_finite y = true ->
  SFcompare x y = Some (units x ?= units y).
Proof.
  destruct x as [sx|sx| |[] mx ex]; try discriminate;
    destruct y as [sy|sy| |[] my ey]; try discriminate; intros Hx Hy;
    cbn [nonneg_finite] in *.
  - reflexivity.
  - pose proof (units_pos_finite my ey
                  (proj1 (proj1 (finite_range my ey Hy)))).
    cbn [SFcompare]. change (units (S754_zero sx)) with 0.
    symmetry. f_equal. apply Z.compare_lt_iff. lia.
  - pose proof (units_pos_finite mx ex
                  (proj1 (proj1 (finite_range mx ex Hx)))).
    cbn [SFcompare]. change (units (S754_zero sy)) with 0.
    symmetry. f_equal. apply Z.compare_gt_iff. lia.
  - cbn [SFcompare units]. f_equal.
    destruct (Z.compare_spec ex ey) as [E|E|E].
    + subst ey. rewrite Pos.compare_cont_spec. cbn [Pos.switch_Eq].
      pose proof (pow2_pos (ex + 149)
                    ltac:(pose proof (finite_range mx ex Hx); lia)).
      rewrite <- Zmult_compare_compat_r by lia.
      cbn [Z.compare]. now destruct (mx ?= my)%positive.
    + symmetry. apply Z.compare_lt_iff. now apply canonical_order.
    + symmetry. apply Z.compare_gt_iff. now apply canonical_order.
Qed.

Lemma ltb_units (x y : spec_float) :
  nonneg_finite x = true -> nonneg_finite y = true ->
  SFltb x y = (units x <? units y).
Proof.
  intros Hx Hy. unfold SFltb, Z.ltb. rewrite (compare_units x y Hx Hy).
  reflexivity.
Qed.

Lemma leb_units (x y : spec_float) :
  nonneg_finite x = true -> nonneg_finite y = true ->
  SFleb x y = (units x <=? units y).
Proof.
  intros Hx Hy. unfold SFleb, Z.leb. rewrite (compare_units x y Hx Hy).
  destruct (units x ?= units y); reflexivity.
Qed.

(** The value handed to the rounding, from the two aligned mantissas. *)
Lemma aligned_units (mx : positive) (ex ez : Z) :
  -149 <= ez <= ex ->
  Z.pos (fst (shl_align mx ex ez)) * 2 ^ (ez + 149) =
  Z.pos mx * 2 ^ (ex + 149).
Proof.
  intros H. destruct (shl_align_spec mx ex ez) as [Hlt Hge].
  destruct (Z_lt_ge_dec ez ex) as [C|C].
  - destruct (Hlt C) as [-> _].
    replace (ex + 149) with ((ex - ez) + (ez + 149)) by lia.
    rewrite (Z.pow_add_r 2 (ex - ez) (ez + 149)) by lia. ring.
  - rewrite (Hge ltac:(lia)). cbn [fst]. replace ez with ex by lia.
    reflexivity.
Qed.

(** [x + y], for numbers that are not negative. *)
Lemma add_spec (x y : spec_float) :
  nonneg_finite x = true -> nonneg_finite y = true ->
  round24 (units x + units y) <= max_units ->
  nonneg_finite (SFadd 24 128 x y) = true /\
  units (SFadd 24 128 x y) = round24 (units x + units y).
Proof.
  intros Hx Hy Hmax.
  pose proof (units_representable x Hx) as Rx.
  pose proof (units_representable y Hy) as Ry.
  destruct x as [sx|sx| |[] mx ex]; try discriminate;
    destruct y as [sy|sy| |[] my ey]; try discriminate.
  - split; [destruct sx, sy; reflexivity|].
    destruct sx, sy; reflexivity.
  - cbn [SFadd]. split; [exact Hy|].
    change (units (S754_zero sx)) with 0. rewrite Z.add_0_l.
    symmetry. now apply round24_exact.
  - cbn [SFadd]. split; [exact Hx|].
    change (units (S754_zero sy)) with 0. rewrite Z.add_0_r.
    symmetry. now apply round24_exact.
  - cbn [nonneg_finite] in Hx, Hy.
    destruct (finite_range mx ex Hx) as (Hex & _).
    destruct (finite_range my ey Hy) as (Hey & _).
    cbn [SFadd cond_Zopp]. cbv zeta.
    set (ez := Z.min ex ey).
    assert (Hez : -149 <= ez <= ex /\ ez <= ey) by (unfold ez; lia).
    pose proof (aligned_units mx ex ez ltac:(lia)) as Ax.
    pose proof (aligned_units my ey ez ltac:(lia)) as Ay.
    set (a := fst (shl_align mx ex ez)) in *.
    set (b := fst (shl_align my ey ez)) in *.
    change (Z.pos a + Z.pos b) with (Z.pos (a + b)).
    cbn [binary_normalize].
    assert (HS : Z.pos (a + b) * 2 ^ (ez + 149) =
                 units (S754_finite false mx ex) +
                 units (S754_finite false my ey)).
    { cbn [units]. rewrite Pos2Z.inj_add. lia. }
    destruct (binary_round_spec (a + b) ez ltac:(lia)) as (f & Hf & Hv & Hu).
    { rewrite HS. exact Hmax. }
    rewrite Hf, <- HS. split; assumption.
Qed.

(** [x - y], for [0 <= y <= x]. *)
Lemma sub_spec (x y : spec_float) :
  nonneg_finite x = true -> nonneg_finite y = true ->
  units y <= units x ->
  nonneg_finite (SFsub 24 128 x y) = true /\
  units (SFsub 24 128 x y) = round24 (units x - units y).
Proof.
  intros Hx Hy Hle.
  pose proof (units_representable x Hx) as Rx.
  assert (Hmax : round24 (units x - units y) <= max_units).
  { apply Z.le_trans with (units x); [|now apply units_le_max].
    apply round24_le; [exact Rx|]. pose proof (units_nonneg y). lia. }
  destruct x as [sx|sx| |[] mx ex]; try discriminate;
    destruct y as [sy|sy| |[] my ey]; try discriminate.
  - split; destruct sx, sy; reflexivity.
  - exfalso. cbn [nonneg_finite] in Hy.
    pose proof (units_pos_finite my ey
                  (proj1 (proj1 (finite_range my ey Hy)))).
    change (units (S754_zero sx)) with 0 in Hle. lia.
  - cbn [SFsub]. split; [exact Hx|].
    change (units (S754_zero sy)) with 0. rewrite Z.sub_0_r.
    symmetry. now apply round24_exact.
  - cbn [nonneg_finite] in Hx, Hy.
    destruct (finite_range mx ex Hx) as (Hex & _).
    destruct (finite_range my ey Hy) as (Hey & _).
    cbn [SFsub cond_Zopp]. cbv zeta.
    set (ez := Z.min ex ey).
    assert (Hez : -149 <= ez <= ex /\ ez <= ey) by (unfold ez; lia).
    pose proof (aligned_units mx ex ez ltac:(lia)) as Ax.
    pose proof (aligned_units my ey ez ltac:(lia)) as Ay.
    set (a := fst (shl_align mx ex ez)) in *.
    set (b := fst (shl_align my ey ez)) in *.
    pose proof (pow2_pos (ez + 149) ltac:(lia)) as Hp.
    assert (HS : (Z.pos a - Z.pos b) * 2 ^ (ez + 149) =
                 units (S754_finite false mx ex) -
                 units (S754_finite false my ey)).
    { cbn [units]. lia. }
    remember (Z.pos a - Z.pos b) as D eqn:HD.
    destruct D as [|p|p].
    + cbn [binary_normalize]. rewrite <- HS. split; reflexivity.
    + cbn [binary_normalize].
      destruct (binary_round_spec p ez ltac:(lia)) as (f & Hf & Hv & Hu).
      { rewrite HS. exact Hmax. }
      rewrite Hf, <- HS. split; assumption.
    + exfalso. cbn [units] in Hle. nia.
Qed.

(** *** Multiplication *)

Lemma round24_scaled (M : positive) (e : Z) :
  let e' := Z.max (Z.pos (digits2_pos M) + e - 24) (-149) in
  -149 <= e <= e' ->
  round24 (Z.pos M * 2 ^ (e + 149)) = rne (Z.pos M) (e' - e) * 2 ^ (e' + 149).
Proof.
  intros e' He.
  pose proof (pow2_pos (e + 149) ltac:(lia)) as Hpe.
  assert (HS : 0 < Z.pos M * 2 ^ (e + 149)) by nia.
  rewrite (round24_pos _ HS), (ulp_exp_scaled M e) by lia. fold e'.
  replace (e' + 149) with ((e' - e) + (e + 149)) at 1 by lia.
  rewrite rne_scale by lia. reflexivity.
Qed.

(** [x * y], for positive numbers. *)
Lemma mul_spec (mx my : positive) (ex ey : Z) :
  2 ^ 23 <= Z.pos mx * Z.pos my ->
  -149 <= ex + ey ->
  round24 (Z.pos mx * Z.pos my * 2 ^ (ex + ey + 149)) <= max_units ->
  nonneg_finite
    (SFmul 24 128 (S754_finite false mx ex) (S754_finite false my ey)) = true /\
  units (SFmul 24 128 (S754_finite false mx ex) (S754_finite false my ey))
  = round24 (Z.pos mx * Z.pos my * 2 ^ (ex + ey + 149)).
Proof.
  intros Hm He Hmax. cbn [SFmul xorb].
  rewrite <- Pos2Z.inj_mul in *.
  set (M := (mx * my)%positive) in *.
  pose proof (binary_round_aux_spec M (ex + ey)) as Haux. cbv zeta in Haux.
  pose proof (round24_scaled M (ex + ey)) as HR. cbv zeta in HR.
  assert (Hd : 24 <= Z.pos (digits2_pos M)).
  { rewrite digits_log2.
    assert (23 <= Z.log2 (Z.pos M)) by (apply Z.log2_le_pow2; lia). lia. }
  rewrite HR in Hmax |- * by lia.
  destruct Haux as (f & Hf & Hv & Hu); [lia | exact Hmax |].
  rewrite Hf. split; assumption.
Qed.

(** *** Division and the conversion from [int] *)

Lemma shr_m_iter (n : nat) :
  forall rec, 0 <= shr_m rec ->
    shr_m (Nat.iter n shr_1 rec) = shr_m rec / 2 ^ Z.of_nat n.
Proof.
  induction n as [|n IH]; intros rec Hm.
  - cbn [Nat.iter Z.of_nat]. change (2 ^ 0) with 1. now rewrite Z.div_1_r.
  - rewrite Nat.iter_succ_r.
    destruct rec as [m r s]. cbn [shr_m] in Hm.
    rewrite shr_1_nonneg by exact Hm.
    rewrite IH by (cbn [shr_m]; apply Z.div_pos; lia).
    cbn [shr_m]. rewrite Z.div_div by (try apply pow2_pos; lia).
    rewrite Nat2Z.inj_succ, Z.pow_succ_r by lia. reflexivity.
Qed.

Lemma shr_general (rec : shr_record) (e n : Z) :
  0 <= shr_m rec ->
  shr_m (fst (shr rec e n)) = shr_m rec / 2 ^ Z.max n 0 /\
  snd (shr rec e n) = if 0 <? n then e + n else e.
Proof.
  intros Hm. unfold shr. destruct n as [|p|p]; cbn [fst snd Z.ltb Z.compare].
  - change (2 ^ Z.max 0 0) with 1. now rewrite Z.div_1_r.
  - rewrite iter_pos_nat, shr_m_iter, positive_nat_Z by exact Hm.
    rewrite Z.max_l by lia. split; reflexivity.
  - rewrite Z.max_r by lia. change (2 ^ 0) with 1. now rewrite Z.div_1_r.
Qed.

Lemma round_nearest_even_bounds (q : Z) (l : location) :
  q <= round_nearest_even q l <= q + 1.
Proof.
  destruct l as [|[]]; cbn [round_nearest_even]; try lia.
  destruct (Z.even q); lia.
Qed.

Lemma shr_m_of_loc (m : Z) (l : location) : shr_m (shr_record_of_loc m l) = m.
Proof. destruct l as [|[]]; reflexivity. Qed.

(** [binary_round_aux] on an inexact mantissa: the first rounding yields the
    quotient or its successor. *)
Lemma bra_general (M : positive) (e : Z) (l : location) :
  let e' := Z.max (Z.pos (digits2_pos M) + e - 24) (-149) in
  e <= e' ->
  exists N,
    Z.pos M / 2 ^ (e' - e) <= N <= Z.pos M / 2 ^ (e' - e) + 1 /\
    binary_round_aux 24 128 false (Z.pos M) e l = finish N e'.
Proof.
  intros e' He.
  unfold binary_round_aux, shr_fexp. cbn [Zdigits2].
  rewrite fexp32. fold e'.
  assert (Hs := shr_general (shr_record_of_loc (Z.pos M) l) e (e' - e)
                 ltac:(rewrite shr_m_of_loc; lia)).
  rewrite shr_m_of_loc in Hs.
  destruct (shr (shr_record_of_loc (Z.pos M) l) e (e' - e)) as [mrs e1].
  cbn [fst snd] in Hs. destruct Hs as [Hm He1].
  rewrite Z.max_l in Hm by lia.
  assert (He1' : e1 = e').
  { rewrite He1. destruct (0 <? e' - e) eqn:E; [lia|].
    apply Z.ltb_ge in E. lia. }
  clear He1. subst e1.
  set (N := round_nearest_even (shr_m mrs) (loc_of_shr_record mrs)).
  pose proof (round_nearest_even_bounds (shr_m mrs) (loc_of_shr_record mrs))
    as HN. fold N in HN. rewrite Hm in HN.
  assert (HN0 : 0 <= N).
  { pose proof (pow2_pos (e' - e) ltac:(lia)) as Hp.
    pose proof (Z.div_pos (Z.pos M) (2 ^ (e' - e)) ltac:(lia) Hp). lia. }
  exists N. split; [exact HN|].
  rewrite fexp32. cbn [shr_record_of_loc].
  rewrite shr_exact by exact HN0. reflexivity.
Qed.

(** The quotient of two normal numbers is a finite number, as long as the
    exponents are not far apart. *)
Lemma div_normal (m1 m2 : positive) (e1 e2 : Z) :
  2 ^ 23 <= Z.pos m1 < 2 ^ 24 -> 2 ^ 23 <= Z.pos m2 < 2 ^ 24 ->
  -100 <= e1 - e2 <= 100 ->
  nonneg_finite
    (SFdiv 24 128 (S754_finite false m1 e1) (S754_finite false m2 e2)) = true.
Proof.
  intros H1 H2 He.
  assert (Hd : forall m, 2 ^ 23 <= Z.pos m < 2 ^ 24 ->
                         Z.pos (digits2_pos m) = 24).
  { intros m Hm. rewrite digits_log2.
    rewrite (log2_of_range (Z.pos m) 23) by lia. reflexivity. }
  cbn [SFdiv xorb]. unfold SFdiv_core_binary. cbn [Zdigits2].
  rewrite (Hd m1 H1), (Hd m2 H2), fexp32.
  replace (Z.min (Z.max (24 + e1 - (24 + e2) - 24) (-149)) (e1 - e2))
    with (e1 - e2 - 24) by lia.
  replace (e1 - e2 - (e1 - e2 - 24)) with 24 by lia.
  rewrite Z.shiftl_mul_pow2 by lia.
  pose proof (Z.div_eucl_eq (Z.pos m1 * 2 ^ 24) (Z.pos m2) ltac:(lia)) as Hdiv.
  pose proof (Z.mod_pos_bound (Z.pos m1 * 2 ^ 24) (Z.pos m2) ltac:(lia)) as Hr.
  unfold Z.modulo in Hr.
  destruct (Z.div_eucl (Z.pos m1 * 2 ^ 24) (Z.pos m2)) as [q r].
  assert (Hq : 2 ^ 23 <= q < 2 ^ 25).
  { split.
    - destruct (Z_le_gt_dec (2 ^ 23) q); [assumption|exfalso].
      assert (Z.pos m2 * q <= Z.pos m2 * (2 ^ 23 - 1))
        by (apply Z.mul_le_mono_nonneg_l; lia).
      lia.
    - destruct (Z_lt_le_dec q (2 ^ 25)); [assumption|exfalso].
      assert (Z.pos m2 * 2 ^ 25 <= Z.pos m2 * q)
        by (apply Z.mul_le_mono_nonneg_l; lia).
      lia. }
  destruct q as [|q|q]; try lia.
  set (e := e1 - e2 - 24).
  pose proof (digits_bounds q) as Hdq.
  assert (Hd2 : 24 <= Z.pos (digits2_pos q) <= 25).
  { split.
    - destruct (Z_le_gt_dec 24 (Z.pos (digits2_pos q))); [assumption|exfalso].
      assert (2 ^ Z.pos (digits2_pos q) <= 2 ^ 23) by (apply pow2_le; lia).
      lia.
    - destruct (Z_le_gt_dec (Z.pos (digits2_pos q)) 25); [assumption|exfalso].
      assert (2 ^ 25 <= 2 ^ (Z.pos (digits2_pos q) - 1))
        by (apply pow2_le; lia).
      lia. }
  destruct (bra_general q e (new_location (Z.pos m2) r)) as (N & HN & ->).
  { lia. }
  apply (finish_spec q e N); [lia | exact HN |].
  set (d := Z.pos (digits2_pos q)) in *.
  set (e' := Z.max (d + e - 24) (-149)) in *.
  assert (He' : e' = d + e - 24) by (unfold e', e; lia).
  assert (HN24 : N <= 2 ^ 24).
  { assert (Z.pos q / 2 ^ (e' - e) < 2 ^ 24); [|lia].
    apply Z.div_lt_upper_bound; [apply pow2_pos; lia|].
    assert (2 ^ d <= 2 ^ (e' - e) * 2 ^ 24)
      by (rewrite <- Z.pow_add_r by lia; apply pow2_le; lia).
    lia. }
  assert (2 ^ (e' + 149) <= 2 ^ 252) by (apply pow2_le; unfold e in *; lia).
  pose proof (pow2_pos (e' + 149) ltac:(unfold e in *; lia)).
  unfold max_units. change (2 ^ 253) with (2 * 2 ^ 252).
  assert (0 <= N).
  { pose proof (pow2_pos (e' - e) ltac:(lia)) as Hp'.
    pose proof (Z.div_pos (Z.pos q) (2 ^ (e' - e)) ltac:(lia) Hp'). lia. }
  change (2 ^ 24) with 16777216 in *. nia.
Qed.

(** The conversion of a positive [int] is a normal number. *)
Lemma of_int_normal (n : Z) :
  0 < n < 2 ^ 31 ->
  exists m e,
    F32.of_int n = S754_finite false m e /\
    2 ^ 23 <= Z.pos m < 2 ^ 24 /\ -23 <= e <= 8.
Proof.
  intros Hn. destruct n as [|p|p]; try lia.
  change (F32.of_int (Z.pos p)) with (binary_round 24 128 false p 0).
  assert (Hlo : 2 ^ 149 <= round24 (Z.pos p * 2 ^ (0 + 149))).
  { apply round24_ge; [exists 1, 149; repeat split; lia|].
    change (0 + 149) with 149. lia. }
  assert (Hhi : round24 (Z.pos p * 2 ^ (0 + 149)) <= 2 ^ 180).
  { apply round24_le; [exists 1, 180; repeat split; lia|].
    change (0 + 149) with 149. change (2 ^ 180) with (2 ^ 31 * 2 ^ 149). lia. }
  destruct (binary_round_spec p 0 ltac:(lia)) as (f & -> & Hv & Hu).
  { apply Z.le_trans with (2 ^ 180); [exact Hhi|].
    unfold max_units. lia. }
  rewrite <- Hu in Hlo, Hhi.
  destruct f as [s|s| |[] m e]; try discriminate Hv;
    try (cbn [units] in Hlo; lia).
  cbn [nonneg_finite] in Hv. cbn [units] in Hlo, Hhi.
  destruct (finite_range m e Hv) as (He & Hm & Hnorm).
  pose proof (pow2_pos (e + 149) ltac:(lia)) as Hp.
  assert (He23 : -23 <= e).
  { destruct (Z_le_gt_dec (-23) e); [assumption|exfalso].
    assert (2 ^ (e + 149) <= 2 ^ 125) by (apply pow2_le; lia).
    change (2 ^ 149) with (2 ^ 24 * 2 ^ 125) in Hlo. nia. }
  specialize (Hnorm ltac:(lia)).
  assert (He8 : e <= 8).
  { destruct (Z_le_gt_dec e 8); [assumption|exfalso].
    assert (2 ^ 158 <= 2 ^ (e + 149)) by (apply pow2_le; lia).
    change (2 ^ 180) with (2 ^ 22 * 2 ^ 158) in Hhi. nia. }
  exists m, e. repeat split; try reflexivity; lia.
Qed.

End RoundingFacts.

(** ** The bit clock *)

Module ClockFacts.
Import Golay Codes Rounding Decoder RoundingFacts DecoderFacts.

(** Representable numbers below a normal one. *)
Lemma gap_strong (a m j : Z) :
  representable a -> 0 <= j -> 2 ^ 23 < m -> a < m * 2 ^ j ->
  a <= (m - 1) * 2 ^ j.
Proof.
  intros (ma & ja & Hma & Hja & ->) Hj Hm Hlt.
  pose proof (pow2_pos j Hj) as Hpj. pose proof (pow2_pos ja Hja) as Hpja.
  destruct (Z_le_gt_dec j ja) as [C|C].
  - rewrite (pow2_split ja j) in * by lia.
    pose proof (pow2_pos (ja - j) ltac:(lia)).
    rewrite Z.mul_assoc in *.
    apply Z.mul_le_mono_nonneg_r; [lia|]. nia.
  - assert (2 ^ j = 2 ^ (j - ja - 1) * (2 * 2 ^ ja)).
    { rewrite <- Z.pow_succ_r, <- Z.pow_add_r by lia. f_equal. lia. }
    pose proof (pow2_pos (j - ja - 1) ltac:(lia)).
    change (2 ^ 24) with (2 * 2 ^ 23) in Hma. nia.
Qed.

(** Representable numbers below a normal one are at least half a unit in
    the last place away. *)
Lemma gap_weak (a m j : Z) :
  representable a -> 1 <= j -> 2 ^ 23 <= m -> a < m * 2 ^ j ->
  a <= m * 2 ^ j - 2 ^ (j - 1).
Proof.
  intros (ma & ja & Hma & Hja & ->) Hj Hm Hlt.
  assert (Hj2 : 2 ^ j = 2 * 2 ^ (j - 1)).
  { rewrite <- Z.pow_succ_r by lia. f_equal. lia. }
  pose proof (pow2_pos (j - 1) ltac:(lia)) as Hpj.
  pose proof (pow2_pos ja Hja) as Hpja.
  destruct (Z_le_gt_dec (j - 1) ja) as [C|C].
  - rewrite (pow2_split ja (j - 1)) in * by lia.
    pose proof (pow2_pos (ja - (j - 1)) ltac:(lia)).
    rewrite Hj2 in *. rewrite Z.mul_assoc in *.
    set (X := ma * 2 ^ (ja - (j - 1))) in *.
    assert (X < 2 * m) by nia.
    assert (X * 2 ^ (j - 1) <= (2 * m - 1) * 2 ^ (j - 1))
      by (apply Z.mul_le_mono_nonneg_r; lia).
    lia.
  - assert (2 ^ (j - 1) = 2 ^ (j - 1 - ja - 1) * (2 * 2 ^ ja)).
    { rewrite <- Z.pow_succ_r, <- Z.pow_add_r by lia. f_equal. lia. }
    pose proof (pow2_pos (j - 1 - ja - 1) ltac:(lia)).
    change (2 ^ 24) with (2 * 2 ^ 23) in Hma. rewrite Hj2. nia.
Qed.

(** A representable number between [p + 1.0] and [s + 1.0], in units. *)
Lemma increment_bound (p s : Z) (m j : Z) :
  representable p -> s = m * 2 ^ j -> 2 ^ 23 <= m < 2 ^ 24 -> 127 <= j <= 253 ->
  p < s ->
  exists B,
    representable B /\ p + 2 ^ 149 <= B /\ B <= s + 2 ^ 149 /\
    B <= max_units.
Proof.
  intros Hp Hs Hm Hj Hlt.
  pose proof (pow2_pos j ltac:(lia)) as Hpj.
  destruct (Z_le_gt_dec 150 j) as [C|C].
  - (* one unit is below the spacing at [s] *)
    exists s. split; [exists m, j; repeat split; lia|].
    pose proof (gap_weak p m j Hp ltac:(lia) ltac:(lia) ltac:(lia)) as G.
    assert (2 ^ 149 <= 2 ^ (j - 1)) by (apply pow2_le; lia).
    split; [lia|]. split; [lia|].
    unfold max_units. subst s.
    assert (2 ^ j <= 2 ^ 253) by (apply pow2_le; lia). nia.
  - set (c := 2 ^ (149 - j)).
    assert (Hc : 1 <= c <= 2 ^ 22).
    { unfold c. split.
      - pose proof (pow2_pos (149 - j) ltac:(lia)). lia.
      - apply pow2_le. lia. }
    assert (HU : 2 ^ 149 = c * 2 ^ j).
    { unfold c. rewrite <- Z.pow_add_r by lia. f_equal. lia. }
    assert (Hsmall : forall x, 0 <= x <= 2 ^ 25 -> x * 2 ^ j <= max_units).
    { intros x Hx. unfold max_units.
      assert (2 ^ j <= 2 ^ 149) by (apply pow2_le; lia).
      change (2 ^ 253) with (2 ^ 104 * 2 ^ 149). nia. }
    assert (Hj1 : 2 ^ (j + 1) = 2 * 2 ^ j).
    { rewrite <- Z.pow_succ_r by lia. f_equal. }
    destruct (Z_lt_ge_dec (m + c) (2 ^ 24)) as [D|D].
    + exists ((m + c) * 2 ^ j). split; [exists (m + c), j; repeat split; lia|].
      split; [nia|]. split; [nia|]. apply Hsmall. lia.
    + destruct (Z.even (m + c)) eqn:Ev.
      * apply Z.even_spec in Ev as [h Hh].
        exists (h * 2 ^ (j + 1)).
        rewrite Hj1.
        split; [exists h, (j + 1); repeat split; try lia;
                rewrite Hj1; reflexivity|].
        split; [nia|]. split; [nia|].
        replace (h * (2 * 2 ^ j)) with ((m + c) * 2 ^ j) by nia.
        apply Hsmall. lia.
      * assert (Ho : Z.odd (m + c) = true)
          by (rewrite <- Z.negb_even, Ev; reflexivity).
        apply Z.odd_spec in Ho as [h Hh].
        exists (h * 2 ^ (j + 1)).
        rewrite Hj1.
        split; [exists h, (j + 1); repeat split; try lia;
                rewrite Hj1; reflexivity|].
        pose proof (gap_strong p m j Hp ltac:(lia) ltac:(lia) ltac:(lia)) as G.
        split; [nia|]. split; [nia|].
        replace (h * (2 * 2 ^ j)) with ((m + c - 1) * 2 ^ j) by nia.
        apply Hsmall. lia.
Qed.

Lemma pow2_succ (k : Z) : 0 <= k -> 2 ^ (k + 1) = 2 * 2 ^ k.
Proof. intros. rewrite Z.pow_add_r by lia. change (2 ^ 1) with 2. ring. Qed.

Lemma one_units : nonneg_finite F32.one = true /\ units F32.one = 2 ^ 149.
Proof. split; reflexivity. Qed.

Lemma two_units : nonneg_finite F32.two = true /\ units F32.two = 2 ^ 150.
Proof. split; reflexivity. Qed.

(** A finite [samples_per_bit] of at least 2.0 is a normal number. *)
Lemma spb_shape (spb : float) :
  nonneg_finite spb = true -> F32.le F32.two spb = true ->
  exists m e,
    spb = S754_finite false m e /\ bounded 24 128 m e = true /\
    2 ^ 23 <= Z.pos m < 2 ^ 24 /\ -22 <= e <= 104.
Proof.
  intros Hv Hle. unfold F32.le in Hle.
  rewrite (leb_units _ _ (proj1 two_units) Hv) in Hle.
  apply Z.leb_le in Hle. rewrite (proj2 two_units) in Hle.
  destruct spb as [s|s| |[] m e]; try discriminate Hv;
    try (cbn [units] in Hle; lia).
  cbn [nonneg_finite] in Hv. cbn [units] in Hle.
  destruct (finite_range m e Hv) as (He & Hm & Hn).
  assert (He22 : -22 <= e).
  { destruct (Z_le_gt_dec (-22) e); [assumption|exfalso].
    assert (2 ^ (e + 149) <= 2 ^ 126) by (apply pow2_le; lia).
    pose proof (pow2_pos (e + 149) ltac:(lia)).
    change (2 ^ 150) with (2 ^ 24 * 2 ^ 126) in Hle. nia. }
  exists m, e. repeat split; try assumption; try lia.
Qed.

(** [samples_per_bit * 0.5f] is exact. *)
Lemma half_spec (m : positive) (e : Z) :
  bounded 24 128 m e = true -> 2 ^ 23 <= Z.pos m < 2 ^ 24 -> -22 <= e <= 104 ->
  nonneg_finite (F32.mul (S754_finite false m e) F32.c0_5) = true /\
  2 * units (F32.mul (S754_finite false m e) F32.c0_5)
  = units (S754_finite false m e).
Proof.
  intros Hb Hm He.
  change (F32.mul (S754_finite false m e) F32.c0_5)
    with (SFmul 24 128 (S754_finite false m e)
            (S754_finite false 8388608 (-24))).
  assert (HS : Z.pos m * Z.pos 8388608 * 2 ^ (e + -24 + 149)
               = Z.pos m * 2 ^ (e + 148)).
  { replace (e + 148) with (23 + (e + -24 + 149)) by lia.
    rewrite (Z.pow_add_r 2 23 (e + -24 + 149)) by lia.
    change (Z.pos 8388608) with (2 ^ 23). ring. }
  assert (Hrep : representable (Z.pos m * 2 ^ (e + 148)))
    by (exists (Z.pos m), (e + 148); repeat split; lia).
  destruct (mul_spec m 8388608 e (-24)) as [Hv Hu].
  - change (Z.pos 8388608) with (2 ^ 23). nia.
  - lia.
  - rewrite HS, (round24_exact _ Hrep).
    apply Z.le_trans with (units (S754_finite false m e)).
    + cbn [units]. replace (e + 149) with (e + 148 + 1) by lia.
      rewrite (pow2_succ (e + 148)) by lia.
      pose proof (pow2_pos (e + 148) ltac:(lia)). nia.
    + now apply units_le_max.
  - split; [exact Hv|]. rewrite Hu, HS, (round24_exact _ Hrep). cbn [units].
    replace (e + 149) with (e + 148 + 1) by lia.
    rewrite (pow2_succ (e + 148)) by lia. ring.
Qed.

(** [samples_per_bit * 0.05f] lies between 1/32 and 1/8 of
    [samples_per_bit]. *)
Lemma nudge_amount_spec (m : positive) (e : Z) :
  bounded 24 128 m e = true -> 2 ^ 23 <= Z.pos m < 2 ^ 24 -> -22 <= e <= 104 ->
  let n := F32.mul (S754_finite false m e) F32.c0_05 in
  nonneg_finite n = true /\
  units (S754_finite false m e) <= 32 * units n /\
  8 * units n <= units (S754_finite false m e).
Proof.
  intros Hb Hm He n. unfold n.
  change (F32.mul (S754_finite false m e) F32.c0_05)
    with (SFmul 24 128 (S754_finite false m e)
            (S754_finite false 13421773 (-28))).
  set (v := Z.pos m * Z.pos 13421773 * 2 ^ (e + -28 + 149)).
  pose proof (pow2_pos (e + 121) ltac:(lia)) as Hp.
  assert (HS : v = Z.pos m * 13421773 * 2 ^ (e + 121))
    by (unfold v; do 2 f_equal; lia).
  assert (Hu : units (S754_finite false m e) = Z.pos m * 2 ^ 28 * 2 ^ (e + 121)).
  { cbn [units]. replace (e + 149) with (28 + (e + 121)) by lia.
    rewrite (Z.pow_add_r 2 28 (e + 121)) by lia. ring. }
  (* representable bounds: spb / 32 and spb / 8 *)
  assert (Ra : representable (Z.pos m * 2 ^ (e + 144)))
    by (exists (Z.pos m), (e + 144); repeat split; lia).
  assert (Rb : representable (Z.pos m * 2 ^ (e + 146)))
    by (exists (Z.pos m), (e + 146); repeat split; lia).
  assert (Ea : Z.pos m * 2 ^ (e + 144) = Z.pos m * 2 ^ 23 * 2 ^ (e + 121)).
  { replace (e + 144) with (23 + (e + 121)) by lia.
    rewrite (Z.pow_add_r 2 23 (e + 121)) by lia. ring. }
  assert (Eb : Z.pos m * 2 ^ (e + 146) = Z.pos m * 2 ^ 25 * 2 ^ (e + 121)).
  { replace (e + 146) with (25 + (e + 121)) by lia.
    rewrite (Z.pow_add_r 2 25 (e + 121)) by lia. ring. }
  assert (Hlo : Z.pos m * 2 ^ (e + 144) <= round24 v)
    by (apply round24_ge; [exact Ra | rewrite Ea, HS; nia]).
  assert (Hhi : round24 v <= Z.pos m * 2 ^ (e + 146))
    by (apply round24_le; [exact Rb | rewrite Eb, HS; nia]).
  destruct (mul_spec m 13421773 e (-28)) as [Hv Hval].
  - nia.
  - lia.
  - fold v. apply Z.le_trans with (units (S754_finite false m e)).
    + rewrite Hu. rewrite Eb in Hhi. nia.
    + now apply units_le_max.
  - fold v in Hval. split; [exact Hv|]. rewrite Hval, Hu.
    rewrite Ea in Hlo. rewrite Eb in Hhi. split; nia.
Qed.

(** The operations of the decoder, in units. *)
Lemma f32_add (x y : float) :
  nonneg_finite x = true -> nonneg_finite y = true ->
  round24 (units x + units y) <= max_units ->
  nonneg_finite (F32.add x y) = true /\
  units (F32.add x y) = round24 (units x + units y).
Proof. exact (add_spec x y). Qed.

Lemma f32_sub (x y : float) :
  nonneg_finite x = true -> nonneg_finite y = true ->
  units y <= units x ->
  nonneg_finite (F32.sub x y) = true /\
  units (F32.sub x y) = round24 (units x - units y).
Proof. exact (sub_spec x y). Qed.

Lemma f32_lt (x y : float) :
  nonneg_finite x = true -> nonneg_finite y = true ->
  F32.lt x y = (units x <? units y).
Proof. exact (ltb_units x y). Qed.

Lemma f32_le (x y : float) :
  nonneg_finite x = true -> nonneg_finite y = true ->
  F32.le x y = (units x <=? units y).
Proof. exact (leb_units x y). Qed.

Section Clock.
Variable spb : float.
Hypothesis spb_finite : nonneg_finite spb = true.
Hypothesis spb_two : F32.le F32.two spb = true.

(** The phase after a zero crossing: finite, not negative, below [spb]. *)
Lemma nudged_spec (p : float) :
  nonneg_finite p = true -> units p < units spb ->
  (F32.lt p (F32.mul spb F32.c0_5) = true ->
   nonneg_finite (F32.add p (F32.mul spb F32.c0_05)) = true /\
   units (F32.add p (F32.mul spb F32.c0_05)) < units spb) /\
  (F32.lt p (F32.mul spb F32.c0_5) = false ->
   nonneg_finite (F32.sub p (F32.mul spb F32.c0_05)) = true /\
   units (F32.sub p (F32.mul spb F32.c0_05)) < units spb).
Proof.
  intros Hp Hlt.
  destruct (spb_shape spb spb_finite spb_two) as (m & e & -> & Hb & Hm & He).
  destruct (half_spec m e Hb Hm He) as [Hhv Hh].
  destruct (nudge_amount_spec m e Hb Hm He) as (Hnv & Hn32 & Hn8).
  cbv zeta in *.
  set (s := units (S754_finite false m e)) in *.
  set (h := F32.mul (S754_finite false m e) F32.c0_5) in *.
  set (n := F32.mul (S754_finite false m e) F32.c0_05) in *.
  pose proof (units_representable p Hp) as Rp.
  pose proof (units_nonneg p) as Hp0. pose proof (units_nonneg n) as Hn0.
  pose proof (pow2_pos (e + 149) ltac:(lia)) as Hpj.
  assert (Hs : s = Z.pos m * 2 ^ (e + 149)) by reflexivity.
  rewrite (f32_lt p h Hp Hhv).
  split; intros Hc.
  - apply Z.ltb_lt in Hc.
    (* a representable number just below [spb] *)
    assert (Rb : representable ((Z.pos m - 1) * 2 ^ (e + 149)))
      by (exists (Z.pos m - 1), (e + 149); repeat split; lia).
    assert (Hbmax : (Z.pos m - 1) * 2 ^ (e + 149) <= max_units).
    { apply Z.le_trans with s; [nia|]. now apply units_le_max. }
    assert (Hle : units p + units n <= (Z.pos m - 1) * 2 ^ (e + 149)) by nia.
    destruct (f32_add p n Hp Hnv) as [Hv Hu].
    { apply Z.le_trans with ((Z.pos m - 1) * 2 ^ (e + 149)); [|exact Hbmax].
      now apply round24_le. }
    split; [exact Hv|]. rewrite Hu.
    apply Z.le_lt_trans with ((Z.pos m - 1) * 2 ^ (e + 149)); [|nia].
    now apply round24_le.
  - apply Z.ltb_ge in Hc.
    destruct (f32_sub p n Hp Hnv ltac:(lia)) as [Hv Hu].
    split; [exact Hv|]. rewrite Hu.
    apply Z.le_lt_trans with (units p); [|exact Hlt].
    apply round24_le; [exact Rp | lia].
Qed.

(** The phase after the increment by 1.0. *)
Lemma incremented_spec (p : float) :
  nonneg_finite p = true -> units p < units spb ->
  nonneg_finite (F32.add p F32.one) = true /\
  units F32.one <= units (F32.add p F32.one) <= units spb + units F32.one.
Proof.
  intros Hp Hlt.
  destruct (spb_shape spb spb_finite spb_two) as (m & e & -> & Hb & Hm & He).
  pose proof (units_representable p Hp) as Rp. pose proof (units_nonneg p) as Hp0.
  destruct one_units as [H1v H1u]. rewrite H1u.
  destruct (increment_bound (units p) (units (S754_finite false m e))
              (Z.pos m) (e + 149) Rp eq_refl Hm ltac:(lia) Hlt)
    as (B & RB & HB1 & HB2 & HB3).
  destruct (f32_add p F32.one Hp H1v) as [Hv Hu].
  { rewrite H1u. apply Z.le_trans with B; [|exact HB3]. now apply round24_le. }
  rewrite H1u in Hu. split; [exact Hv|]. rewrite Hu. split.
  - apply round24_ge; [|lia]. exists 1, 149. repeat split; lia.
  - apply Z.le_trans with B; [|exact HB2]. now apply round24_le.
Qed.

(** The phase after the subtraction at a bit boundary. *)
Lemma reset_spec (p : float) :
  nonneg_finite p = true ->
  units spb <= units p <= units spb + units F32.one ->
  nonneg_finite (F32.sub p spb) = true /\
  units (F32.sub p spb) <= units F32.one /\
  units (F32.sub p spb) < units spb.
Proof.
  intros Hp [Hlo Hhi].
  destruct (f32_sub p spb Hp spb_finite Hlo) as [Hv Hu].
  destruct one_units as [H1v H1u].
  assert (Hs2 : 2 ^ 150 <= units spb).
  { pose proof spb_two as H. rewrite (f32_le _ _ (proj1 two_units) spb_finite) in H.
    apply Z.leb_le in H. now rewrite (proj2 two_units) in H. }
  assert (Hle : units (F32.sub p spb) <= units F32.one).
  { rewrite Hu. apply round24_le; [now apply units_representable | lia]. }
  split; [exact Hv|]. split; [exact Hle|].
  rewrite H1u in Hle. change (2 ^ 150) with (2 * 2 ^ 149) in Hs2. lia.
Qed.

End Clock.

(** [clock_ok] over the values of its two fields. *)
Lemma clock_ok_spec (dec : dcs_decoder) :
  clock_ok dec = true <->
  nonneg_finite (samples_per_bit dec) = true /\
  F32.le F32.two (samples_per_bit dec) = true /\
  nonneg_finite (bit_phase dec) = true /\
  units (bit_phase dec) < units (samples_per_bit dec).
Proof.
  unfold clock_ok. rewrite !andb_true_iff. split.
  - intros (((Hs & H2) & Hp) & Hlt). rewrite (f32_lt _ _ Hp Hs) in Hlt.
    apply Z.ltb_lt in Hlt. auto.
  - intros (Hs & H2 & Hp & Hlt). rewrite (f32_lt _ _ Hp Hs).
    apply Z.ltb_lt in Hlt. auto.
Qed.

(** A sample leaves [samples_per_bit] as it is. *)
Lemma process_sample_spb (alpha one_minus_a : float) (dec : dcs_decoder)
    (x : float) :
  samples_per_bit (fst (process_sample alpha one_minus_a dec x))
  = samples_per_bit dec.
Proof.
  unfold process_sample.
  destruct (boundary_reached (advance alpha one_minus_a dec x)).
  - rewrite bit_boundary_unfold.
    match goal with
    | |- samples_per_bit (fst (confirm ?d ?f)) = _ =>
        destruct (confirm_frame d f)
          as (_ & _ & _ & _ & _ & _ & _ & _ & F & _);
        rewrite F
    end.
    reflexivity.
  - reflexivity.
Qed.

(** [bit_phase] at the end of a sample: [bit_phase -= samples_per_bit] at a
    bit boundary, the incremented phase otherwise. *)
Lemma process_sample_phase (alpha one_minus_a : float) (dec : dcs_decoder)
    (x : float) :
  bit_phase (fst (process_sample alpha one_minus_a dec x)) =
  let dec1 := advance alpha one_minus_a dec x in
  if boundary_reached dec1
  then F32.sub (bit_phase dec1) (samples_per_bit dec)
  else bit_phase dec1.
Proof.
  unfold process_sample. cbv zeta.
  destruct (boundary_reached (advance alpha one_minus_a dec x)).
  - rewrite bit_boundary_unfold.
    match goal with
    | |- bit_phase (fst (confirm ?d ?f)) = _ =>
        destruct (confirm_frame d f)
          as (_ & _ & _ & _ & _ & _ & _ & _ & _ & F & _);
        rewrite F
    end.
    reflexivity.
  - reflexivity.
Qed.

(** The zero-crossing nudge keeps the phase in [0, samples_per_bit). *)
Lemma nudge_ok (dec : dcs_decoder) (filtered : float) :
  clock_ok dec = true ->
  nonneg_finite (nudge dec filtered) = true /\
  units (nudge dec filtered) < units (samples_per_bit dec).
Proof.
  intros H. apply clock_ok_spec in H as (Hs & H2 & Hp & Hlt).
  unfold nudge.
  destruct (xorb (F32.lt (lp_prev dec) F32.zero) (F32.lt filtered F32.zero));
    [|split; assumption].
  cbv zeta.
  destruct (nudged_spec (samples_per_bit dec) Hs H2 (bit_phase dec) Hp Hlt)
    as [Hadd Hsub].
  destruct (F32.lt (bit_phase dec)
              (F32.mul (samples_per_bit dec) F32.c0_5));
    [apply Hadd | apply Hsub]; reflexivity.
Qed.

(** One sample, on a decoder whose clock is sound. *)
Lemma process_sample_clock (dec : dcs_decoder)
    (alpha one_minus_a sample : float) :
  clock_ok dec = true ->
  let spb := samples_per_bit dec in
  let nudged := nudge dec (lowpass alpha one_minus_a dec sample) in
  let dec1 := advance alpha one_minus_a dec sample in
  let dec' := fst (process_sample alpha one_minus_a dec sample) in
  (nonneg_finite nudged = true /\ units nudged < units spb) /\
  bit_phase dec1 = F32.add nudged F32.one /\
  (nonneg_finite (bit_phase dec1) = true /\
   units (bit_phase dec1) <= units spb + units F32.one) /\
  (boundary_reached dec1 = true ->
   bit_phase dec' = F32.sub (bit_phase dec1) spb /\
   nonneg_finite (bit_phase dec') = true /\
   units (bit_phase dec') < units spb) /\
  clock_ok dec' = true.
Proof.
  intros Hok spb nudged dec1 dec'.
  pose proof (nudge_ok dec (lowpass alpha one_minus_a dec sample) Hok)
    as [Hnv Hnlt].
  fold nudged spb in Hnv, Hnlt.
  pose proof Hok as Hok'.
  apply clock_ok_spec in Hok' as (Hs & H2 & Hp & Hlt). fold spb in Hs, H2.
  destruct (incremented_spec spb Hs H2 nudged Hnv Hnlt) as (Hiv & Hilo & Hihi).
  assert (Hp1 : bit_phase dec1 = F32.add nudged F32.one) by reflexivity.
  assert (Hphase := process_sample_phase alpha one_minus_a dec sample).
  cbv zeta in Hphase. fold dec1 dec' spb in Hphase.
  assert (Hb : boundary_reached dec1 =
               (units spb <=? units (bit_phase dec1))).
  { unfold boundary_reached.
    change (samples_per_bit dec1) with spb.
    rewrite Hp1. apply f32_le; assumption. }
  split; [split; assumption|]. split; [exact Hp1|].
  rewrite Hp1. split; [split; assumption|].
  rewrite <- Hp1.
  assert (Hres : boundary_reached dec1 = true ->
                 bit_phase dec' = F32.sub (bit_phase dec1) spb /\
                 nonneg_finite (bit_phase dec') = true /\
                 units (bit_phase dec') < units spb).
  { intros Hbt. rewrite Hbt in Hphase. rewrite Hb in Hbt.
    apply Z.leb_le in Hbt. rewrite Hphase. split; [reflexivity|].
    rewrite Hp1 in *.
    destruct (reset_spec spb Hs H2 (F32.add nudged F32.one) Hiv
                (conj Hbt Hihi)) as (Hv & _ & Hl).
    split; assumption. }
  split; [exact Hres|].
  apply clock_ok_spec.
  unfold dec'. rewrite process_sample_spb. fold spb dec'.
  split; [exact Hs|]. split; [exact H2|].
  destruct (boundary_reached dec1) eqn:Hbt.
  - destruct (Hres eq_refl) as (_ & Hv & Hl). split; assumption.
  - rewrite Hphase. symmetry in Hb. apply Z.leb_gt in Hb.
    rewrite Hp1. split; [exact Hiv | rewrite <- Hp1; exact Hb].
Qed.

(** Any number of samples keeps the clock sound. *)
Lemma process_loop_clock (alpha one_minus_a : float) (samples : list float) :
  forall dec, clock_ok dec = true ->
    clock_ok (fst (process_loop alpha one_minus_a dec samples)) = true.
Proof.
  induction samples as [|x rest IH]; intros dec Hok; cbn [process_loop].
  - exact Hok.
  - pose proof (process_sample_clock dec alpha one_minus_a x Hok)
      as (_ & _ & _ & _ & Hok1).
    cbv zeta in Hok1.
    destruct (process_sample alpha one_minus_a dec x) as [dec1 calls1].
    cbn [fst] in Hok1. specialize (IH dec1 Hok1).
    destruct (process_loop alpha one_minus_a dec1 rest) as [dec2 calls2].
    exact IH.
Qed.

(** A new decoder whose [samples_per_bit] is at least 2.0 has a sound clock:
    [(float)sampleRate / 134.4f] is then a finite number and [bit_phase] is
    zero. *)
Lemma new_decoder_clock (expf : float -> float) (sampleRate : Z) :
  0 < sampleRate < 2 ^ 31 ->
  F32.le F32.two (samples_per_bit (dcs_decoder_new expf sampleRate)) = true ->
  clock_ok (dcs_decoder_new expf sampleRate) = true.
Proof.
  intros Hr Hle.
  destruct (of_int_normal sampleRate Hr) as (m & e & Ho & Hm & He).
  assert (Hv : nonneg_finite
                 (samples_per_bit (dcs_decoder_new expf sampleRate)) = true).
  { cbn [samples_per_bit dcs_decoder_new]. rewrite Ho.
    apply (div_normal m 8808038 e (-16)); [exact Hm | lia | lia]. }
  apply clock_ok_spec.
  split; [exact Hv|]. split; [exact Hle|]. split; [reflexivity|].
  change (bit_phase (dcs_decoder_new expf sampleRate)) with F32.zero.
  change (units F32.zero) with 0.
  rewrite (f32_le _ _ (proj1 two_units) Hv) in Hle.
  apply Z.leb_le in Hle. rewrite (proj2 two_units) in Hle. lia.
Qed.

(** C8, amended.  A decoder created with an [int] sample rate whose
    [samples_per_bit] is at least 2.0 has a sound clock: [samples_per_bit] is
    a finite number of at least 2.0 and [bit_phase] is a finite number in
    [0, samples_per_bit).  [dcs_decoder_set_callback] and
    [dcs_decoder_process_samples], on any stream, keep the clock sound.  In
    a decoder with a sound clock, within every sample: after the
    zero-crossing nudge [bit_phase] is finite and in [0, samples_per_bit);
    after [bit_phase += 1.0f] it is finite and in [0, samples_per_bit + 1],
    the upper bound included; after the reset at a bit boundary it is finite
    and in [0, samples_per_bit); and the clock is sound at the end of the
    sample.  So [bit_phase] is never negative, infinite or NaN.  Values are
    compared as real numbers, in units of 2^-149. *)
Theorem bit_phase_bounds :
  (forall (expf : float -> float) (sampleRate : Z),
     0 < sampleRate < 2 ^ 31 ->
     F32.le F32.two (samples_per_bit (dcs_decoder_new expf sampleRate))
     = true ->
     clock_ok (dcs_decoder_new expf sampleRate) = true) /\
  forall dec : dcs_decoder,
    clock_ok dec = true ->
    (forall cb ctx, clock_ok (dcs_decoder_set_callback dec cb ctx) = true) /\
    (forall samples numSamples,
       clock_ok (fst (dcs_decoder_process_samples dec samples numSamples))
       = true) /\
    forall alpha one_minus_a sample : float,
      let spb := samples_per_bit dec in
      let nudged := nudge dec (lowpass alpha one_minus_a dec sample) in
      let dec1 := advance alpha one_minus_a dec sample in
      let dec' := fst (process_sample alpha one_minus_a dec sample) in
      (nonneg_finite nudged = true /\ units nudged < units spb) /\
      bit_phase dec1 = F32.add nudged F32.one /\
      (nonneg_finite (bit_phase dec1) = true /\
       units (bit_phase dec1) <= units spb + units F32.one) /\
      (boundary_reached dec1 = true ->
       bit_phase dec' = F32.sub (bit_phase dec1) spb /\
       nonneg_finite (bit_phase dec') = true /\
       units (bit_phase dec') < units spb) /\
      clock_ok dec' = true.
Proof.
  split; [exact new_decoder_clock|].
  intros dec Hok.
  split; [intros cb ctx; exact Hok|].
  split; [|intros alpha one_minus_a sample;
           exact (process_sample_clock dec alpha one_minus_a sample Hok)].
  intros samples numSamples. unfold dcs_decoder_process_samples. cbv zeta.
  apply process_loop_clock. exact Hok.
Qed.

(** The bounds at 16 kHz: a new decoder has a sound clock, and keeps it
    whatever it is fed. *)
Lemma bit_phase_bounds_witness :
  let dec := dcs_decoder_new expf_16000 16000 in
  (0 < 16000 < 2 ^ 31 /\ F32.le F32.two (samples_per_bit dec) = true) /\
  clock_ok dec = true /\
  forall samples numSamples,
    clock_ok (fst (dcs_decoder_process_samples dec samples numSamples))
    = true.
Proof.
  cbv zeta.
  assert (Hr : 0 < 16000 < 2 ^ 31) by lia.
  assert (Hle : F32.le F32.two
                  (samples_per_bit (dcs_decoder_new expf_16000 16000)) = true)
    by (vm_compute; reflexivity).
  pose proof (proj1 bit_phase_bounds expf_16000 16000 Hr Hle) as Hok.
  exact (conj (conj Hr Hle)
           (conj Hok (proj1 (proj2 (proj2 bit_phase_bounds _ Hok))))).
Defined.

Lemma decoder_17200_reachable : reachable decoder_17200.
Proof. unfold decoder_17200. apply reach_process, reach_new. Qed.

(** C8, as stated, fails at the upper end of its last interval.  A decoder
    created at 17200 Hz has [samples_per_bit] = 16774096 * 2^-17, about
    127.976.  After the 1075 samples of [stream_17200] its [bit_phase] is the
    number just below [samples_per_bit], 16774095 * 2^-17.  In the next
    sample, which has no zero crossing, [bit_phase += 1.0f] has the exact sum
    16905167 * 2^-17 to round to a multiple of 2^-16: a tie, which goes to
    the even mantissa, 8452584 * 2^-16.  That is [samples_per_bit + 1]
    itself, so [bit_phase] is not in [0, samples_per_bit + 1). *)
Lemma bit_phase_open_bound_counterexample :
  let dec := decoder_17200 in
  let alpha := lp_alpha dec in
  let dec1 := advance alpha (F32.sub F32.one alpha) dec F32.c0_05 in
  reachable dec /\
  clock_ok dec = true /\
  nonneg_finite (bit_phase dec1) = true /\
  units (bit_phase dec1) = units (samples_per_bit dec) + units F32.one /\
  F32.lt (bit_phase dec1) (F32.add (samples_per_bit dec) F32.one) = false /\
  ~ units (bit_phase dec1) < units (samples_per_bit dec) + units F32.one.
Proof.
  cbv zeta.
  split; [exact decoder_17200_reachable|].
  split; [vm_compute; reflexivity|].
  split; [vm_compute; reflexivity|].
  assert (E : units (bit_phase
                 (advance (lp_alpha decoder_17200)
                    (F32.sub F32.one (lp_alpha decoder_17200))
                    decoder_17200 F32.c0_05))
              = units (samples_per_bit decoder_17200) + units F32.one)
    by (vm_compute; reflexivity).
  split; [exact E|].
  split; [vm_compute; reflexivity|].
  rewrite E. lia.
Qed.

End ClockFacts.

(** ** Properties of the squelch gate *)

Module SquelchFacts.
Import Decoder Squelch.

(** C9.  [set_target_code code inverted] stores the target pair, closes the
    gate and zeroes the tail counter; the decoder the gate owns, with its
    filter, clock, windows, confirmation state, syndrome table and callback
    binding, is the one it was, and so is the tail length. *)
Theorem set_target_code_frame (self : dcs_squelch_ff_impl) (code : Z)
    (inverted : bool) :
  let self' := set_target_code self code inverted in
  d_target_code self' = code /\
  d_target_inverted self' = inverted /\
  d_squelch_open self' = false /\
  is_open self' = false /\
  d_tail_samples self' = 0 /\
  d_dcs_decoder self' = d_dcs_decoder self /\
  d_tail_samples_max self' = d_tail_samples_max self.
Proof. cbv zeta. unfold set_target_code, is_open. cbn. tauto. Qed.

End SquelchFacts.

(** ** Properties of the Golay decoding of a window *)

Module CodecFacts.
Import Golay Codes Decoder Stream GolayFacts CodesFacts DecoderFacts.

(** *** Correction by the table *)

Lemma golay_syndrome_range (w : Z) : 0 <= golay_syndrome w < 2048.
Proof.
  unfold golay_syndrome. cbv zeta.
  change 0x7FF with (Z.ones 11). rewrite Z.land_ones by lia.
  change 2048 with (2 ^ 11). apply Z.mod_pos_bound. lia.
Qed.

(** The syndrome reads the low 23 bits of its argument only. *)
Lemma golay_syndrome_mask (w : Z) :
  golay_syndrome (Z.land w 0x7FFFFF) = golay_syndrome w.
Proof.
  unfold golay_syndrome. cbv zeta. f_equal. f_equal.
  rewrite <- Z.land_assoc. reflexivity.
Qed.

(** What the table holds at index [s]: a pattern of at most three bits whose
    syndrome is [s]. *)
Lemma table_entries_checked :
  all_from 2048 0
    (fun s =>
       match table_entry build_syndrome_table s with
       | Some e =>
           (golay_syndrome e =? s) && (popcount 23 e <=? 3)%nat &&
           (0 <=? e) && (e <? 2 ^ 23)
       | None => false
       end) = true.
Proof. vm_compute. reflexivity. Qed.

Lemma table_entry_at (s : Z) :
  0 <= s < 2048 ->
  exists e,
    table_entry build_syndrome_table s = Some e /\
    golay_syndrome e = s /\ (popcount 23 e <= 3)%nat /\ 0 <= e < 2 ^ 23.
Proof.
  intros Hs.
  pose proof (all_from_sound 2048 0 _ table_entries_checked s ltac:(lia)) as H.
  cbv beta in H.
  destruct (table_entry build_syndrome_table s) as [e|]; [|discriminate].
  apply andb_prop in H as [H H4]. apply andb_prop in H as [H H3].
  apply andb_prop in H as [H1 H2].
  exists e. split; [reflexivity|].
  apply Z.eqb_eq in H1. apply Nat.leb_le in H2.
  apply Z.leb_le in H3. apply Z.ltb_lt in H4. auto.
Qed.

Lemma word_corrected (w : Z) :
  exists e,
    table_entry build_syndrome_table (golay_syndrome w) = Some e /\
    0 <= e < 2 ^ 23 /\ (popcount 23 e <= 3)%nat /\
    golay_syndrome (Z.lxor w e) = 0.
Proof.
  destruct (table_entry_at (golay_syndrome w) (golay_syndrome_range w))
    as (e & Ht & Hs & Hw & He).
  exists e. split; [exact Ht|]. split; [exact He|]. split; [exact Hw|].
  rewrite golay_syndrome_lxor, Hs. apply Z.lxor_nilpotent.
Qed.

(** X1.  Whatever the word, the table read of [try_decode_word] stays
    inside the table and finds a pattern: the syndrome is below 2048, and
    the entry of [build_syndrome_table] at the syndrome of a word [w] is a
    23-bit pattern [e] of at most three bits, never the sentinel, such that
    [w xor e] has syndrome zero.  Every word is therefore corrected to a
    codeword at most three bits away. *)
Theorem every_word_corrected (w : Z) :
  0 <= golay_syndrome w < 2048 /\
  exists e,
    table_entry build_syndrome_table (golay_syndrome w) = Some e /\
    e <> GOLAY_SYN_INVALID /\
    0 <= e < 2 ^ 23 /\ (popcount 23 e <= 3)%nat /\
    golay_syndrome (Z.lxor w e) = 0.
Proof.
  split; [apply golay_syndrome_range|].
  destruct (word_corrected w) as (e & Ht & He & Hw & Hs).
  exists e. split; [exact Ht|].
  split; [unfold GOLAY_SYN_INVALID; lia|].
  split; [exact He|]. split; [exact Hw | exact Hs].
Qed.

(** *** Minimum distance *)

Lemma popcount_lxor (n : nat) :
  forall a b,
    (popcount n (Z.lxor a b) <= popcount n a + popcount n b)%nat.
Proof.
  induction n as [|n IH]; intros a b; cbn [popcount]; [lia|].
  assert (Ho : Z.odd (Z.lxor a b) = xorb (Z.odd a) (Z.odd b))
    by (rewrite <- !Z.bit0_odd; apply Z.lxor_spec).
  assert (Hd : Z.div2 (Z.lxor a b) = Z.lxor (Z.div2 a) (Z.div2 b))
    by (rewrite !Z.div2_spec; apply Z.shiftr_lxor).
  rewrite Ho, Hd. specialize (IH (Z.div2 a) (Z.div2 b)).
  destruct (Z.odd a), (Z.odd b); cbn [xorb]; lia.
Qed.

Lemma light_codewords_checked :
  all_weight_le 23 6
    (fun z => (z =? 0) || negb (golay_syndrome z =? 0)) = true.
Proof. vm_compute. reflexivity. Qed.

(** A word of syndrome zero and at most six bits is zero. *)
Lemma light_codeword_zero (z : Z) :
  0 <= z < 2 ^ 23 -> golay_syndrome z = 0 -> (popcount 23 z <= 6)%nat ->
  z = 0.
Proof.
  intros Hz Hs Hw.
  pose proof (all_weight_le_sound 23 6 _ light_codewords_checked z Hz Hw)
    as H.
  cbv beta in H. rewrite Hs in H. cbn [Z.eqb negb] in H.
  rewrite orb_false_r in H. now apply Z.eqb_eq in H.
Qed.

Lemma lxor_range (a b : Z) (n : Z) :
  0 <= n -> 0 <= a < 2 ^ n -> 0 <= b < 2 ^ n -> 0 <= Z.lxor a b < 2 ^ n.
Proof.
  intros Hn Ha Hb.
  assert (H0 : 0 <= Z.lxor a b) by (apply Z.lxor_nonneg; lia).
  split; [exact H0|].
  destruct (Z.eq_dec (Z.lxor a b) 0) as [->|Hne].
  { apply Z.pow_pos_nonneg; lia. }
  apply Z.log2_lt_pow2; [lia|].
  apply Z.le_lt_trans with (Z.max (Z.log2 a) (Z.log2 b)).
  - apply Z.log2_lxor; lia.
  - destruct (Z.eq_dec a 0) as [->|Ha0], (Z.eq_dec b 0) as [->|Hb0].
    + change (Z.log2 0) with 0. rewrite Z.max_id.
      destruct (Z.eq_dec n 0) as [->|]; [|lia].
      change (2 ^ 0) with 1 in *. rewrite Z.lxor_0_r in Hne. lia.
    + rewrite Z.lxor_0_l in *. change (Z.log2 0) with 0.
      assert (Z.log2 b < n) by (apply Z.log2_lt_pow2; lia).
      pose proof (Z.log2_nonneg b). lia.
    + rewrite Z.lxor_0_r in *. change (Z.log2 0) with 0.
      assert (Z.log2 a < n) by (apply Z.log2_lt_pow2; lia).
      pose proof (Z.log2_nonneg a). lia.
    + assert (Z.log2 a < n) by (apply Z.log2_lt_pow2; lia).
      assert (Z.log2 b < n) by (apply Z.log2_lt_pow2; lia). lia.
Qed.

(** X2.  Two different 23-bit words of syndrome zero differ in at least
    seven bits. *)
Theorem minimum_distance (c1 c2 : Z) :
  0 <= c1 < 2 ^ 23 -> 0 <= c2 < 2 ^ 23 ->
  golay_syndrome c1 = 0 -> golay_syndrome c2 = 0 ->
  c1 <> c2 ->
  (7 <= popcount 23 (Z.lxor c1 c2))%nat.
Proof.
  intros H1 H2 S1 S2 Hne.
  destruct (le_lt_dec 7 (popcount 23 (Z.lxor c1 c2))) as [H|H]; [exact H|].
  exfalso. apply Hne. apply Z.lxor_eq.
  apply light_codeword_zero.
  - apply lxor_range; lia.
  - rewrite golay_syndrome_lxor, S1, S2. reflexivity.
  - lia.
Qed.

(** The zero word and the generator 0xC75, a codeword of seven bits. *)
Lemma minimum_distance_witness :
  (7 <= popcount 23 (Z.lxor 0 GOLAY_POLY))%nat.
Proof.
  apply (minimum_distance 0 GOLAY_POLY).
  - lia.
  - unfold GOLAY_POLY. lia.
  - vm_compute. reflexivity.
  - vm_compute. reflexivity.
  - unfold GOLAY_POLY. lia.
Defined.

(** *** Decoding a window *)

Lemma valid_codes_range : Forall (fun v => 0 <= v <= 511) DCS_VALID_CODES.
Proof. apply (bool_decide_unpack _). vm_compute. exact I. Qed.

Lemma valid_code_range (d : Z) : In d DCS_VALID_CODES -> 0 <= d <= 511.
Proof.
  intros H. pose proof valid_codes_range as F.
  rewrite List.Forall_forall in F. exact (F d H).
Qed.

Lemma valid_code_accepted (d : Z) :
  In d DCS_VALID_CODES -> is_valid_dcs_code d = true.
Proof.
  intros H. apply is_valid_dcs_code_In.
  pose proof (valid_code_range d H). unfold u16.
  rewrite Z.mod_small by lia. exact H.
Qed.

Lemma accepted_data_valid (d : Z) :
  0 <= d < 4096 -> is_valid_dcs_code d = true -> In d DCS_VALID_CODES.
Proof.
  intros Hd H. apply is_valid_dcs_code_In in H. unfold u16 in H.
  rewrite Z.mod_small in H by lia. exact H.
Qed.

(** Bits 11..9 of a 12-bit data field are zero exactly when it is below
    512. *)
Lemma data_high_bits (d : Z) :
  0 <= d < 4096 -> (Z.land d 0xE00 =? 0) = (d <? 512).
Proof.
  intros Hd.
  assert (H : all_from 4096 0
                (fun d => Bool.eqb (Z.land d 0xE00 =? 0) (d <? 512)) = true)
    by (vm_compute; reflexivity).
  apply eqb_prop. exact (all_from_sound 4096 0 _ H d ltac:(lia)).
Qed.

(** The data field of a 23-bit word. *)
Lemma data_field (x : Z) :
  Z.land (Z.shiftr x 11) 0xFFF = Z.shiftr (Z.land x 0x7FFFFF) 11.
Proof.
  change 0xFFF with (Z.ones 12). change 0x7FFFFF with (Z.ones 23).
  apply Z.bits_inj'. intros i Hi.
  rewrite Z.land_spec, !Z.shiftr_spec, Z.land_spec by lia.
  destruct (Z_lt_ge_dec i 12) as [C|C].
  - rewrite !Z.ones_spec_low by lia. reflexivity.
  - rewrite !Z.ones_spec_high by lia. reflexivity.
Qed.

Lemma data_field_range (x : Z) : 0 <= Z.land (Z.shiftr x 11) 0xFFF < 4096.
Proof.
  change 0xFFF with (Z.ones 12). rewrite Z.land_ones by lia.
  change 4096 with (2 ^ 12). apply Z.mod_pos_bound. lia.
Qed.

Lemma land_small (x : Z) (n : Z) :
  0 <= n -> 0 <= x < 2 ^ n -> Z.land x (Z.ones n) = x.
Proof. intros Hn Hx. rewrite Z.land_ones by lia. apply Z.mod_small. lia. Qed.

Lemma land_lxor_mask (a b m : Z) :
  Z.land (Z.lxor a b) m = Z.lxor (Z.land a m) (Z.land b m).
Proof. bitwise. Qed.

(** [try_decode_word] on the built table, step by step. *)
Lemma try_decode_word_unfold (w p : Z) :
  exists e,
    table_entry build_syndrome_table (golay_syndrome w) = Some e /\
    0 <= e < 2 ^ 23 /\ (popcount 23 e <= 3)%nat /\
    golay_syndrome (Z.lxor w e) = 0 /\
    try_decode_word build_syndrome_table w p =
    let data := Z.shiftr (Z.land (Z.lxor w e) 0x7FFFFF) 11 in
    if (data <? 512) && is_valid_dcs_code data then Some (data, p) else None.
Proof.
  destruct (word_corrected w) as (e & Ht & He & Hw & Hs).
  exists e. split; [exact Ht|]. split; [exact He|]. split; [exact Hw|].
  split; [exact Hs|].
  unfold try_decode_word. cbv zeta.
  pose proof (golay_syndrome_range w) as Hr.
  replace (golay_syndrome w <? 2048) with true
    by (symmetry; apply Z.ltb_lt; lia).
  rewrite Ht.
  replace (e =? GOLAY_SYN_INVALID) with false
    by (symmetry; apply Z.eqb_neq; unfold GOLAY_SYN_INVALID; lia).
  cbn [negb].
  rewrite (data_high_bits _ (data_field_range (Z.lxor w e))).
  rewrite data_field. reflexivity.
Qed.

Lemma decode_corrects (cw e p : Z) :
  0 <= cw < 2 ^ 23 -> golay_syndrome cw = 0 ->
  In (Z.shiftr cw 11) DCS_VALID_CODES ->
  0 <= e < 2 ^ 23 -> (popcount 23 e <= 3)%nat ->
  try_decode_word build_syndrome_table (Z.lxor cw e) p
  = Some (Z.shiftr cw 11, p).
Proof.
  intros Hc Hs Hd He Hw.
  destruct (try_decode_word_unfold (Z.lxor cw e) p)
    as (e' & Ht & _ & _ & _ & ->).
  assert (Hse : golay_syndrome (Z.lxor cw e) = golay_syndrome e).
  { rewrite golay_syndrome_lxor, Hs. apply Z.lxor_0_l. }
  rewrite Hse, (table_entry_of_pattern e He Hw) in Ht.
  injection Ht as <-.
  rewrite Z.lxor_assoc, Z.lxor_nilpotent, Z.lxor_0_r.
  change 0x7FFFFF with (Z.ones 23). rewrite land_small by lia.
  cbv zeta.
  pose proof (valid_code_range _ Hd) as Hr.
  replace (Z.shiftr cw 11 <? 512) with true
    by (symmetry; apply Z.ltb_lt; lia).
  rewrite (valid_code_accepted _ Hd). reflexivity.
Qed.

Lemma codeword_19_valid : In (Z.shiftr codeword_19 11) DCS_VALID_CODES.
Proof. left. reflexivity. Qed.

(** X3.  Let [cw] be a 23-bit word of syndrome zero whose data field, bits
    22..11, is a recognised code.  Then [try_decode_word] on [cw] with up to
    three of its 23 bits flipped returns that code, with the polarity flag it
    was given. *)
Theorem try_decode_word_corrects (cw e p : Z) :
  0 <= cw < 2 ^ 23 -> golay_syndrome cw = 0 ->
  In (Z.shiftr cw 11) DCS_VALID_CODES ->
  0 <= e < 2 ^ 23 -> (popcount 23 e <= 3)%nat ->
  try_decode_word build_syndrome_table (Z.lxor cw e) p
  = Some (Z.shiftr cw 11, p).
Proof. exact (decode_corrects cw e p). Qed.

(** The codeword of code 19 with bits 0, 7 and 22 flipped. *)
Lemma try_decode_word_corrects_witness :
  try_decode_word build_syndrome_table (Z.lxor codeword_19 0x400081) 1
  = Some (Z.shiftr codeword_19 11, 1).
Proof.
  apply (try_decode_word_corrects codeword_19 0x400081 1).
  - unfold codeword_19. lia.
  - vm_compute. reflexivity.
  - exact codeword_19_valid.
  - lia.
  - vm_compute. lia.
Defined.

Lemma decode_sound (w p c q : Z) :
  try_decode_word build_syndrome_table w p = Some (c, q) ->
  q = p /\ In c DCS_VALID_CODES /\
  exists cw e,
    Z.land w 0x7FFFFF = Z.lxor cw e /\
    0 <= cw < 2 ^ 23 /\ golay_syndrome cw = 0 /\ Z.shiftr cw 11 = c /\
    0 <= e < 2 ^ 23 /\ (popcount 23 e <= 3)%nat.
Proof.
  destruct (try_decode_word_unfold w p) as (e & Ht & He & Hw & Hs & ->).
  cbv zeta.
  set (cw := Z.land (Z.lxor w e) 0x7FFFFF).
  destruct (Z.shiftr cw 11 <? 512) eqn:E1; [|discriminate].
  destruct (is_valid_dcs_code (Z.shiftr cw 11)) eqn:E2; [|discriminate].
  cbn [andb]. intros [= <- <-]. apply Z.ltb_lt in E1.
  assert (Hcw : 0 <= cw < 2 ^ 23) by apply mask23_range.
  assert (Hd0 : 0 <= Z.shiftr cw 11) by (apply Z.shiftr_nonneg; lia).
  split; [reflexivity|].
  split; [apply accepted_data_valid; [lia | exact E2]|].
  exists cw, e.
  split.
  { unfold cw. rewrite land_lxor_mask.
    change 0x7FFFFF with (Z.ones 23). rewrite (land_small e 23) by lia.
    rewrite Z.lxor_assoc, Z.lxor_nilpotent. now rewrite Z.lxor_0_r. }
  split; [exact Hcw|].
  split; [unfold cw; rewrite golay_syndrome_mask; exact Hs|].
  split; [reflexivity|].
  split; assumption.
Qed.

(** X4.  When [try_decode_word] on the built table returns 1, the polarity
    reported is the flag it was given, the code is in [DCS_VALID_CODES], and
    the low 23 bits of the word are a word of syndrome zero whose data field
    is the reported code, with at most three bits flipped. *)
Theorem try_decode_word_sound (w p c q : Z) :
  try_decode_word build_syndrome_table w p = Some (c, q) ->
  q = p /\ In c DCS_VALID_CODES /\
  exists cw e,
    Z.land w 0x7FFFFF = Z.lxor cw e /\
    0 <= cw < 2 ^ 23 /\ golay_syndrome cw = 0 /\ Z.shiftr cw 11 = c /\
    0 <= e < 2 ^ 23 /\ (popcount 23 e <= 3)%nat.
Proof. exact (decode_sound w p c q). Qed.

Lemma try_decode_word_sound_witness :
  0 = 0 /\ In 19 DCS_VALID_CODES /\
  exists cw e,
    Z.land 4233688 0x7FFFFF = Z.lxor cw e /\
    0 <= cw < 2 ^ 23 /\ golay_syndrome cw = 0 /\ Z.shiftr cw 11 = 19 /\
    0 <= e < 2 ^ 23 /\ (popcount 23 e <= 3)%nat.
Proof.
  apply (try_decode_word_sound 4233688 0 19 0). vm_compute. reflexivity.
Defined.

Lemma lxor_move (a b c : Z) : a = Z.lxor b c -> c = Z.lxor b a.
Proof.
  intros ->. now rewrite <- Z.lxor_assoc, Z.lxor_nilpotent, Z.lxor_0_l.
Qed.

(** A codeword whose data field is a recognised code is below [2^20]. *)
Lemma codeword_below (cw : Z) :
  0 <= cw -> In (Z.shiftr cw 11) DCS_VALID_CODES -> 0 <= cw < 2 ^ 20.
Proof.
  intros H0 Hin. apply valid_code_range in Hin.
  rewrite Z.shiftr_div_pow2 in Hin by lia.
  split; [exact H0|].
  destruct (Z_lt_ge_dec cw (2 ^ 20)) as [C|C]; [exact C|exfalso].
  assert (2 ^ 20 / 2 ^ 11 <= cw / 2 ^ 11) by (apply Z.div_le_mono; lia).
  change (2 ^ 20 / 2 ^ 11) with 512 in *. lia.
Qed.

(** A word that decodes does not decode with its 23 bits flipped. *)
Lemma complement_rejected (w p1 p2 : Z) (r : Z * Z) :
  0 <= w < 2 ^ 23 ->
  try_decode_word build_syndrome_table w p1 = Some r ->
  try_decode_word build_syndrome_table (Z.lxor w 0x7FFFFF) p2 = None.
Proof.
  intros Hw H1. destruct r as [c1 q1].
  destruct (try_decode_word build_syndrome_table (Z.lxor w 0x7FFFFF) p2)
    as [[c2 q2]|] eqn:H2; [exfalso|reflexivity].
  apply decode_sound in H1
    as (_ & V1 & cw1 & e1 & E1 & R1 & S1 & D1 & Re1 & W1).
  apply decode_sound in H2
    as (_ & V2 & cw2 & e2 & E2 & R2 & S2 & D2 & Re2 & W2).
  change 0x7FFFFF with (Z.ones 23) in E1, E2.
  rewrite land_small in E1 by lia.
  rewrite land_small in E2
    by (try apply lxor_range; change (Z.ones 23) with (2 ^ 23 - 1); lia).
  change (Z.ones 23) with 0x7FFFFF in E2.
  subst w. apply lxor_move in E2. subst c1 c2.
  pose proof (codeword_below cw1 ltac:(lia) V1) as B1.
  pose proof (codeword_below cw2 ltac:(lia) V2) as B2.
  assert (Hz : Z.lxor e1 e2 = 0).
  { apply light_codeword_zero.
    - apply lxor_range; lia.
    - rewrite E2. rewrite !golay_syndrome_lxor, S1, S2.
      change (golay_syndrome 0x7FFFFF) with 0.
      rewrite !Z.lxor_0_l, !Z.lxor_0_r. apply Z.lxor_nilpotent.
    - pose proof (popcount_lxor 23 e1 e2). lia. }
  assert (Hm : Z.lxor cw1 cw2 = 0x7FFFFF).
  { rewrite <- (Z.lxor_0_r (Z.lxor cw1 cw2)), <- Hz, E2. bitwise. }
  pose proof (lxor_range cw1 cw2 20 ltac:(lia) B1 B2) as Hr.
  rewrite Hm in Hr. lia.
Qed.

(** X5.  A window that decodes does not decode with its 23 bits
    complemented: of the two calls [try_decode_word(tbl, w, ...)] and
    [try_decode_word(tbl, (~w) & 0x7FFFFF, ...)] at most one returns 1. *)
Theorem polarity_unambiguous (w p1 p2 : Z) (r : Z * Z) :
  0 <= w < 2 ^ 23 ->
  try_decode_word build_syndrome_table w p1 = Some r ->
  try_decode_word build_syndrome_table (Z.land (not32 w) 0x7FFFFF) p2 = None.
Proof.
  intros Hw H. rewrite (masked_complement w Hw).
  exact (complement_rejected w p1 p2 r Hw H).
Qed.

Lemma polarity_unambiguous_witness :
  try_decode_word build_syndrome_table (Z.land (not32 4233688) 0x7FFFFF) 1
  = None.
Proof.
  apply (polarity_unambiguous 4233688 0 1 (19, 0)).
  - lia.
  - vm_compute. reflexivity.
Defined.

(** X6.  Let [cw] be a 23-bit word of syndrome zero whose data field is a
    recognised code, and let [window_a] hold [cw] with up to three bits
    flipped.  Then the four guarded calls of a bit boundary report the code
    of [cw] with inverted = 0, whatever [window_b] holds; and when [window_a]
    holds the 23-bit complement of such a word they report the code with
    inverted = 1. *)
Theorem decode_windows_polarity (cw e wb : Z) :
  0 <= cw < 2 ^ 23 -> golay_syndrome cw = 0 ->
  In (Z.shiftr cw 11) DCS_VALID_CODES ->
  0 <= e < 2 ^ 23 -> (popcount 23 e <= 3)%nat ->
  decode_windows build_syndrome_table (Z.lxor cw e) wb
  = Some (Z.shiftr cw 11, 0) /\
  decode_windows build_syndrome_table (Z.lxor (Z.lxor cw e) 0x7FFFFF) wb
  = Some (Z.shiftr cw 11, 1).
Proof.
  intros Hc Hs Hd He Hw.
  pose proof (decode_corrects cw e 0 Hc Hs Hd He Hw) as D0.
  pose proof (decode_corrects cw e 1 Hc Hs Hd He Hw) as D1.
  assert (Hr : 0 <= Z.lxor cw e < 2 ^ 23) by (apply lxor_range; lia).
  split.
  - unfold decode_windows. rewrite D0. reflexivity.
  - unfold decode_windows.
    rewrite (complement_rejected (Z.lxor cw e) 0 0 _ Hr D0).
    rewrite masked_complement
      by (apply lxor_range; change 0x7FFFFF with (2 ^ 23 - 1); lia).
    rewrite Z.lxor_assoc, Z.lxor_nilpotent, Z.lxor_0_r, D1. reflexivity.
Qed.

Lemma decode_windows_polarity_witness :
  decode_windows build_syndrome_table (Z.lxor codeword_19 0x400081) 0
  = Some (Z.shiftr codeword_19 11, 0) /\
  decode_windows build_syndrome_table
    (Z.lxor (Z.lxor codeword_19 0x400081) 0x7FFFFF) 0
  = Some (Z.shiftr codeword_19 11, 1).
Proof.
  apply (decode_windows_polarity codeword_19 0x400081 0).
  - unfold codeword_19. lia.
  - vm_compute. reflexivity.
  - exact codeword_19_valid.
  - lia.
  - vm_compute. lia.
Defined.

(** *** The syndrome *)

Lemma syndrome_loop_low (n : nat) (x : Z) :
  0 <= x < 2 ^ 11 -> syndrome_loop n x = x.
Proof.
  intros Hx. induction n as [|n IH]; cbn [syndrome_loop]; [reflexivity|].
  unfold syndrome_step.
  rewrite (Z.bits_above_log2 x (Z.of_nat (11 + n))); [exact IH|lia|].
  destruct (Z.eq_dec x 0) as [->|Hne]; [cbn; lia|].
  apply Z.lt_le_trans with 11; [apply Z.log2_lt_pow2; lia | lia].
Qed.

(** X7.  [golay_syndrome] is linear over xor, reads the low 23 bits of its
    argument only, and returns a word below 2048 as it is. *)
Theorem golay_syndrome_linear (a b : Z) :
  golay_syndrome (Z.lxor a b) = Z.lxor (golay_syndrome a) (golay_syndrome b) /\
  golay_syndrome (Z.land a 0x7FFFFF) = golay_syndrome a /\
  (0 <= a < 2048 -> golay_syndrome a = a).
Proof.
  split; [apply golay_syndrome_lxor|].
  split; [apply golay_syndrome_mask|].
  intros Ha. unfold golay_syndrome. cbv zeta.
  change 0x7FFFFF with (Z.ones 23). change 0x7FF with (Z.ones 11).
  rewrite (land_small a 23) by lia.
  rewrite syndrome_loop_low by (change (2 ^ 11) with 2048; lia).
  apply land_small; [lia|]. change (2 ^ 11) with 2048. lia.
Qed.

End CodecFacts.

(** ** Properties of the decoder over a stream *)

Module StreamFacts.
Import Golay Codes Rounding Decoder Stream.
Import GolayFacts CodesFacts DecoderFacts RoundingFacts ClockFacts CodecFacts.

(** A property of decoders that creation has, and that binding a callback
    and processing one sample keep, holds of every reachable decoder. *)
Lemma reachable_preserved (P : dcs_decoder -> Prop) :
  (forall expf rate, P (dcs_decoder_new expf rate)) ->
  (forall dec cb ctx, P dec -> P (dcs_decoder_set_callback dec cb ctx)) ->
  (forall alpha one_minus_a dec x,
     P dec -> P (fst (process_sample alpha one_minus_a dec x))) ->
  forall dec, reachable dec -> P dec.
Proof.
  intros Hnew Hcb Hstep dec Hr.
  induction Hr as [expf rate | dec cb ctx _ IH | dec samples n _ IH].
  - apply Hnew.
  - apply Hcb, IH.
  - unfold dcs_decoder_process_samples. cbv zeta.
    generalize (lp_alpha dec) (F32.sub F32.one (lp_alpha dec)).
    intros alpha one_minus_a.
    generalize (take (Z.to_nat n) samples). intros l.
    revert dec IH. induction l as [|x rest IHl]; intros dec IH;
      cbn [process_loop]; [exact IH|].
    pose proof (Hstep alpha one_minus_a dec x IH) as H1.
    destruct (process_sample alpha one_minus_a dec x) as [dec1 calls1].
    cbn [fst] in H1. specialize (IHl dec1 H1).
    destruct (process_loop alpha one_minus_a dec1 rest) as [dec2 calls2].
    exact IHl.
Qed.

(** *** What processing leaves alone *)

Lemma process_sample_frame (alpha one_minus_a : float) (dec : dcs_decoder)
    (x : float) :
  let dec' := fst (process_sample alpha one_minus_a dec x) in
  lp_alpha dec' = lp_alpha dec /\
  samples_per_bit dec' = samples_per_bit dec /\
  syndrome_tbl dec' = syndrome_tbl dec /\
  callback dec' = callback dec /\
  callback_ctx dec' = callback_ctx dec.
Proof.
  cbv zeta. unfold process_sample.
  destruct (boundary_reached (advance alpha one_minus_a dec x)).
  - rewrite bit_boundary_unfold.
    match goal with
    | |- context [confirm ?d ?f] =>
        destruct (confirm_frame d f)
          as (_ & _ & F1 & F2 & F3 & F4 & _ & _ & F5 & _)
    end.
    rewrite F1, F2, F3, F4, F5. repeat split.
  - repeat split.
Qed.

Lemma process_loop_frame (alpha one_minus_a : float) (samples : list float) :
  forall dec,
    let dec' := fst (process_loop alpha one_minus_a dec samples) in
    lp_alpha dec' = lp_alpha dec /\
    samples_per_bit dec' = samples_per_bit dec /\
    syndrome_tbl dec' = syndrome_tbl dec /\
    callback dec' = callback dec /\
    callback_ctx dec' = callback_ctx dec.
Proof.
  cbv zeta.
  induction samples as [|x rest IH]; intros dec; cbn [process_loop].
  - repeat split.
  - pose proof (process_sample_frame alpha one_minus_a dec x) as H1.
    cbv zeta in H1.
    destruct (process_sample alpha one_minus_a dec x) as [dec1 calls1].
    cbn [fst] in H1. specialize (IH dec1).
    destruct (process_loop alpha one_minus_a dec1 rest) as [dec2 calls2].
    cbn [fst] in *.
    destruct H1 as (A1 & A2 & A3 & A4 & A5).
    destruct IH as (B1 & B2 & B3 & B4 & B5).
    rewrite B1, B2, B3, B4, B5. auto.
Qed.

(** X8.  [dcs_decoder_process_samples], on any decoder and any buffer,
    leaves [lp_alpha], [samples_per_bit], the syndrome table and the
    callback binding as they were; and with [numSamples] zero or negative it
    changes nothing and invokes nothing. *)
Theorem process_samples_frame (dec : dcs_decoder) (samples : list float)
    (numSamples : Z) :
  let dec' := fst (dcs_decoder_process_samples dec samples numSamples) in
  (lp_alpha dec' = lp_alpha dec /\
   samples_per_bit dec' = samples_per_bit dec /\
   syndrome_tbl dec' = syndrome_tbl dec /\
   callback dec' = callback dec /\
   callback_ctx dec' = callback_ctx dec) /\
  (numSamples <= 0 ->
   dcs_decoder_process_samples dec samples numSamples = (dec, [])).
Proof.
  cbv zeta. split; [apply process_loop_frame|].
  intros Hn. unfold dcs_decoder_process_samples. cbv zeta.
  replace (Z.to_nat numSamples) with 0%nat by lia. reflexivity.
Qed.

(** *** The invocations a stream produces *)

Lemma try_decode_word_valid (tbl : list Z) (w p c q : Z) :
  try_decode_word tbl w p = Some (c, q) -> In c DCS_VALID_CODES.
Proof.
  unfold try_decode_word. cbv zeta.
  destruct (golay_syndrome w <? 2048); [|discriminate].
  destruct (table_entry tbl (golay_syndrome w)) as [e|]; [|discriminate].
  destruct (negb (e =? GOLAY_SYN_INVALID)); [|discriminate].
  destruct (Z.land (Z.land (Z.shiftr (Z.lxor w e) 11) 0xFFF) 0xE00 =? 0);
    [|discriminate].
  cbn [andb].
  destruct (is_valid_dcs_code (Z.land (Z.shiftr (Z.lxor w e) 11) 0xFFF))
    eqn:E; [|discriminate].
  intros [= <- _].
  exact (accepted_data_valid _ (data_field_range _) E).
Qed.

Lemma decode_windows_valid (tbl : list Z) (wa wb c p : Z) :
  decode_windows tbl wa wb = Some (c, p) ->
  In c DCS_VALID_CODES /\ (p = 0 \/ p = 1).
Proof.
  unfold decode_windows.
  destruct (try_decode_word tbl wa 0) as [r|] eqn:E1.
  { intros [= ->]. split; [exact (try_decode_word_valid _ _ _ _ _ E1)|].
    left. exact (try_decode_word_polarity _ _ _ _ _ E1). }
  destruct (try_decode_word tbl (Z.land (not32 wa) 0x7FFFFF) 1)
    as [r|] eqn:E2.
  { intros [= ->]. split; [exact (try_decode_word_valid _ _ _ _ _ E2)|].
    right. exact (try_decode_word_polarity _ _ _ _ _ E2). }
  destruct (try_decode_word tbl wb 0) as [r|] eqn:E3.
  { intros [= ->]. split; [exact (try_decode_word_valid _ _ _ _ _ E3)|].
    left. exact (try_decode_word_polarity _ _ _ _ _ E3). }
  intros E4. split; [exact (try_decode_word_valid _ _ _ _ _ E4)|].
  right. exact (try_decode_word_polarity _ _ _ _ _ E4).
Qed.

Lemma confirm_calls (dec : dcs_decoder) (found : option (Z * Z)) :
  (forall c p, found = Some (c, p) ->
               In c DCS_VALID_CODES /\ (p = 0 \/ p = 1)) ->
  Forall (well_formed_call dec) (snd (confirm dec found)) /\
  (length (snd (confirm dec found)) <= 1)%nat.
Proof.
  intros Hv. unfold confirm, fire. destruct found as [[c p]|].
  - destruct (Hv c p eq_refl) as [Hc Hp].
    destruct ((c =? last_code dec) && (p =? last_inverted dec));
      fields; [|split; [constructor | cbn; lia]].
    destruct (callback dec) as [fn|] eqn:Ecb.
    + destruct (confirm_count dec + 1 =? 2) eqn:E2;
        destruct (confirm_count dec + 1 >? 2) eqn:E3;
        try (apply Z.eqb_eq in E2; apply Z.gtb_lt in E3; lia);
        cbn [app length]; (split; [|lia]);
        try (constructor; [|constructor]);
        try exact (conj Ecb (conj eq_refl (conj Hc Hp)));
        constructor.
    + destruct (confirm_count dec + 1 =? 2);
        destruct (confirm_count dec + 1 >? 2);
        cbn [app length]; (split; [constructor | lia]).
  - destruct (confirm_count dec >? 0); fields;
      (split; [constructor | cbn; lia]).
Qed.

Lemma process_sample_calls (alpha one_minus_a : float) (dec : dcs_decoder)
    (x : float) :
  Forall (well_formed_call dec) (snd (process_sample alpha one_minus_a dec x))
  /\ (length (snd (process_sample alpha one_minus_a dec x)) <= 1)%nat.
Proof.
  unfold process_sample.
  destruct (boundary_reached (advance alpha one_minus_a dec x));
    [|split; [constructor | cbn; lia]].
  rewrite bit_boundary_unfold.
  match goal with
  | |- context [confirm ?d ?f] =>
      pose proof (confirm_calls d f) as H
  end.
  apply H. intros c p. apply decode_windows_valid.
Qed.

Lemma process_loop_calls (alpha one_minus_a : float) (samples : list float) :
  forall dec,
    Forall (well_formed_call dec)
      (snd (process_loop alpha one_minus_a dec samples)) /\
    (length (snd (process_loop alpha one_minus_a dec samples))
     <= length samples)%nat.
Proof.
  induction samples as [|x rest IH]; intros dec; cbn [process_loop].
  - split; [constructor | cbn; lia].
  - pose proof (process_sample_calls alpha one_minus_a dec x) as [H1 L1].
    pose proof (process_sample_frame alpha one_minus_a dec x) as F.
    cbv zeta in F.
    destruct (process_sample alpha one_minus_a dec x) as [dec1 calls1].
    cbn [fst snd] in *. destruct F as (_ & _ & _ & Fcb & Fctx).
    destruct (IH dec1) as [H2 L2].
    destruct (process_loop alpha one_minus_a dec1 rest) as [dec2 calls2].
    cbn [fst snd] in *. split.
    + apply Forall_app. split; [exact H1|].
      eapply Forall_impl; [exact H2|].
      intros i (A & B & C & D). unfold well_formed_call.
      rewrite <- Fcb, <- Fctx. auto.
    + rewrite length_app. cbn [length]. lia.
Qed.

(** X9.  Every invocation [dcs_decoder_process_samples] makes goes to the
    callback bound to the decoder at the call, with the bound context, and
    carries a code of [DCS_VALID_CODES] and a polarity flag of 0 or 1.  There
    is at most one invocation per sample processed, and none when no callback
    is bound.  This holds of any decoder state, whatever its table. *)
Theorem invocations_well_formed (dec : dcs_decoder) (samples : list float)
    (numSamples : Z) :
  let calls := snd (dcs_decoder_process_samples dec samples numSamples) in
  Forall (well_formed_call dec) calls /\
  (Z.of_nat (length calls) <= Z.max numSamples 0) /\
  (callback dec = None -> calls = []).
Proof.
  cbv zeta. unfold dcs_decoder_process_samples. cbv zeta.
  destruct (process_loop_calls (lp_alpha dec)
              (F32.sub F32.one (lp_alpha dec))
              (take (Z.to_nat numSamples) samples) dec) as [H L].
  rewrite length_take in L.
  split; [exact H|]. split; [lia|].
  intros Hnone.
  destruct (snd (process_loop (lp_alpha dec) (F32.sub F32.one (lp_alpha dec))
                   dec (take (Z.to_nat numSamples) samples)))
    as [|i rest]; [reflexivity|].
  apply Forall_cons in H as [(Hcb & _) _]. congruence.
Qed.

(** *** The two windows *)

Lemma bit_testbit (b i : Z) :
  b = 0 \/ b = 1 -> 0 <= i ->
  Z.testbit b i = (b =? 1) && (i =? 0).
Proof.
  intros [-> | ->] Hi.
  - rewrite Z.bits_0. reflexivity.
  - cbn [Z.eqb Pos.eqb andb]. destruct (Z.eqb_spec i 0) as [->|Hne].
    + reflexivity.
    + change 1 with (2 ^ 0). apply Z.pow2_bits_false. lia.
Qed.

Lemma shift_windows_mirrored (dec : dcs_decoder) (b : Z) :
  b = 0 \/ b = 1 ->
  0 <= window_a dec < 2 ^ 23 ->
  mirrored dec -> mirrored (shift_windows dec b).
Proof.
  intros Hb Ha Hm i Hi. fields.
  rewrite shift_windows_b. change 0x7FFFFF with (Z.ones 23).
  rewrite Z.land_spec, Z.ones_spec_low, andb_true_r by lia.
  rewrite !Z.lor_spec, Z.shiftr_spec by lia.
  rewrite (bit_testbit b i Hb) by lia.
  destruct (Z.eq_dec i 0) as [->|Hne].
  - rewrite Z.shiftl_spec_low by lia. cbn [orb].
    change (22 - 0 + 1) with 23.
    rewrite (Z.bits_above_log2 (window_a dec) 23); [|lia|].
    + rewrite Z.shiftl_spec by lia. change (22 - 0 - 22) with 0.
      rewrite (bit_testbit b 0 Hb) by lia. reflexivity.
    + destruct (Z.eq_dec (window_a dec) 0) as [->|Hn0]; [cbn; lia|].
      apply Z.log2_lt_pow2; lia.
  - rewrite Z.shiftl_spec by lia.
    replace (i =? 0) with false by (symmetry; apply Z.eqb_neq; exact Hne).
    rewrite andb_false_r, orb_false_r.
    rewrite (Hm (i - 1)) by lia.
    rewrite (Z.shiftl_spec_low b 22 (22 - i)) by lia.
    rewrite orb_false_r. f_equal. lia.
Qed.

Lemma process_sample_mirrored (alpha one_minus_a : float)
    (dec : dcs_decoder) (x : float) :
  invariant dec /\ mirrored dec ->
  invariant (fst (process_sample alpha one_minus_a dec x)) /\
  mirrored (fst (process_sample alpha one_minus_a dec x)).
Proof.
  intros [Hi Hm].
  split; [apply process_sample_invariant; exact Hi|].
  unfold process_sample.
  set (dec1 := advance alpha one_minus_a dec x).
  destruct (boundary_reached dec1); [|exact Hm].
  rewrite bit_boundary_unfold.
  match goal with
  | |- mirrored (fst (confirm ?d ?f)) =>
      destruct (confirm_frame d f) as (Fa & Fb & _)
  end.
  unfold mirrored. rewrite Fa, Fb.
  destruct Hi as (Ha & _).
  exact (shift_windows_mirrored
           (set_filter_clock dec1 (lp_state dec1) (lp_prev dec1)
              (F32.sub (bit_phase dec1) (samples_per_bit dec1)) F32.zero)
           (emitted_bit dec1) (emitted_bit_cases dec1) Ha Hm).
Qed.

(** X10.  In every reachable state [window_b] holds the 23 bits of
    [window_a] in the opposite order: bit [i] of [window_b] is bit [22 - i]
    of [window_a]. *)
Theorem windows_mirrored (dec : dcs_decoder) :
  reachable dec ->
  forall i, 0 <= i < 23 ->
    Z.testbit (window_b dec) i = Z.testbit (window_a dec) (22 - i).
Proof.
  intros Hr.
  refine (proj2 (reachable_preserved
                   (fun d => invariant d /\ mirrored d) _ _ _ dec Hr)).
  - intros expf rate. split.
    + unfold invariant; fields. repeat split; lia.
    + intros i Hi. fields. now rewrite !Z.bits_0.
  - intros d cb ctx H. exact H.
  - intros alpha one_minus_a d x. apply process_sample_mirrored.
Qed.

Lemma windows_mirrored_witness :
  Z.testbit (window_b unconfirmed_decoder) 3
  = Z.testbit (window_a unconfirmed_decoder) (22 - 3).
Proof.
  apply (windows_mirrored unconfirmed_decoder unconfirmed_decoder_reachable 3).
  lia.
Defined.

(** *** The stored pair *)

Lemma confirm_pair_valid (dec : dcs_decoder) (found : option (Z * Z)) :
  (forall c p, found = Some (c, p) ->
               In c DCS_VALID_CODES /\ (p = 0 \/ p = 1)) ->
  pair_valid dec -> pair_valid (fst (confirm dec found)).
Proof.
  intros Hv Hp. unfold confirm. destruct found as [[c p]|].
  - destruct (Hv c p eq_refl) as [Hc Hq].
    destruct ((c =? last_code dec) && (p =? last_inverted dec)) eqn:E.
    + apply andb_prop in E as [E1 E2].
      apply Z.eqb_eq in E1. apply Z.eqb_eq in E2.
      right. fields. rewrite <- E1, <- E2. auto.
    + right. fields. auto.
  - destruct (confirm_count dec >? 0) eqn:E; [|exact Hp].
    apply Z.gtb_lt in E.
    destruct Hp as [(_ & _ & H0) | H]; [lia|]. right. fields. exact H.
Qed.

(** X11.  In every reachable state the stored pair is either the initial
    one, [last_code = -1] and [last_inverted = 0], with a counter of zero,
    or a code of [DCS_VALID_CODES] with a polarity flag of 0 or 1. *)
Theorem stored_pair_valid (dec : dcs_decoder) :
  reachable dec ->
  (last_code dec = -1 /\ last_inverted dec = 0 /\ confirm_count dec = 0) \/
  (In (last_code dec) DCS_VALID_CODES /\
   (last_inverted dec = 0 \/ last_inverted dec = 1)).
Proof.
  apply (reachable_preserved pair_valid).
  - intros expf rate. left. fields. auto.
  - intros d cb ctx H. exact H.
  - intros alpha one_minus_a d x H. unfold process_sample.
    destruct (boundary_reached (advance alpha one_minus_a d x)); [|exact H].
    rewrite bit_boundary_unfold. apply confirm_pair_valid.
    + intros c p. apply decode_windows_valid.
    + exact H.
Qed.

Lemma stored_pair_valid_witness :
  (last_code unconfirmed_decoder = -1 /\
   last_inverted unconfirmed_decoder = 0 /\
   confirm_count unconfirmed_decoder = 0) \/
  (In (last_code unconfirmed_decoder) DCS_VALID_CODES /\
   (last_inverted unconfirmed_decoder = 0 \/
    last_inverted unconfirmed_decoder = 1)).
Proof.
  exact (stored_pair_valid unconfirmed_decoder unconfirmed_decoder_reachable).
Defined.

(** *** NaN samples *)

Lemma mul_nan_r (x : float) : F32.mul x S754_nan = S754_nan.
Proof. destruct x as [| | |[]]; reflexivity. Qed.

Lemma mul_nan_l (x : float) : F32.mul S754_nan x = S754_nan.
Proof. reflexivity. Qed.

Lemma add_nan_r (x : float) : F32.add x S754_nan = S754_nan.
Proof. destruct x as [| | |[]]; reflexivity. Qed.

Lemma add_nan_l (x : float) : F32.add S754_nan x = S754_nan.
Proof. reflexivity. Qed.

Lemma lowpass_nan (alpha one_minus_a : float) (dec : dcs_decoder)
    (x : float) :
  x = S754_nan \/ lp_state dec = S754_nan ->
  lowpass alpha one_minus_a dec x = S754_nan.
Proof.
  unfold lowpass. intros [-> | ->].
  - now rewrite mul_nan_r, add_nan_l.
  - now rewrite mul_nan_r, add_nan_r.
Qed.

Lemma process_sample_nan (alpha one_minus_a : float) (dec : dcs_decoder)
    (x : float) :
  x = S754_nan \/ lp_state dec = S754_nan ->
  lp_state (fst (process_sample alpha one_minus_a dec x)) = S754_nan /\
  emitted_bit (advance alpha one_minus_a dec x) = 0.
Proof.
  intros H. pose proof (lowpass_nan alpha one_minus_a dec x H) as Hf.
  split.
  - unfold process_sample.
    destruct (boundary_reached (advance alpha one_minus_a dec x)).
    + rewrite bit_boundary_unfold.
      match goal with
      | |- lp_state (fst (confirm ?d ?f)) = _ =>
          destruct (confirm_frame d f)
            as (_ & _ & _ & _ & _ & _ & F & _); rewrite F
      end.
      unfold before_confirm. fields. exact Hf.
    + fields. exact Hf.
  - unfold emitted_bit. fields. rewrite Hf, add_nan_r. reflexivity.
Qed.

Lemma process_loop_nan (alpha one_minus_a : float) (samples : list float) :
  forall dec, lp_state dec = S754_nan ->
    lp_state (fst (process_loop alpha one_minus_a dec samples)) = S754_nan.
Proof.
  induction samples as [|x rest IH]; intros dec Hn;
    cbn [process_loop]; [exact Hn|].
  pose proof (process_sample_nan alpha one_minus_a dec x (or_intror Hn))
    as [H1 _].
  destruct (process_sample alpha one_minus_a dec x) as [dec1 calls1].
  cbn [fst] in H1. specialize (IH dec1 H1).
  destruct (process_loop alpha one_minus_a dec1 rest) as [dec2 calls2].
  exact IH.
Qed.

(** X12.  A NaN sample, or a filter state that is a NaN, makes the filter
    state a NaN, whatever the coefficients; the bit emitted if this sample
    reaches a bit boundary is 0; and the filter state is a NaN after any
    further call of [dcs_decoder_process_samples].  A decoder does not
    recover from a NaN sample. *)
Theorem nan_poisons_filter (alpha one_minus_a : float) (dec : dcs_decoder)
    (x : float) :
  x = S754_nan \/ lp_state dec = S754_nan ->
  let dec' := fst (process_sample alpha one_minus_a dec x) in
  lp_state dec' = S754_nan /\
  emitted_bit (advance alpha one_minus_a dec x) = 0 /\
  forall samples numSamples,
    lp_state (fst (dcs_decoder_process_samples dec' samples numSamples))
    = S754_nan.
Proof.
  intros H. cbv zeta.
  destruct (process_sample_nan alpha one_minus_a dec x H) as [H1 H2].
  split; [exact H1|]. split; [exact H2|].
  intros samples numSamples. unfold dcs_decoder_process_samples. cbv zeta.
  apply process_loop_nan. exact H1.
Qed.

Lemma nan_poisons_filter_witness :
  lp_state (fst (process_sample F32.c0_5 F32.c0_5
                   (dcs_decoder_new expf_16000 16000) S754_nan))
  = S754_nan /\
  emitted_bit (advance F32.c0_5 F32.c0_5
                 (dcs_decoder_new expf_16000 16000) S754_nan) = 0 /\
  forall samples numSamples,
    lp_state
      (fst (dcs_decoder_process_samples
              (fst (process_sample F32.c0_5 F32.c0_5
                      (dcs_decoder_new expf_16000 16000) S754_nan))
              samples numSamples))
    = S754_nan.
Proof.
  apply (nan_poisons_filter F32.c0_5 F32.c0_5
           (dcs_decoder_new expf_16000 16000) S754_nan).
  left. reflexivity.
Defined.

(** *** The filter memory and the phase after a bit boundary *)

(** X13.  In every reachable state [lp_prev] equals [lp_state]: the
    zero-crossing test compares the filter output with the output of the
    sample before. *)
Theorem filter_memory (dec : dcs_decoder) :
  reachable dec -> lp_prev dec = lp_state dec.
Proof.
  apply (reachable_preserved (fun d => lp_prev d = lp_state d)).
  - reflexivity.
  - intros d cb ctx H. exact H.
  - intros alpha one_minus_a d x _. unfold process_sample.
    destruct (boundary_reached (advance alpha one_minus_a d x));
      [|reflexivity].
    rewrite bit_boundary_unfold.
    match goal with
    | |- lp_prev (fst (confirm ?d ?f)) = _ =>
        destruct (confirm_frame d f)
          as (_ & _ & _ & _ & _ & _ & F1 & F2 & _); rewrite F1, F2
    end.
    reflexivity.
Qed.

Lemma filter_memory_witness :
  lp_prev unconfirmed_decoder = lp_state unconfirmed_decoder.
Proof.
  exact (filter_memory unconfirmed_decoder unconfirmed_decoder_reachable).
Defined.

(** X14.  In a decoder whose clock is sound, the [bit_phase] left by
    [bit_phase -= samples_per_bit] at a bit boundary is a finite number
    between 0 and 1.0. *)
Theorem phase_after_reset (dec : dcs_decoder)
    (alpha one_minus_a sample : float) :
  clock_ok dec = true ->
  boundary_reached (advance alpha one_minus_a dec sample) = true ->
  nonneg_finite
    (bit_phase (fst (process_sample alpha one_minus_a dec sample))) = true /\
  units (bit_phase (fst (process_sample alpha one_minus_a dec sample)))
  <= units F32.one.
Proof.
  intros Hok Hb.
  destruct (process_sample_clock dec alpha one_minus_a sample Hok)
    as (_ & _ & (Hiv & Hihi) & Hres & _).
  cbv zeta in Hiv, Hihi, Hres.
  destruct (Hres Hb) as (Hp & Hv & _).
  split; [exact Hv|]. rewrite Hp.
  apply clock_ok_spec in Hok as (Hs & H2 & _ & _).
  assert (Hlo : units (samples_per_bit dec)
                <= units (bit_phase (advance alpha one_minus_a dec sample))).
  { unfold boundary_reached in Hb.
    change (samples_per_bit (advance alpha one_minus_a dec sample))
      with (samples_per_bit dec) in Hb.
    rewrite (f32_le _ _ Hs Hiv) in Hb. apply Z.leb_le in Hb. exact Hb. }
  destruct (reset_spec (samples_per_bit dec) Hs H2 _ Hiv (conj Hlo Hihi))
    as (_ & H1 & _).
  exact H1.
Qed.

Lemma phase_after_reset_witness :
  nonneg_finite
    (bit_phase
       (fst (process_sample (lp_alpha unconfirmed_decoder)
               (F32.sub F32.one (lp_alpha unconfirmed_decoder))
               unconfirmed_decoder (F32.opp F32.one)))) = true /\
  units
    (bit_phase
       (fst (process_sample (lp_alpha unconfirmed_decoder)
               (F32.sub F32.one (lp_alpha unconfirmed_decoder))
               unconfirmed_decoder (F32.opp F32.one))))
  <= units F32.one.
Proof.
  apply (phase_after_reset unconfirmed_decoder).
  - vm_compute. reflexivity.
  - exact boundary_after_unconfirmed.
Defined.

End StreamFacts.

(** ** Properties of the block *)

Module BlockFacts.
Import Golay Codes Rounding Decoder Squelch Stream Block.
Import GolayFacts CodesFacts DecoderFacts RoundingFacts CodecFacts StreamFacts.

(** Reduce the projections of the object's field updates. *)
Ltac members :=
  cbn [fst snd d_dcs_decoder d_target_code d_target_inverted d_squelch_open
       d_tail_samples d_tail_samples_max set_gate set_decoder
       set_target_code].

Tactic Notation "members" "in" hyp(H) :=
  cbn [fst snd d_dcs_decoder d_target_code d_target_inverted d_squelch_open
       d_tail_samples d_tail_samples_max set_gate set_decoder
       set_target_code] in H.

Lemma set_gate_same (self : dcs_squelch_ff_impl) :
  set_gate self (d_squelch_open self) (d_tail_samples self) = self.
Proof. destruct self. reflexivity. Qed.

(** *** The gating loop *)

Lemma gate_loop_closed (input : list float) :
  forall self, d_squelch_open self = false ->
    gate_loop self input = (self, replicate (length input) F32.zero).
Proof.
  induction input as [|x rest IH]; intros self Hc; cbn [gate_loop];
    [reflexivity|].
  unfold gate_sample. rewrite Hc, (IH self Hc). reflexivity.
Qed.

Lemma gate_loop_latched (input : list float) :
  forall self, d_squelch_open self = true -> d_tail_samples self <= 0 ->
    gate_loop self input = (self, input).
Proof.
  induction input as [|x rest IH]; intros self Ho Ht; cbn [gate_loop];
    [reflexivity|].
  unfold gate_sample. rewrite Ho.
  replace (d_tail_samples self >? 0) with false
    by (symmetry; rewrite Z.gtb_ltb; apply Z.ltb_ge; exact Ht).
  rewrite (IH self Ho Ht). reflexivity.
Qed.

Lemma pass_then_mute_cons (k : nat) (x : float) (rest : list float) :
  pass_then_mute (S k) (x :: rest) = x :: pass_then_mute k rest.
Proof. reflexivity. Qed.

Lemma gate_loop_tail (input : list float) :
  forall self t,
    d_squelch_open self = true -> d_tail_samples self = t -> 0 < t ->
    gate_loop self input =
    if Z.of_nat (length input) <? t
    then (set_gate self true (t - Z.of_nat (length input)), input)
    else (set_gate self false 0, pass_then_mute (Z.to_nat t) input).
Proof.
  induction input as [|x rest IH]; intros self t Ho Ht Hpos.
  - cbn [gate_loop]. change (Z.of_nat (length [])) with 0.
    replace (0 <? t) with true by (symmetry; apply Z.ltb_lt; exact Hpos).
    rewrite Z.sub_0_r, <- Ho, <- Ht, set_gate_same. reflexivity.
  - cbn [gate_loop]. unfold gate_sample. rewrite Ho, Ht.
    replace (t >? 0) with true
      by (symmetry; rewrite Z.gtb_ltb; apply Z.ltb_lt; exact Hpos).
    cbv zeta.
    replace (Z.to_nat t) with (S (Z.to_nat (t - 1))) by lia.
    rewrite pass_then_mute_cons.
    change (length (x :: rest)) with (S (length rest)).
    rewrite Nat2Z.inj_succ.
    destruct (Z.eqb_spec (t - 1) 0) as [E|E].
    + rewrite gate_loop_closed by reflexivity.
      replace (Z.succ (Z.of_nat (length rest)) <? t) with false
        by (symmetry; apply Z.ltb_ge; lia).
      rewrite E. cbn [Z.to_nat]. unfold pass_then_mute.
      rewrite take_0, Nat.sub_0_r. reflexivity.
    + rewrite (IH (set_gate self true (t - 1)) (t - 1) eq_refl eq_refl
                 ltac:(lia)).
      destruct (Z.ltb_spec (Z.of_nat (length rest)) (t - 1)) as [C|C].
      * replace (Z.succ (Z.of_nat (length rest)) <? t) with true
          by (symmetry; apply Z.ltb_lt; lia).
        replace (t - 1 - Z.of_nat (length rest))
          with (t - Z.succ (Z.of_nat (length rest))) by lia.
        reflexivity.
      * replace (Z.succ (Z.of_nat (length rest)) <? t) with false
          by (symmetry; apply Z.ltb_ge; lia).
        reflexivity.
Qed.

(** *** The invocations delivered to the object *)

Lemma deliver_all (calls : list invocation) :
  forall self,
    fold_left deliver calls self =
    if existsb (matches_target self) calls
    then set_gate self true (d_tail_samples_max self)
    else self.
Proof.
  induction calls as [|i rest IH]; intros self; cbn [fold_left existsb];
    [reflexivity|].
  rewrite IH.
  assert (Hd : deliver self i =
               if matches_target self i
               then set_gate self true (d_tail_samples_max self)
               else self) by reflexivity.
  rewrite Hd. clear Hd.
  destruct (matches_target self i); cbn [orb].
  - match goal with
    | |- (if ?b then _ else _) = _ => destruct b
    end; reflexivity.
  - reflexivity.
Qed.

Lemma run_decoder_spec (self : dcs_squelch_ff_impl) (input : list float)
    (n : Z) :
  let hit := existsb (matches_target self) (work_calls self input n) in
  let self1 := run_decoder self input n in
  d_dcs_decoder self1 =
    option_map (fun dec => fst (dcs_decoder_process_samples dec input n))
      (d_dcs_decoder self) /\
  d_target_code self1 = d_target_code self /\
  d_target_inverted self1 = d_target_inverted self /\
  d_tail_samples_max self1 = d_tail_samples_max self /\
  d_squelch_open self1 = d_squelch_open self || hit /\
  d_tail_samples self1 =
    (if hit then d_tail_samples_max self else d_tail_samples self).
Proof.
  cbv zeta. unfold run_decoder, work_calls.
  destruct (d_dcs_decoder self) as [dec|] eqn:Ed.
  - cbn [option_map].
    destruct (dcs_decoder_process_samples dec input n) as [dec' calls].
    rewrite deliver_all. cbn [snd fst].
    change (existsb (matches_target (set_decoder self dec')) calls)
      with (existsb (matches_target self) calls).
    destruct (existsb (matches_target self) calls); members;
      rewrite ?orb_true_r, ?orb_false_r; repeat split; reflexivity.
  - cbn [existsb option_map]. rewrite Ed, orb_false_r. repeat split.
Qed.

Lemma work_spec (self : dcs_squelch_ff_impl) (input : list float)
    (noutput_items : Z) :
  let hit :=
    existsb (matches_target self) (work_calls self input noutput_items) in
  let open := d_squelch_open self || hit in
  let tail := if hit then d_tail_samples_max self else d_tail_samples self in
  let buf := take (Z.to_nat noutput_items) input in
  let len := Z.of_nat (length buf) in
  let r := work self input noutput_items in
  snd r =
    (if negb open then replicate (length buf) F32.zero
     else if (tail <=? 0) || (len <? tail) then buf
     else pass_then_mute (Z.to_nat tail) buf) /\
  d_squelch_open (fst r) = open && ((tail <=? 0) || (len <? tail)) /\
  d_tail_samples (fst r) =
    (if open && (0 <? tail) then Z.max (tail - len) 0 else tail) /\
  d_tail_samples_max (fst r) = d_tail_samples_max self /\
  d_target_code (fst r) = d_target_code self /\
  d_target_inverted (fst r) = d_target_inverted self /\
  d_dcs_decoder (fst r) =
    option_map
      (fun dec => fst (dcs_decoder_process_samples dec input noutput_items))
      (d_dcs_decoder self).
Proof.
  cbv zeta. unfold work.
  destruct (run_decoder_spec self input noutput_items)
    as (Hd & Hc & Hi & Hm & Ho & Ht).
  cbv zeta in Ho, Ht.
  set (hit := existsb (matches_target self)
                (work_calls self input noutput_items)) in *.
  set (self1 := run_decoder self input noutput_items) in *.
  set (buf := take (Z.to_nat noutput_items) input).
  rewrite <- Ho, <- Ht, <- Hd, <- Hc, <- Hi, <- Hm.
  destruct (d_squelch_open self1) eqn:Eo.
  - cbn [negb andb].
    destruct (Z.leb_spec (d_tail_samples self1) 0) as [Cl|Cl]; cbn [orb].
    + rewrite (gate_loop_latched buf self1 Eo Cl). cbn [fst snd].
      replace (0 <? d_tail_samples self1) with false
        by (symmetry; apply Z.ltb_ge; exact Cl).
      rewrite Eo. repeat split.
    + rewrite (gate_loop_tail buf self1 _ Eo eq_refl Cl).
      replace (0 <? d_tail_samples self1) with true
        by (symmetry; apply Z.ltb_lt; exact Cl).
      destruct (Z.ltb_spec (Z.of_nat (length buf)) (d_tail_samples self1));
        members; repeat split; lia.
  - cbn [negb andb]. rewrite (gate_loop_closed buf self1 Eo).
    cbn [fst snd]. rewrite Eo. repeat split.
Qed.

(** X15.  One call of [work], in closed form.  Let [hit] tell whether one of
    the invocations the decoder makes over the buffer carries the target
    pair.  The gating loop then starts open if the gate was open or [hit],
    with the tail counter at the tail length if [hit] and unchanged
    otherwise.  A closed gate writes zeros and keeps its state.  An open gate
    with a tail counter of zero or less copies the whole buffer and stays as
    it is.  An open gate with a tail counter [t > 0] copies the first [t]
    samples and writes zeros after them, ending closed with counter 0, or, if
    the buffer is shorter than [t], copies it all and ends open with counter
    [t] less the buffer length.  The target pair and the tail length are
    never changed, and the decoder is the one
    [dcs_decoder_process_samples] leaves. *)
Theorem work_output (self : dcs_squelch_ff_impl) (input : list float)
    (noutput_items : Z) :
  let hit :=
    existsb (matches_target self) (work_calls self input noutput_items) in
  let open := d_squelch_open self || hit in
  let tail := if hit then d_tail_samples_max self else d_tail_samples self in
  let buf := take (Z.to_nat noutput_items) input in
  let len := Z.of_nat (length buf) in
  let r := work self input noutput_items in
  snd r =
    (if negb open then replicate (length buf) F32.zero
     else if (tail <=? 0) || (len <? tail) then buf
     else pass_then_mute (Z.to_nat tail) buf) /\
  d_squelch_open (fst r) = open && ((tail <=? 0) || (len <? tail)) /\
  d_tail_samples (fst r) =
    (if open && (0 <? tail) then Z.max (tail - len) 0 else tail) /\
  d_tail_samples_max (fst r) = d_tail_samples_max self /\
  d_target_code (fst r) = d_target_code self /\
  d_target_inverted (fst r) = d_target_inverted self /\
  d_dcs_decoder (fst r) =
    option_map
      (fun dec => fst (dcs_decoder_process_samples dec input noutput_items))
      (d_dcs_decoder self).
Proof. exact (work_spec self input noutput_items). Qed.

(** *** Invariants of a constructed object *)

Lemma make_fields (expf : float -> float) (allocated : bool) (cb : funptr)
    (this : ptr) (sample_rate target_code : Z) (target_inverted : bool)
    (tail_ms : float) (self : dcs_squelch_ff_impl) :
  make expf allocated cb this sample_rate target_code target_inverted tail_ms
  = Some self ->
  d_dcs_decoder self =
    (if allocated
     then Some (dcs_decoder_set_callback (dcs_decoder_new expf sample_rate)
                  (Some cb) this)
     else None) /\
  d_target_code self = target_code /\
  d_target_inverted self = target_inverted /\
  d_squelch_open self = false /\
  d_tail_samples self = 0 /\
  to_int (F32.div (F32.mul (F32.of_int sample_rate) tail_ms) c1000)
  = Some (d_tail_samples_max self).
Proof.
  unfold make.
  destruct (to_int (F32.div (F32.mul (F32.of_int sample_rate) tail_ms) c1000))
    as [m|]; [|discriminate].
  intros [= <-]. members. repeat split.
Qed.

Lemma work_tail_in_range (self : dcs_squelch_ff_impl) (input : list float)
    (n : Z) :
  tail_in_range self -> tail_in_range (fst (work self input n)).
Proof.
  intros [Hc Hr].
  destruct (work_spec self input n) as (_ & Ho & Ht & Hm & _).
  cbv zeta in Ho, Ht.
  set (hit := existsb (matches_target self) (work_calls self input n)) in *.
  set (len := Z.of_nat (length (take (Z.to_nat n) input))) in *.
  unfold tail_in_range. rewrite Ho, Ht, Hm. clear Ho Ht Hm.
  assert (Hlen : 0 <= len) by (unfold len; lia).
  destruct hit; cbn [orb andb].
  - rewrite orb_true_r. cbn [andb].
    destruct (Z.leb_spec (d_tail_samples_max self) 0) as [C|C];
      cbn [orb].
    + replace (0 <? d_tail_samples_max self) with false
        by (symmetry; apply Z.ltb_ge; exact C).
      split; [discriminate | lia].
    + replace (0 <? d_tail_samples_max self) with true
        by (symmetry; apply Z.ltb_lt; exact C).
      destruct (Z.ltb_spec len (d_tail_samples_max self)); split;
        try discriminate; lia.
  - rewrite orb_false_r.
    destruct (d_squelch_open self) eqn:Eo; cbn [andb].
    + destruct (Z.leb_spec (d_tail_samples self) 0) as [C|C]; cbn [orb].
      * replace (0 <? d_tail_samples self) with false
          by (symmetry; apply Z.ltb_ge; exact C).
        split; [discriminate | lia].
      * replace (0 <? d_tail_samples self) with true
          by (symmetry; apply Z.ltb_lt; exact C).
        destruct (Z.ltb_spec len (d_tail_samples self)); split;
          try discriminate; lia.
    + split; [intros _; apply Hc; reflexivity | lia].
Qed.

Lemma work_decoder_bound (cb : funptr) (this : ptr)
    (self : dcs_squelch_ff_impl) (input : list float) (n : Z) :
  decoder_bound cb this self -> decoder_bound cb this (fst (work self input n)).
Proof.
  intros H.
  destruct (work_spec self input n) as (_ & _ & _ & _ & _ & _ & Hd).
  cbv zeta in Hd. unfold decoder_bound in *. rewrite Hd.
  destruct (d_dcs_decoder self) as [dec|]; cbn [option_map]; [|exact I].
  destruct H as (H1 & H2 & H3).
  split; [|split; [|apply reach_process; exact H3]].
  - rewrite <- H1. unfold dcs_decoder_process_samples. cbv zeta.
    apply process_loop_frame.
  - rewrite <- H2. unfold dcs_decoder_process_samples. cbv zeta.
    apply process_loop_frame.
Qed.

(** X16.  In every object the constructor, [set_target_code] and [work] can
    produce: the tail counter is zero while the gate is closed; it lies
    between zero and the tail length; and the decoder, when there is one, is
    a reachable decoder still bound to [dcs_callback] with the object as
    context. *)
Theorem constructed_invariant (cb : funptr) (this : ptr)
    (self : dcs_squelch_ff_impl) :
  constructed cb this self ->
  (d_squelch_open self = false -> d_tail_samples self = 0) /\
  Z.min 0 (d_tail_samples_max self) <= d_tail_samples self
    <= Z.max 0 (d_tail_samples_max self) /\
  match d_dcs_decoder self with
  | Some dec =>
      callback dec = Some cb /\ callback_ctx dec = this /\ reachable dec
  | None => True
  end.
Proof.
  intros H.
  enough (tail_in_range self /\ decoder_bound cb this self) as [[A B] C]
    by (split; [exact A|]; split; [exact B | exact C]).
  induction H as [expf allocated rate code inverted tail_ms self Hmake
                 | self code inverted _ IH
                 | self input n _ IH].
  - destruct (make_fields _ _ _ _ _ _ _ _ _ Hmake)
      as (Hd & _ & _ & Ho & Ht & _).
    split.
    + unfold tail_in_range. rewrite Ht. split; [reflexivity | lia].
    + unfold decoder_bound. rewrite Hd. destruct allocated; [|exact I].
      split; [reflexivity|]. split; [reflexivity|].
      apply reach_set_callback, reach_new.
  - destruct IH as [[A B] C]. split.
    + unfold tail_in_range. members. split; [reflexivity | lia].
    + exact C.
  - destruct IH as [A C]. split.
    + apply work_tail_in_range. exact A.
    + apply work_decoder_bound. exact C.
Qed.

Lemma make_listening_298 (cb : funptr) (this : ptr) :
  make expf_16000 true cb this 16000 298 false c250
  = Some (listening_298 cb this).
Proof. reflexivity. Qed.

Lemma constructed_invariant_witness :
  (d_squelch_open (listening_298 1 0) = false ->
   d_tail_samples (listening_298 1 0) = 0) /\
  Z.min 0 (d_tail_samples_max (listening_298 1 0))
    <= d_tail_samples (listening_298 1 0)
    <= Z.max 0 (d_tail_samples_max (listening_298 1 0)) /\
  match d_dcs_decoder (listening_298 1 0) with
  | Some dec =>
      callback dec = Some 1 /\ callback_ctx dec = 0 /\ reachable dec
  | None => True
  end.
Proof.
  apply (constructed_invariant 1 0 (listening_298 1 0)).
  exact (constructed_make 1 0 expf_16000 true 16000 298 false c250
           (listening_298 1 0) (make_listening_298 1 0)).
Defined.

(** *** A target that is not a recognised code *)

Lemma existsb_none {A} (f : A -> bool) (l : list A) :
  Forall (fun x => f x = false) l -> existsb f l = false.
Proof.
  induction 1 as [|x l Hx _ IH]; cbn [existsb]; [reflexivity|].
  now rewrite Hx, IH.
Qed.

Lemma work_calls_well_formed (self : dcs_squelch_ff_impl)
    (input : list float) (n : Z) :
  Forall (fun i => In (inv_code i) DCS_VALID_CODES /\
                   (inv_inverted i = 0 \/ inv_inverted i = 1))
    (work_calls self input n).
Proof.
  unfold work_calls. destruct (d_dcs_decoder self) as [dec|]; [|constructor].
  unfold dcs_decoder_process_samples. cbv zeta.
  destruct (process_loop_calls (lp_alpha dec)
              (F32.sub F32.one (lp_alpha dec))
              (take (Z.to_nat n) input) dec) as [H _].
  eapply Forall_impl; [exact H|].
  intros i (_ & _ & A & B). auto.
Qed.

(** X17.  A closed gate whose target code is not in [DCS_VALID_CODES] is
    still closed after [work], whatever the buffer: the output is all zeros
    and the tail counter and the target are unchanged.  Such a gate never
    opens. *)
Theorem unrecognised_target_stays_closed (self : dcs_squelch_ff_impl)
    (input : list float) (noutput_items : Z) :
  ~ In (d_target_code self) DCS_VALID_CODES ->
  d_squelch_open self = false ->
  let r := work self input noutput_items in
  d_squelch_open (fst r) = false /\
  d_tail_samples (fst r) = d_tail_samples self /\
  d_target_code (fst r) = d_target_code self /\
  snd r = replicate (length (take (Z.to_nat noutput_items) input)) F32.zero.
Proof.
  intros Hn Hc. cbv zeta.
  destruct (work_spec self input noutput_items)
    as (Hout & Ho & Ht & _ & Hcode & _).
  cbv zeta in Hout, Ho, Ht.
  assert (Hhit : existsb (matches_target self)
                   (work_calls self input noutput_items) = false).
  { apply existsb_none.
    eapply Forall_impl; [apply work_calls_well_formed|].
    intros i [Hv _]. unfold matches_target.
    destruct (Z.eqb_spec (inv_code i) (d_target_code self)) as [E|E];
      [|reflexivity].
    exfalso. apply Hn. rewrite <- E. exact Hv. }
  rewrite Hhit, Hc in Hout, Ho, Ht. cbn [orb negb andb] in Hout, Ho, Ht.
  auto.
Qed.

Lemma code_23_absent : ~ In 23 DCS_VALID_CODES.
Proof.
  intros H. apply valid_code_accepted in H. vm_compute in H. discriminate H.
Qed.

(** A gate set to code 23, which the table does not hold. *)
Lemma unrecognised_target_stays_closed_witness :
  d_squelch_open
    (fst (work (set_target_code (listening_298 1 0) 23 false)
            [F32.one] 1)) = false.
Proof.
  apply (unrecognised_target_stays_closed
           (set_target_code (listening_298 1 0) 23 false) [F32.one] 1).
  - exact code_23_absent.
  - reflexivity.
Defined.

(** *** No decoder *)

(** X18.  When [dcs_decoder_new] returns NULL in the constructor, every call
    of [work] writes zeros only and leaves the object as it is, also after
    [set_target_code]: the block mutes its output for good. *)
Theorem no_decoder_mutes (expf : float -> float) (cb : funptr) (this : ptr)
    (sample_rate target_code : Z) (target_inverted : bool) (tail_ms : float)
    (self : dcs_squelch_ff_impl) :
  make expf false cb this sample_rate target_code target_inverted tail_ms
  = Some self ->
  forall (input : list float) (noutput_items : Z),
    (forall code inverted,
       work (set_target_code self code inverted) input noutput_items =
       (set_target_code self code inverted,
        replicate (length (take (Z.to_nat noutput_items) input)) F32.zero)) /\
    work self input noutput_items =
    (self, replicate (length (take (Z.to_nat noutput_items) input)) F32.zero).
Proof.
  intros Hmake input n.
  destruct (make_fields _ _ _ _ _ _ _ _ _ Hmake) as (Hd & _ & _ & Ho & _).
  split.
  - intros code inverted. unfold work, run_decoder. members. rewrite Hd.
    apply gate_loop_closed. reflexivity.
  - unfold work, run_decoder. rewrite Hd. apply gate_loop_closed. exact Ho.
Qed.

Lemma no_decoder_mutes_witness :
  work (set_target_code deaf_298 19 true) [F32.one] 1
  = (set_target_code deaf_298 19 true,
     replicate (length (take (Z.to_nat 1) [F32.one])) F32.zero).
Proof.
  exact (proj1 (no_decoder_mutes expf_16000 1 0 16000 298 false c250
                  deaf_298 eq_refl [F32.one] 1) 19 true).
Defined.

(** *** Silence *)

(** X19.  A newly constructed object is idle: its gate is closed and its
    decoder, if it has one, is in the state silence keeps it in.  [work] on a
    buffer of zeros keeps an idle object idle, with its tail counter
    unchanged, and writes zeros: silence never opens the gate, over any
    number of calls. *)
Theorem silence_keeps_closed :
  (forall expf allocated cb this sample_rate target_code target_inverted
          tail_ms self,
     make expf allocated cb this sample_rate target_code target_inverted
       tail_ms = Some self ->
     idle self) /\
  forall (self : dcs_squelch_ff_impl) (n : nat),
    idle self ->
    let r := work self (repeat F32.zero n) (Z.of_nat n) in
    idle (fst r) /\
    d_tail_samples (fst r) = d_tail_samples self /\
    snd r = repeat F32.zero n.
Proof.
  split.
  - intros expf allocated cb this rate code inverted tail_ms self Hmake.
    destruct (make_fields _ _ _ _ _ _ _ _ _ Hmake) as (Hd & _ & _ & Ho & _).
    split; [exact Ho|]. rewrite Hd. destruct allocated; [|exact I].
    unfold silent. fields. conjuncts; reflexivity.
  - intros self n [Hc Hs]. cbv zeta.
    destruct (work_spec self (repeat F32.zero n) (Z.of_nat n))
      as (Hout & Ho & Ht & _ & _ & _ & Hd).
    cbv zeta in Hout, Ho, Ht, Hd.
    assert (Hsil : match d_dcs_decoder self with
                   | Some dec =>
                       silent (fst (dcs_decoder_process_samples dec
                                      (repeat F32.zero n) (Z.of_nat n))) /\
                       snd (dcs_decoder_process_samples dec
                              (repeat F32.zero n) (Z.of_nat n)) = []
                   | None => True
                   end).
    { destruct (d_dcs_decoder self) as [dec|]; [|exact I].
      unfold dcs_decoder_process_samples. cbv zeta.
      rewrite Nat2Z.id, take_ge by (rewrite repeat_length; lia).
      apply process_loop_silent. exact Hs. }
    assert (Hhit : existsb (matches_target self)
                     (work_calls self (repeat F32.zero n) (Z.of_nat n))
                   = false).
    { unfold work_calls. destruct (d_dcs_decoder self) as [dec|];
        [|reflexivity].
      destruct Hsil as [_ ->]. reflexivity. }
    rewrite Hhit, Hc in Hout, Ho, Ht. cbn [orb negb andb] in Hout, Ho, Ht.
    rewrite Nat2Z.id, take_ge, repeat_length in Hout
      by (rewrite repeat_length; lia).
    split; [|split; [exact Ht|]].
    + split; [exact Ho|]. rewrite Hd.
      destruct (d_dcs_decoder self) as [dec|]; cbn [option_map]; [|exact I].
      exact (proj1 Hsil).
    + rewrite Hout. clear. induction n as [|n IH]; [reflexivity|].
      cbn [replicate repeat]. now rewrite IH.
Qed.

(** *** The tail length *)

Lemma binary_round_aux_sign (sx : bool) (mx ex : Z) (lx : location) :
  match binary_round_aux 24 128 sx mx ex lx with
  | S754_zero s | S754_infinity s | S754_finite s _ _ => s = sx
  | S754_nan => True
  end.
Proof.
  unfold binary_round_aux.
  destruct (shr_fexp 24 128 mx ex lx) as [mrs' e'].
  destruct (shr_fexp 24 128
              (round_nearest_even (shr_m mrs') (loc_of_shr_record mrs'))
              e' loc_Exact) as [mrs'' e''].
  destruct (shr_m mrs''); [reflexivity| |exact I].
  destruct (e'' <=? 128 - 24); reflexivity.
Qed.

Lemma binary_round_aux_non_negative (mx ex : Z) (lx : location) :
  non_negative (binary_round_aux 24 128 false mx ex lx) = true.
Proof.
  pose proof (binary_round_aux_sign false mx ex lx) as H.
  destruct (binary_round_aux 24 128 false mx ex lx); try reflexivity;
    subst; reflexivity.
Qed.

Lemma of_int_non_negative (n : Z) :
  0 <= n -> non_negative (F32.of_int n) = true.
Proof.
  intros Hn. destruct n as [|p|p]; [reflexivity| |lia].
  change (F32.of_int (Z.pos p)) with (binary_round 24 128 false p 0).
  unfold binary_round.
  destruct (shl_align p 0 (fexp 24 128 (Z.pos (digits2_pos p) + 0)))
    as [mz ez].
  apply binary_round_aux_non_negative.
Qed.

Lemma mul_non_negative (x y : float) :
  non_negative x = true -> non_negative y = true ->
  non_negative (F32.mul x y) = true.
Proof.
  destruct x as [sx|[]| |[] mx ex]; destruct y as [sy|[]| |[] my ey];
    try discriminate; intros _ _; try reflexivity.
  unfold F32.mul, F32.prec, F32.emax. cbn [SFmul xorb].
  apply binary_round_aux_non_negative.
Qed.

Lemma div_c1000_non_negative (x : float) :
  non_negative x = true -> non_negative (F32.div x c1000) = true.
Proof.
  destruct x as [sx|[]| |[] mx ex]; try discriminate; intros _;
    try reflexivity.
  unfold F32.div, F32.prec, F32.emax, c1000. cbn [SFdiv xorb].
  destruct (SFdiv_core_binary 24 128 (Z.pos mx) ex 16384000 (-14))
    as [[mz ez] lz].
  apply binary_round_aux_non_negative.
Qed.

Lemma to_int_non_negative (x : float) (v : Z) :
  non_negative x = true -> to_int x = Some v -> 0 <= v.
Proof.
  destruct x as [sx|sx| |[] m e]; try discriminate; intros _.
  - intros [= <-]. lia.
  - unfold to_int. cbv zeta.
    set (mag := if 0 <=? e then Z.pos m * 2 ^ e else Z.pos m / 2 ^ (- e)).
    assert (Hm : 0 <= mag).
    { unfold mag. destruct (Z.leb_spec 0 e).
      - apply Z.mul_nonneg_nonneg; [lia|]. apply Z.pow_nonneg. lia.
      - apply Z.div_pos; [lia|]. apply Z.pow_pos_nonneg; lia. }
    destruct ((- 2 ^ 31 <=? mag) && (mag <? 2 ^ 31)); [|discriminate].
    intros [= <-]. exact Hm.
Qed.

(** X20.  The tail length the constructor computes,
    [(int)((float)sample_rate * tail_ms / 1000.0f)], for a sample rate that
    is not negative: it is not negative when [tail_ms] is not; it is 0 when
    [tail_ms] is a zero; and the conversion to [int] is undefined when
    [tail_ms] is a NaN or an infinity. *)
Theorem make_tail_length (expf : float -> float) (allocated : bool)
    (cb : funptr) (this : ptr) (sample_rate target_code : Z)
    (target_inverted : bool) (tail_ms : float) :
  0 <= sample_rate < 2 ^ 31 ->
  (forall self,
     non_negative tail_ms = true ->
     make expf allocated cb this sample_rate target_code target_inverted
       tail_ms = Some self ->
     0 <= d_tail_samples_max self) /\
  (forall s,
     tail_ms = S754_zero s ->
     exists self,
       make expf allocated cb this sample_rate target_code target_inverted
         tail_ms = Some self /\
       d_tail_samples_max self = 0) /\
  (tail_ms = S754_nan \/ tail_ms = S754_infinity false \/
   tail_ms = S754_infinity true ->
   make expf allocated cb this sample_rate target_code target_inverted
     tail_ms = None).
Proof.
  intros Hr.
  assert (Hof : F32.of_int sample_rate = S754_zero false \/
                exists m e, F32.of_int sample_rate = S754_finite false m e).
  { destruct (Z.eq_dec sample_rate 0) as [->|Hne]; [left; reflexivity|].
    right. destruct (of_int_normal sample_rate ltac:(lia)) as (m & e & H & _).
    exists m, e. exact H. }
  split; [|split].
  - intros self Hnn Hmake.
    destruct (make_fields _ _ _ _ _ _ _ _ _ Hmake)
      as (_ & _ & _ & _ & _ & Hto).
    apply (to_int_non_negative _ _ (div_c1000_non_negative _
             (mul_non_negative _ _ (of_int_non_negative _ (proj1 Hr)) Hnn))
             Hto).
  - intros s ->. unfold make.
    destruct Hof as [-> | (m & e & ->)]; cbn [F32.mul SFmul F32.div SFdiv
      c1000 to_int xorb]; eexists; (split; [reflexivity|reflexivity]).
  - intros [-> | [-> | ->]]; unfold make;
      destruct Hof as [-> | (m & e & ->)]; reflexivity.
Qed.

Lemma make_tail_length_witness :
  (forall self,
     non_negative F32.zero = true ->
     make expf_16000 true 1 0 16000 298 false F32.zero = Some self ->
     0 <= d_tail_samples_max self) /\
  (forall s,
     F32.zero = S754_zero s ->
     exists self,
       make expf_16000 true 1 0 16000 298 false F32.zero = Some self /\
       d_tail_samples_max self = 0) /\
  (F32.zero = S754_nan \/ F32.zero = S754_infinity false \/
   F32.zero = S754_infinity true ->
   make expf_16000 true 1 0 16000 298 false F32.zero = None).
Proof.
  apply (make_tail_length expf_16000 true 1 0 16000 298 false F32.zero).
  lia.
Defined.

(** *** A tail length of zero *)

(** X21.  An object whose tail length and tail counter are zero or less,
    and whose gate is open or is opened by an invocation of this call, is
    open after [work], with a tail counter and a tail length of zero or
    less, and has copied the whole buffer.  With a tail length of zero the
    gate, once open, never closes until [set_target_code]. *)
Theorem zero_tail_latches (self : dcs_squelch_ff_impl) (input : list float)
    (noutput_items : Z) :
  d_tail_samples_max self <= 0 ->
  d_tail_samples self <= 0 ->
  d_squelch_open self = true \/
  existsb (matches_target self) (work_calls self input noutput_items) = true ->
  d_squelch_open (fst (work self input noutput_items)) = true /\
  d_tail_samples (fst (work self input noutput_items)) <= 0 /\
  d_tail_samples_max (fst (work self input noutput_items)) <= 0 /\
  snd (work self input noutput_items) = take (Z.to_nat noutput_items) input.
Proof.
  intros Hm Ht Hopen.
  destruct (work_spec self input noutput_items)
    as (Hout & Ho & Htail & Hmax & _).
  cbv zeta in Hout, Ho, Htail.
  rewrite Hout, Ho, Htail, Hmax. clear Hout Ho Htail Hmax.
  set (hit := existsb (matches_target self)
                (work_calls self input noutput_items)) in *.
  assert (Hop : d_squelch_open self || hit = true)
    by (destruct Hopen as [-> | ->]; [reflexivity | apply orb_true_r]).
  rewrite Hop. cbn [negb andb].
  assert (Hle : (if hit then d_tail_samples_max self
                 else d_tail_samples self) <= 0) by (destruct hit; lia).
  replace ((if hit then d_tail_samples_max self
            else d_tail_samples self) <=? 0) with true
    by (symmetry; apply Z.leb_le; exact Hle).
  replace (0 <? (if hit then d_tail_samples_max self
                 else d_tail_samples self)) with false
    by (symmetry; apply Z.ltb_ge; exact Hle).
  cbn [orb]. auto.
Qed.

Lemma zero_tail_latches_witness :
  d_squelch_open (fst (work latched_open [F32.one; F32.one] 2)) = true /\
  d_tail_samples (fst (work latched_open [F32.one; F32.one] 2)) <= 0 /\
  d_tail_samples_max (fst (work latched_open [F32.one; F32.one] 2)) <= 0 /\
  snd (work latched_open [F32.one; F32.one] 2)
  = take (Z.to_nat 2) [F32.one; F32.one].
Proof.
  apply (zero_tail_latches latched_open [F32.one; F32.one] 2).
  - cbn. lia.
  - cbn. lia.
  - left. reflexivity.
Defined.

(** *** The decoder runs ahead of the gate *)

Lemma pass_then_mute_all (k : nat) (l : list float) :
  (length l <= k)%nat -> pass_then_mute k l = l.
Proof.
  intros H. unfold pass_then_mute.
  rewrite take_ge by exact H.
  replace (length l - k)%nat with 0%nat by lia. apply app_nil_r.
Qed.

Lemma process_samples_app_calls (dec : dcs_decoder) (s1 s2 : list float) :
  snd (dcs_decoder_process_samples dec (s1 ++ s2)
         (Z.of_nat (length s1) + Z.of_nat (length s2))) =
  snd (dcs_decoder_process_samples dec s1 (Z.of_nat (length s1))) ++
  snd (dcs_decoder_process_samples
         (fst (dcs_decoder_process_samples dec s1 (Z.of_nat (length s1))))
         s2 (Z.of_nat (length s2))).
Proof.
  unfold dcs_decoder_process_samples. cbv zeta.
  rewrite <- Nat2Z.inj_add, !Nat2Z.id.
  rewrite !take_ge by (rewrite ?length_app; lia).
  rewrite process_loop_alpha, process_loop_app. reflexivity.
Qed.

(** X22.  The decoder runs over the whole buffer before the gate does.  Let
    a closed gate with a positive tail length be given a stream in two
    parts, of which the first makes no invocation for the target and the
    second makes one.  Given the first part alone, [work] writes zeros for
    it.  Given both parts in one buffer, [work] copies the stream from its
    first sample, for as many samples as the tail length: the output for the
    first part depends on how the stream is cut into buffers. *)
Theorem work_runs_ahead (self : dcs_squelch_ff_impl) (dec : dcs_decoder)
    (s1 s2 : list float) :
  d_dcs_decoder self = Some dec ->
  d_squelch_open self = false ->
  existsb (matches_target self)
    (snd (dcs_decoder_process_samples dec s1 (Z.of_nat (length s1))))
  = false ->
  existsb (matches_target self)
    (snd (dcs_decoder_process_samples
            (fst (dcs_decoder_process_samples dec s1 (Z.of_nat (length s1))))
            s2 (Z.of_nat (length s2))))
  = true ->
  0 < d_tail_samples_max self ->
  snd (work self s1 (Z.of_nat (length s1)))
  = replicate (length s1) F32.zero /\
  snd (work self (s1 ++ s2) (Z.of_nat (length s1) + Z.of_nat (length s2)))
  = pass_then_mute (Z.to_nat (d_tail_samples_max self)) (s1 ++ s2).
Proof.
  intros Hd Hc H1 H2 Hm. split.
  - destruct (work_spec self s1 (Z.of_nat (length s1))) as (Hout & _).
    cbv zeta in Hout. unfold work_calls in Hout. rewrite Hd, H1, Hc in Hout.
    cbn [orb negb] in Hout.
    rewrite Nat2Z.id, take_ge in Hout by lia. exact Hout.
  - destruct (work_spec self (s1 ++ s2)
                (Z.of_nat (length s1) + Z.of_nat (length s2)))
      as (Hout & _).
    cbv zeta in Hout. unfold work_calls in Hout.
    rewrite Hd, process_samples_app_calls, existsb_app, H1, H2, Hc in Hout.
    cbn [orb negb] in Hout.
    replace (Z.to_nat (Z.of_nat (length s1) + Z.of_nat (length s2)))
      with (length (s1 ++ s2)) in Hout by (rewrite length_app; lia).
    rewrite take_ge in Hout by lia.
    rewrite Hout.
    replace (d_tail_samples_max self <=? 0) with false
      by (symmetry; apply Z.leb_gt; exact Hm).
    cbn [orb].
    destruct (Z.ltb_spec (Z.of_nat (length (s1 ++ s2)))
                (d_tail_samples_max self)); [|reflexivity].
    symmetry. apply pass_then_mute_all. lia.
Qed.

(** The confirming signal at 16 kHz, cut before its last sample. *)
Lemma work_runs_ahead_witness :
  snd (work (listening_298 1 0) unconfirmed_stream
         (Z.of_nat (length unconfirmed_stream)))
  = replicate (length unconfirmed_stream) F32.zero /\
  snd (work (listening_298 1 0) (unconfirmed_stream ++ [F32.opp F32.one])
         (Z.of_nat (length unconfirmed_stream)
          + Z.of_nat (length [F32.opp F32.one])))
  = pass_then_mute (Z.to_nat (d_tail_samples_max (listening_298 1 0)))
      (unconfirmed_stream ++ [F32.opp F32.one]).
Proof.
  apply (work_runs_ahead (listening_298 1 0)
           (dcs_decoder_set_callback (dcs_decoder_new expf_16000 16000)
              (Some 1) 0)
           unconfirmed_stream [F32.opp F32.one]).
  - reflexivity.
  - reflexivity.
  - vm_compute. reflexivity.
  - vm_compute. reflexivity.
  - reflexivity.
Defined.

End BlockFacts.
